(** * Grammar-constrained beam-search decoder ([Parser.parse], [Parser.score])

    A shallow embedding of [src/gan/gen_pyt/model/parser.py].  The neural
    layers, the grammar, the transition system, the vocabulary and
    [torch.topk] are collaborators of the parser: they are interfaces here
    (type classes), and the control flow of [parse] and [score] is written
    over them the way the Python code is. *)

From Stdlib Require Import String.
From Stdlib Require Import List ZArith Lia Bool Arith PeanoNat.
From Stdlib Require Import Permutation Sorted.
Import ListNotations.

Set Implicit Arguments.

(* ================================================================== *)
(** * Interfaces of the collaborators *)
(* ================================================================== *)

(** The element type of the tensors and the operations [parse] and [score]
    use on it.  [eps] is the constant [1.e-7] of [score]; [is_zero] is
    [torch.eq(_, 0.)]. *)
Class Numeric := {
  num : Type;
  zero : num;
  one : num;
  eps : num;
  add : num -> num -> num;
  mul : num -> num -> num;
  neg : num -> num;
  log : num -> num;
  leb : num -> num -> bool;
  is_zero : num -> bool
}.

(** Laws of an exact arithmetic: the fragment of an ordered semiring the
    theorems below rely on. *)
Class ExactArith (N : Numeric) : Prop := {
  add_zero_l : forall x : num, add zero x = x;
  add_zero_r : forall x : num, add x zero = x;
  mul_zero_r : forall x : num, mul x zero = zero;
  mul_one_r : forall x : num, mul x one = x;
  leb_total : forall x y : num, leb x y = true \/ leb y x = true;
  leb_trans : forall x y z : num,
      leb x y = true -> leb y z = true -> leb x z = true;
  leb_neg : forall x y : num, leb (neg x) (neg y) = leb y x;
  is_zero_spec : forall x : num, is_zero x = true <-> x = zero;
  one_pos : leb one zero = false;
  add_pos : forall x y : num,
      leb x zero = false -> leb zero y = true -> leb (add x y) zero = false
}.

(** [self.grammar]: productions with stable ids; the id [len(grammar)] is
    the Reduce action. *)
Class Grammar := {
  Production : Type;
  Field : Type;
  grammar_len : nat;
  prod2id : Production -> nat;
  id2prod : nat -> Production
}.

(** [self.prim_vocab]: [vocab_lookup tok] is [Some (prim_vocab[tok])] when
    [tok in prim_vocab]; [unk] is [prim_vocab.unk]; [unk_word] is
    [prim_vocab.id2word[prim_vocab.unk_id]]; [vocab_size] is the width of
    the token distribution. *)
Class PrimVocab := {
  vocab_size : nat;
  vocab_lookup : string -> option nat;
  unk : nat;
  unk_word : string;
  idxToLabel : nat -> string
}.

Inductive ActionType := TApplyRule | TReduce | TGenToken.

Inductive Action {G : Grammar} :=
| ApplyRuleAction (production : Production)
| ReduceAction
| GenTokenAction (token : string).

Record ActionInfo {G : Grammar} := mkActionInfo {
  action : Action;
  ai_t : nat;
  parent_t : option nat;
  frontier_prod : option Production;
  frontier_field : option Field;
  copy_from_src : bool;
  src_token_position : option (list nat)
}.

(** The transition system and the symbolic part of a [DecodeHypothesis]
    (its tree, action history and step counter). *)
Class TransitionSystem (G : Grammar) := {
  Derivation : Type;
  empty_derivation : Derivation;
  get_valid_continuation_types : Derivation -> list ActionType;
  get_valid_continuating_productions : Derivation -> list Production;
  clone_and_apply_action_info : Derivation -> ActionInfo -> Derivation;
  completed : Derivation -> bool;
  hyp_t : Derivation -> nat;
  frontier_created_time : Derivation -> nat;
  frontier_node_production : Derivation -> Production;
  frontier_field_field : Derivation -> Field
}.

(** A tensor of rank two, read by index. *)
Definition Tensor2 {N : Numeric} := nat -> nat -> num.

(** What one batched call of the decoder yields for the live hypotheses:
    lines 634-739 of [parse]. *)
Record StepScores {N : Numeric} (DecState : Type) := mkStepScores {
  apply_rule_log_prob : Tensor2;
  gen_from_vocab_prob : Tensor2;
  primitive_copy_prob : Tensor2;
  primitive_predictor_prob : Tensor2;
  new_state : nat -> DecState
}.

Class Scorer (N : Numeric) (G : Grammar) (TS : TransitionSystem G) := {
  DecState : Type;
  init_decoder_state : list string -> DecState;
  score_step : list string -> nat -> list Derivation ->
               list (list DecState) -> list DecState -> StepScores DecState
}.

(** [torch.topk(values, k)]: the values and the positions selected. *)
Class TopK (N : Numeric) := {
  topk : list num -> nat -> list num * list nat
}.

(** The contract of [torch.topk] for [k <= len(values)]: [k] distinct
    positions, each with its value, in descending order of value, and no
    position left out holds a value strictly above a selected one.  The
    order among equal values is not part of it. *)
Definition sorted_desc {N : Numeric} (l : list num) : Prop :=
  forall i j x y, i < j -> nth_error l i = Some x -> nth_error l j = Some y ->
                  leb y x = true.

Record topk_contract {N : Numeric} (values : list num) (k : nat)
       (r : list num * list nat) : Prop := {
  tk_len : length (snd r) = k;
  tk_vals : map (nth_error values) (snd r) = map Some (fst r);
  tk_nodup : NoDup (snd r);
  tk_sorted : sorted_desc (fst r);
  tk_top : forall p q x y, In p (snd r) -> ~ In q (snd r) ->
             nth_error values p = Some x -> nth_error values q = Some y ->
             leb y x = true
}.

Class TopKSpec (N : Numeric) (TK : TopK N) : Prop :=
  topk_ok : forall values k, k <= length values ->
                             topk_contract values k (topk values k).

(** [DecodeHypothesis]: the symbolic part and the [score] attribute that
    [parse] assigns. *)
Record DecodeHypothesis {N : Numeric} {G : Grammar} {TS : TransitionSystem G} :=
  mkHyp { tree : Derivation; score : num }.
Arguments mkHyp {N G TS} tree score.

(** [args] as far as [parse] and [score] read it. *)
Record Args := mkArgs {
  no_copy : bool;
  decode_max_time_step : nat
}.

(* ================================================================== *)
(** * Input aggregation (lines 610-613) *)
(* ================================================================== *)

(** [d.setdefault(token, []).append(pos)] on an insertion-ordered map. *)
Fixpoint setdefault_append (d : list (string * list nat)) (token : string)
         (pos : nat) : list (string * list nat) :=
  match d with
  | [] => [(token, [pos])]
  | (k, v) :: d' =>
      if String.eqb k token then (k, v ++ [pos]) :: d'
      else (k, v) :: setdefault_append d' token pos
  end.

Definition enumerate {A} (l : list A) : list (nat * A) :=
  combine (seq 0 (length l)) l.

Definition aggregated_primitive_tokens (src_sent : list string)
  : list (string * list nat) :=
  fold_left (fun d e => setdefault_append d (snd e) (fst e))
            (enumerate src_sent) [].

Fixpoint agg_lookup (d : list (string * list nat)) (token : string)
  : option (list nat) :=
  match d with
  | [] => None
  | (k, v) :: d' => if String.eqb k token then Some v else agg_lookup d' token
  end.

(* ================================================================== *)
(** * Beam search: [Parser.parse] *)
(* ================================================================== *)

Section Parse.
Context {N : Numeric} {G : Grammar} {V : PrimVocab}
        {TS : TransitionSystem G} {SC : Scorer N TS} {TK : TopK N}.

Variable args : Args.
Variable src_sent : list string.
Variable beam_size : nat.
Variable return_states : bool.

(** [tensor.sum()] over a vector. *)
Definition tsum (l : list num) : num := fold_left add l zero.

(** [m[i, j] = v] *)
Definition upd2 (m : Tensor2) (i j : nat) (v : num) : Tensor2 :=
  fun i' j' => if (i' =? i) && (j' =? j) then v else m i' j'.

(** [np.argmax]: the first position of the largest entry. *)
Fixpoint argmax_from (best_i : nat) (best : num) (i : nat) (l : list num)
  : nat :=
  match l with
  | [] => best_i
  | x :: l' => if leb x best then argmax_from best_i best (S i) l'
               else argmax_from i x (S i) l'
  end.

Definition argmax (l : list num) : nat :=
  match l with
  | [] => 0
  | x :: l' => argmax_from 0 x 1 l'
  end.

(** An entry of [hyp_unk_copy_info]. *)
Record UnkCopy := mkUnkCopy {
  uc_token : string;
  uc_token_pos_list : list nat;
  uc_copy_prob : num
}.

(** The lists a step fills while it walks over the hypotheses
    (lines 745-749), with the token distribution it updates in place. *)
Record Cands := mkCands {
  primitive_prob : Tensor2;
  gentoken_prev_hyp_ids : list nat;
  gentoken_new_hyp_unks : list string;
  applyrule_new_hyp_scores : list num;
  applyrule_new_hyp_prod_ids : list nat;
  applyrule_prev_hyp_ids : list nat
}.

Section Step.
Variable scores : StepScores DecState.
Let agg := aggregated_primitive_tokens src_sent.

(** Lines 729-739. *)
Definition initial_primitive_prob : Tensor2 :=
  if no_copy args then gen_from_vocab_prob scores
  else fun h i => mul (primitive_predictor_prob scores h 0)
                      (gen_from_vocab_prob scores h i).

(** The copy mass of one input token for hypothesis [hyp_id]
    (lines 787-788). *)
Definition gated_copy_prob (hyp_id : nat) (token_pos_list : list nat) : num :=
  mul (primitive_predictor_prob scores hyp_id 1)
      (tsum (map (primitive_copy_prob scores hyp_id) token_pos_list)).

(** The body of the loop over [aggregated_primitive_tokens]
    (lines 786-796). *)
Definition copy_token_step (hyp_id : nat) (acc : Tensor2 * list UnkCopy)
           (entry : string * list nat) : Tensor2 * list UnkCopy :=
  let g := gated_copy_prob hyp_id (snd entry) in
  match vocab_lookup (fst entry) with
  | Some token_id =>
      (upd2 (fst acc) hyp_id token_id (add (fst acc hyp_id token_id) g),
       snd acc)
  | None => (fst acc, snd acc ++ [mkUnkCopy (fst entry) (snd entry) g])
  end.

Definition copy_aggregate (hyp_id : nat) (pp : Tensor2)
  : Tensor2 * list UnkCopy :=
  fold_left (copy_token_step hyp_id) agg (pp, []).

Definition with_gentoken (pp : Tensor2) (ids : list nat)
           (unks : list string) (c : Cands) : Cands :=
  mkCands pp ids unks (applyrule_new_hyp_scores c)
          (applyrule_new_hyp_prod_ids c) (applyrule_prev_hyp_ids c).

(** The GenToken branch of the loop over action types (lines 780-802). *)
Definition gentoken_branch (hyp_id : nat) (c : Cands) : Cands :=
  let r := if no_copy args then (primitive_prob c, [])
           else copy_aggregate hyp_id (primitive_prob c) in
  let hyp_unk_copy_info := snd r in
  let ids := gentoken_prev_hyp_ids c ++ [hyp_id] in
  if negb (no_copy args) && (0 <? length hyp_unk_copy_info) then
    let unk_i := argmax (map uc_copy_prob hyp_unk_copy_info) in
    let u := nth unk_i hyp_unk_copy_info (mkUnkCopy EmptyString [] zero) in
    with_gentoken (upd2 (fst r) hyp_id unk (uc_copy_prob u)) ids
                  (gentoken_new_hyp_unks c ++ [uc_token u]) c
  else with_gentoken (fst r) ids (gentoken_new_hyp_unks c) c.

(** One ApplyRule or Reduce candidate appended (lines 768-770, 776-778). *)
Definition push_applyrule (new_hyp_score : num) (prod_id hyp_id : nat)
           (c : Cands) : Cands :=
  mkCands (primitive_prob c) (gentoken_prev_hyp_ids c)
          (gentoken_new_hyp_unks c)
          (applyrule_new_hyp_scores c ++ [new_hyp_score])
          (applyrule_new_hyp_prod_ids c ++ [prod_id])
          (applyrule_prev_hyp_ids c ++ [hyp_id]).

(** The body of the loop over [action_types] (lines 757-802). *)
Definition action_type_step (hyp_id : nat) (hyp : DecodeHypothesis)
           (c : Cands) (action_type : ActionType) : Cands :=
  match action_type with
  | TApplyRule =>
      fold_left
        (fun c production =>
           let prod_id := prod2id production in
           let prod_score := apply_rule_log_prob scores hyp_id prod_id in
           push_applyrule (add (score hyp) prod_score) prod_id hyp_id c)
        (get_valid_continuating_productions (tree hyp)) c
  | TReduce =>
      let action_score := apply_rule_log_prob scores hyp_id grammar_len in
      push_applyrule (add (score hyp) action_score) grammar_len hyp_id c
  | TGenToken => gentoken_branch hyp_id c
  end.

(** The body of the loop over the hypotheses (lines 751-802). *)
Definition hyp_step (c : Cands) (e : nat * DecodeHypothesis) : Cands :=
  fold_left (action_type_step (fst e) (snd e))
            (get_valid_continuation_types (tree (snd e))) c.

Definition collect (hypotheses : list DecodeHypothesis) : Cands :=
  fold_left hyp_step (enumerate hypotheses)
            (mkCands initial_primitive_prob [] [] [] [] []).

(** [gen_token_new_hyp_scores] (lines 811-813): one row of
    [vocab_size] scores per GenToken hypothesis, flattened.  [hyp_scores]
    has one entry per hypothesis ([bo_scores]), so the index is in
    range. *)
Definition gen_token_new_hyp_scores (hyp_scores : list num) (c : Cands)
  : list num :=
  flat_map (fun h => map (fun i => add (nth h hyp_scores zero)
                                       (log (primitive_prob c h i)))
                         (seq 0 vocab_size))
           (gentoken_prev_hyp_ids c).

(** [new_hyp_scores] (lines 805-819); [None] is Python's [None]. *)
Definition new_hyp_scores (hyp_scores : list num) (c : Cands)
  : option (list num) :=
  let a := match applyrule_new_hyp_scores c with
           | [] => None
           | _ => Some (applyrule_new_hyp_scores c)
           end in
  match gentoken_prev_hyp_ids c with
  | [] => a
  | _ => match a with
         | None => Some (gen_token_new_hyp_scores hyp_scores c)
         | Some s => Some (s ++ gen_token_new_hyp_scores hyp_scores c)
         end
  end.
End Step.

(** Python's exceptions are [None]. *)
Definition obind {A B} (o : option A) (f : A -> option B) : option B :=
  match o with Some x => f x | None => None end.

Notation "x <- e ;; k" := (obind e (fun x => k))
  (at level 61, e at next level, right associativity).

Fixpoint mapM {A B} (f : A -> option B) (l : list A) : option (list B) :=
  match l with
  | [] => Some []
  | x :: l' => y <- f x ;; ys <- mapM f l' ;; Some (y :: ys)
  end.

(** [l[t - 1]] with Python's negative index at [t = 0]. *)
Definition py_index_pred {A} (l : list A) (t : nat) : option A :=
  match t with
  | 0 => nth_error l (length l - 1)
  | S t' => nth_error l t'
  end.

(** The variables of the [while] loop. *)
Record BeamState := mkBeam {
  bs_t : nat;
  hypotheses : list DecodeHypothesis;
  hyp_states : list (list DecState);
  h_tm1 : list DecState;
  hyp_scores : list num;
  completed_hypotheses : list DecodeHypothesis;
  saved_states : list (list DecState)
}.

(** Lines 615-630: a fresh start, or the re-entry with a partial
    hypothesis and its state history. *)
Definition initial_state (resume : option (DecodeHypothesis * list DecState))
  : option BeamState :=
  match resume with
  | None =>
      Some (mkBeam 0 [mkHyp empty_derivation zero] [[]]
                   [init_decoder_state src_sent] [zero] [] [])
  | Some (hyp, states) =>
      let t := hyp_t (tree hyp) in
      prev <- py_index_pred states t ;;
      Some (mkBeam t [hyp] [states] [prev] [zero] [] [])
  end.

Definition step_scores (st : BeamState) : StepScores DecState :=
  score_step src_sent (bs_t st) (map tree (hypotheses st))
             (hyp_states st) (h_tm1 st).

Let agg := aggregated_primitive_tokens src_sent.

(** The action a selected position stands for, with the hypothesis it
    extends (lines 833-865). *)
Definition make_action (c : Cands) (new_hyp_pos : nat)
  : option (nat * Action) :=
  let n := length (applyrule_new_hyp_scores c) in
  if new_hyp_pos <? n then
    prev_hyp_id <- nth_error (applyrule_prev_hyp_ids c) new_hyp_pos ;;
    prod_id <- nth_error (applyrule_new_hyp_prod_ids c) new_hyp_pos ;;
    Some (prev_hyp_id,
          if prod_id <? grammar_len then ApplyRuleAction (id2prod prod_id)
          else ReduceAction)
  else
    let token_id := (new_hyp_pos - n) mod vocab_size in
    let k := (new_hyp_pos - n) / vocab_size in
    prev_hyp_id <- nth_error (gentoken_prev_hyp_ids c) k ;;
    token <- (if token_id =? unk then
                match gentoken_new_hyp_unks c with
                | [] => Some unk_word
                | _ => nth_error (gentoken_new_hyp_unks c) k
                end
              else Some (idxToLabel token_id)) ;;
    Some (prev_hyp_id, GenTokenAction token).

(** Lines 831-877. *)
Definition make_action_info (t : nat) (hyps : list DecodeHypothesis)
           (c : Cands) (new_hyp_pos : nat)
  : option (nat * DecodeHypothesis * ActionInfo) :=
  pa <- make_action c new_hyp_pos ;;
  prev_hyp <- nth_error hyps (fst pa) ;;
  let src := match snd pa with
             | GenTokenAction token => agg_lookup agg token
             | _ => None
             end in
  let parent {A} (d : A) := if 0 <? t then Some d else None in
  Some (fst pa, prev_hyp,
        mkActionInfo (snd pa) t
                     (parent (frontier_created_time (tree prev_hyp)))
                     (parent (frontier_node_production (tree prev_hyp)))
                     (parent (frontier_field_field (tree prev_hyp)))
                     (match src with Some _ => true | None => false end)
                     src).

(** What the loop over the selected candidates builds (lines 827-891). *)
Record Selected := mkSelected {
  live_hyp_ids : list nat;
  new_hypotheses : list DecodeHypothesis;
  sel_completed : list DecodeHypothesis;
  sel_saved : list (list DecState)
}.

(** The body of the loop over the selected candidates: [e] is a selected
    score with its position. *)
Definition select_one (st : BeamState) (c : Cands)
           (a : Selected) (e : num * nat) : option Selected :=
  pi <- make_action_info (bs_t st) (hypotheses st) c (snd e) ;;
  let prev_hyp_id := fst (fst pi) in
  let prev_hyp := snd (fst pi) in
  let new_hyp :=
    mkHyp (clone_and_apply_action_info (tree prev_hyp) (snd pi)) (fst e) in
  if completed (tree new_hyp) then
    saved <- (if return_states then
                s <- nth_error (hyp_states st) prev_hyp_id ;;
                Some (sel_saved a ++
                      [s ++ [new_state (step_scores st) prev_hyp_id]])
              else Some (sel_saved a)) ;;
    Some (mkSelected (live_hyp_ids a) (new_hypotheses a)
                     (sel_completed a ++ [new_hyp]) saved)
  else
    Some (mkSelected (live_hyp_ids a ++ [prev_hyp_id])
                     (new_hypotheses a ++ [new_hyp])
                     (sel_completed a) (sel_saved a)).

Definition select_step (st : BeamState) (c : Cands)
           (acc : option Selected) (e : num * nat) : option Selected :=
  a <- acc ;; select_one st c a e.

(** The candidates of a step and the size of the selection
    (lines 745-823). *)
Definition step_cands (st : BeamState) : Cands :=
  collect (step_scores st) (hypotheses st).

Definition step_k (st : BeamState) (new_scores : list num) : nat :=
  min (length new_scores) (beam_size - length (completed_hypotheses st)).

(** One pass of the loop body up to line 891. *)
Definition beam_select (st : BeamState) : option Selected :=
  let c := step_cands st in
  new_scores <- new_hyp_scores (hyp_scores st) c ;;
  let top := topk new_scores (step_k st new_scores) in
  fold_left (select_step st c) (combine (fst top) (snd top))
            (Some (mkSelected [] [] (completed_hypotheses st)
                              (saved_states st))).

(** Lines 893-899: the survivors become the beam of the next step. *)
Definition beam_advance (st : BeamState) (sel : Selected)
  : option BeamState :=
  hs <- mapM (fun i => s <- nth_error (hyp_states st) i ;;
                       Some (s ++ [new_state (step_scores st) i]))
             (live_hyp_ids sel) ;;
  Some (mkBeam (S (bs_t st)) (new_hypotheses sel) hs
               (map (new_state (step_scores st)) (live_hyp_ids sel))
               (map score (new_hypotheses sel))
               (sel_completed sel) (sel_saved sel)).

(** Lines 900-901: [break] leaves [hypotheses] as it was. *)
Definition beam_break (st : BeamState) (sel : Selected) : BeamState :=
  mkBeam (bs_t st) (hypotheses st) (hyp_states st) (h_tm1 st)
         (hyp_scores st) (sel_completed sel) (sel_saved sel).

(** The [while] loop (line 632).  [fuel] is
    [decode_max_time_step - t]: every pass that does not leave the loop
    adds one to [t], so the test [t < decode_max_time_step] is the test
    [fuel <> 0]. *)
Fixpoint parse_loop (fuel : nat) (st : BeamState) : option BeamState :=
  match fuel with
  | 0 => Some st
  | S fuel' =>
      if length (completed_hypotheses st) <? beam_size then
        sel <- beam_select st ;;
        match live_hyp_ids sel with
        | [] => Some (beam_break st sel)
        | _ => st' <- beam_advance st sel ;; parse_loop fuel' st'
        end
      else Some st
  end.

(** [list.sort(key=...)] and [sorted(..., key=...)]: stable, ascending
    in the key. *)
Definition ltb (x y : num) : bool := negb (leb y x).

Fixpoint insert_by {A} (key : A -> num) (x : A) (l : list A) : list A :=
  match l with
  | [] => [x]
  | y :: l' => if ltb (key y) (key x) then y :: insert_by key x l'
               else x :: l
  end.

Definition sort_by {A} (key : A -> num) (l : list A) : list A :=
  fold_right (insert_by key) [] l.

(** Lines 903-918. *)
Definition parse_result (st : BeamState)
  : list DecodeHypothesis * list (list DecState) :=
  let saved :=
    if return_states then
      map snd (sort_by (fun pair => neg (score (fst pair)))
                       (combine (completed_hypotheses st) (saved_states st)))
    else saved_states st in
  let result := match completed_hypotheses st with
                | [] => hypotheses st
                | _ => completed_hypotheses st
                end in
  (sort_by (fun hyp => neg (score hyp)) result, saved).

Definition parse_final (resume : option (DecodeHypothesis * list DecState))
  : option BeamState :=
  st0 <- initial_state resume ;;
  parse_loop (decode_max_time_step args - bs_t st0) st0.

Definition parse (resume : option (DecodeHypothesis * list DecState))
  : option (list DecodeHypothesis * list (list DecState)) :=
  st <- parse_final resume ;;
  Some (parse_result st).
End Parse.

(* ================================================================== *)
(** * Teacher-forced scoring: [Parser.score] *)
(* ================================================================== *)

Section Score.
Context {N : Numeric}.

Definition Tensor3 := nat -> nat -> nat -> num.

(** [Batch]: the gold indices and the masks, of shape
    [(tgt_action_len, batch_size)], and the mask of the source positions
    that hold the gold token. *)
Record Batch := mkBatch {
  tgt_action_len : nat;
  batch_len : nat;
  src_sent_len : nat;
  apply_rule_idx_matrix : nat -> nat -> nat;
  apply_rule_mask : Tensor2;
  primitive_idx_matrix : nat -> nat -> nat;
  gen_token_mask : Tensor2;
  primitive_copy_mask : Tensor2;
  primitive_copy_token_idx_mask : Tensor3
}.

(** What the decoder and the read-out layers yield for a batch
    (lines 280-352). *)
Record ScoreProbs := mkScoreProbs {
  sp_apply_rule_prob : Tensor3;
  sp_gen_from_vocab_prob : Tensor3;
  sp_primitive_predictor : Tensor3;
  sp_primitive_copy_prob : Tensor3
}.

Variable args : Args.
(** [Some loss] when the model is training with
    [primitive_token_label_smoothing]; [loss] is what
    [self.label_smoothing] returns. *)
Variable label_smoothing : option Tensor2.
Variable batch : Batch.
Variable probs : ScoreProbs.

(** Lines 305-307 and 317-319: [torch.gather] at the gold index. *)
Definition tgt_apply_rule_prob : Tensor2 :=
  fun t b => sp_apply_rule_prob probs t b (apply_rule_idx_matrix batch t b).

Definition tgt_primitive_gen_from_vocab_prob : Tensor2 :=
  fun t b => sp_gen_from_vocab_prob probs t b (primitive_idx_matrix batch t b).

(** Lines 333-337. *)
Definition tgt_primitive_gen_from_vocab_log_prob : Tensor2 :=
  match label_smoothing with
  | Some loss => fun t b => neg (loss t b)
  | None => fun t b => log (tgt_primitive_gen_from_vocab_prob t b)
  end.

(** Lines 356-358: the copy probabilities of the positions that hold the
    gold token, summed. *)
Definition tgt_primitive_copy_prob : Tensor2 :=
  fun t b =>
    tsum (map (fun pos => mul (sp_primitive_copy_prob probs t b pos)
                              (primitive_copy_token_idx_mask batch t b pos))
              (seq 0 (src_sent_len batch))).

(** Lines 362-366. *)
Definition action_mask_pad : nat -> nat -> bool :=
  fun t b => is_zero (add (add (apply_rule_mask batch t b)
                               (gen_token_mask batch t b))
                          (primitive_copy_mask batch t b)).

(** [1. - action_mask_pad.float()] *)
Definition action_mask : Tensor2 :=
  fun t b => if action_mask_pad t b then zero else one.

(** Lines 369-371. *)
Definition mixed_action_prob : Tensor2 :=
  fun t b =>
    add (add (mul (tgt_apply_rule_prob t b) (apply_rule_mask batch t b))
             (mul (mul (sp_primitive_predictor probs t b 0)
                       (tgt_primitive_gen_from_vocab_prob t b))
                  (gen_token_mask batch t b)))
        (mul (mul (sp_primitive_predictor probs t b 1)
                  (tgt_primitive_copy_prob t b))
             (primitive_copy_mask batch t b)).

(** Line 374: [masked_fill_(action_mask_pad, 1.e-7)]. *)
Definition filled_action_prob : Tensor2 :=
  fun t b => if action_mask_pad t b then eps else mixed_action_prob t b.

(** [action_prob] as it stands before line 378. *)
Definition action_prob : Tensor2 :=
  if no_copy args then
    fun t b =>
      add (mul (log (tgt_apply_rule_prob t b)) (apply_rule_mask batch t b))
          (mul (tgt_primitive_gen_from_vocab_log_prob t b)
               (gen_token_mask batch t b))
  else
    fun t b => mul (log (filled_action_prob t b)) (action_mask t b).

(** Line 378: [torch.sum(action_prob, dim=0)], one score per example. *)
Definition score_example (b : nat) : num :=
  tsum (map (fun t => action_prob t b) (seq 0 (tgt_action_len batch))).

Definition score_batch : list num :=
  map score_example (seq 0 (batch_len batch)).
End Score.

(* ================================================================== *)
(** * A [torch.topk] by insertion, with either order among equal values *)
(* ================================================================== *)

Section TopKBy.
Context {N : Numeric}.

(** [goes_before x y] decides whether a position holding [x] is put in
    front of a position holding [y]. *)
Variable goes_before : num -> num -> bool.
Variable values : list num.

Fixpoint insert_idx (i : nat) (l : list nat) : list nat :=
  match l with
  | [] => [i]
  | j :: l' =>
      if goes_before (nth i values zero) (nth j values zero) then i :: l
      else j :: insert_idx i l'
  end.

Definition order_idx : list nat :=
  fold_right insert_idx [] (seq 0 (length values)).

Definition topk_by (k : nat) : list num * list nat :=
  let pos := firstn k order_idx in
  (map (fun p => nth p values zero) pos, pos).
End TopKBy.

(** Modelled from the spec: [torch.topk], which is not under [src/], for
    what it does with equal values.  The spec has the highest-scoring
    candidates selected with ties broken by the order of the candidates:
    of two equal values the one at the lower position goes first. *)
Definition topk_first (N : Numeric) : TopK N :=
  {| topk := topk_by (fun x y => leb y x) |}.

(* ================================================================== *)
(** * Two carriers *)
(* ================================================================== *)

(** Fixed-point numbers with seven decimal places: [1.e-7] is one unit.
    [fix_log] is the natural logarithm rounded to that unit, computed with
    nine guard digits: the argument is brought into (1/2, 2) by a power of
    two, and the logarithm there is twice the series of the inverse
    hyperbolic tangent of [(m - 1) / (m + 1)].  The carrier has no
    infinities: at an argument that is not positive, where [torch.log]
    gives [-inf] or [nan], [fix_log] is [log_floor]; the carrier [Ext]
    below has those values. *)
Module Fix.
Definition scale : Z := 10000000.
Definition fix_mul (a b : Z) : Z := (a * b / scale)%Z.

Definition guard : Z := 1000000000.
Definition wide : Z := (scale * guard)%Z.
(** [ln 2] in units of [1 / wide]. *)
Definition ln2_wide : Z := 6931471805599453.

Fixpoint atanh_terms (n : nat) (term z2 k : Z) : Z :=
  match n with
  | O => 0%Z
  | S n' => (term / k + atanh_terms n' (term * z2 / wide) z2 (k + 2))%Z
  end.

(** The logarithm of [x / wide], in units of [1 / wide], for [0 < x]. *)
Definition ln_wide (x : Z) : Z :=
  let e := (Z.log2 x - Z.log2 wide)%Z in
  let m := if (0 <=? e)%Z then (x / 2 ^ e)%Z else (x * 2 ^ (- e))%Z in
  let z := ((m - wide) * wide / (m + wide))%Z in
  (2 * atanh_terms 20 z (z * z / wide) 1 + e * ln2_wide)%Z.

Definition log_floor : Z := (- (1000 * scale))%Z.

Definition fix_log (x : Z) : Z :=
  if (x <=? 0)%Z then log_floor
  else ((ln_wide (x * guard) + guard / 2) / guard)%Z.

Definition fixnum : Numeric :=
  {| num := Z; zero := 0%Z; one := scale; eps := 1%Z;
     add := Z.add; mul := fix_mul; neg := Z.opp; log := fix_log;
     leb := Z.leb; is_zero := fun x => Z.eqb x 0 |}.

(** [n] thousandths. *)
Definition milli (n : Z) : Z := (n * 10000)%Z.
End Fix.

(** The same numbers with the special values of floating point: the
    logarithm of zero is minus infinity, and infinity times zero is not a
    number. *)
Module Ext.
Inductive xnum := XFin (z : Z) | XNegInf | XPosInf | XNaN.

Definition x_add (a b : xnum) : xnum :=
  match a, b with
  | XNaN, _ | _, XNaN => XNaN
  | XNegInf, XPosInf | XPosInf, XNegInf => XNaN
  | XNegInf, _ | _, XNegInf => XNegInf
  | XPosInf, _ | _, XPosInf => XPosInf
  | XFin x, XFin y => XFin (x + y)
  end.

Definition x_inf_times (pos_inf : bool) (z : Z) : xnum :=
  if (z =? 0)%Z then XNaN
  else if Bool.eqb pos_inf (0 <? z)%Z then XPosInf else XNegInf.

Definition x_mul (a b : xnum) : xnum :=
  match a, b with
  | XNaN, _ | _, XNaN => XNaN
  | XFin x, XFin y => XFin (Fix.fix_mul x y)
  | XPosInf, XFin z | XFin z, XPosInf => x_inf_times true z
  | XNegInf, XFin z | XFin z, XNegInf => x_inf_times false z
  | XPosInf, XPosInf | XNegInf, XNegInf => XPosInf
  | XPosInf, XNegInf | XNegInf, XPosInf => XNegInf
  end.

Definition x_neg (a : xnum) : xnum :=
  match a with
  | XFin z => XFin (- z)
  | XNegInf => XPosInf
  | XPosInf => XNegInf
  | XNaN => XNaN
  end.

Definition x_log (a : xnum) : xnum :=
  match a with
  | XFin z => if (z <? 0)%Z then XNaN
              else if (z =? 0)%Z then XNegInf
              else XFin (Fix.fix_log z)
  | XPosInf => XPosInf
  | XNegInf | XNaN => XNaN
  end.

Definition x_leb (a b : xnum) : bool :=
  match a, b with
  | XNaN, _ | _, XNaN => false
  | XNegInf, _ => true
  | _, XPosInf => true
  | XFin x, XFin y => (x <=? y)%Z
  | _, _ => false
  end.

Definition x_is_zero (a : xnum) : bool :=
  match a with XFin z => (z =? 0)%Z | _ => false end.

Definition x_finite (a : xnum) : bool :=
  match a with XFin _ => true | _ => false end.

Definition extnum : Numeric :=
  {| num := xnum; zero := XFin 0; one := XFin Fix.scale; eps := XFin 1;
     add := x_add; mul := x_mul; neg := x_neg; log := x_log;
     leb := x_leb; is_zero := x_is_zero |}.
End Ext.

(* ================================================================== *)
(** * A small grammar to run the definitions on *)
(* ================================================================== *)

(** Two productions: production 0 has one sequence-valued primitive field
    (tokens, closed by Reduce); production 1 has no field.  The vocabulary
    is [<unk>], [a], [b]. *)
Module Toy.
Open Scope string_scope.

Definition toy_grammar : Grammar :=
  {| Production := nat; Field := unit; grammar_len := 2;
     prod2id := fun p => p; id2prod := fun i => i |}.

Definition toy_vocab : PrimVocab :=
  {| vocab_size := 3;
     vocab_lookup := fun tok =>
       if String.eqb tok "<unk>" then Some 0
       else if String.eqb tok "a" then Some 1
       else if String.eqb tok "b" then Some 2
       else None;
     unk := 0;
     unk_word := "<unk>";
     idxToLabel := fun i =>
       match i with 0 => "<unk>" | 1 => "a" | _ => "b" end |}.

(** A derivation is its action history. *)
Definition toy_types (d : list (@Action toy_grammar)) : list ActionType :=
  match rev d with
  | [] => [TApplyRule]
  | ApplyRuleAction p :: _ => if Nat.eqb p 1 then [] else [TGenToken]
  | GenTokenAction _ :: _ => [TGenToken; TReduce]
  | ReduceAction :: _ => []
  end.

Definition toy_productions (d : list (@Action toy_grammar))
  : list (@Production toy_grammar) :=
  match d with
  | [] => [0; 1]
  | _ => []
  end.

Definition toy_completed (d : list (@Action toy_grammar)) : bool :=
  match rev d with
  | [] => false
  | ApplyRuleAction p :: _ => Nat.eqb p 1
  | GenTokenAction _ :: _ => false
  | ReduceAction :: _ => true
  end.

Definition toy_ts : TransitionSystem toy_grammar :=
  {| Derivation := list (@Action toy_grammar);
     empty_derivation := [];
     get_valid_continuation_types := toy_types;
     get_valid_continuating_productions := toy_productions;
     clone_and_apply_action_info := fun d ai => (d ++ [action ai])%list;
     completed := toy_completed;
     hyp_t := fun d => length d;
     frontier_created_time := fun _ => 0;
     frontier_node_production := fun _ => 0;
     frontier_field_field := fun _ => tt |}.

(** A decoder that reads its scores off a table indexed by the step; its
    state is the step at which it was written. *)
Definition table_scorer (N : Numeric) (table : nat -> StepScores nat)
  : Scorer N toy_ts :=
  {| DecState := nat;
     init_decoder_state := fun _ => 0;
     score_step := fun _ t _ _ _ => table t |}.

Definition row {A} (l : list A) (d : A) : nat -> nat -> A :=
  fun _ i => nth i l d.

(** Production log-probabilities [-0.1], [-0.9], Reduce [reduce_lp];
    vocabulary probabilities [0.2], [0.5], [0.3]; copy attention [0.1],
    [0.2], [0.3], [0.4] over the input positions; gate [0.5], [0.5]. *)
Definition fix_table (reduce_lp : Z) (t : nat) : StepScores (N:=Fix.fixnum) nat :=
  mkStepScores (N:=Fix.fixnum)
    (row [Fix.milli (-100); Fix.milli (-900); reduce_lp] 0)%Z
    (row [Fix.milli 200; Fix.milli 500; Fix.milli 300] 0)%Z
    (row [Fix.milli 100; Fix.milli 200; Fix.milli 300; Fix.milli 400] 0)%Z
    (row [Fix.milli 500; Fix.milli 500] 0)%Z
    (fun _ => t).

Definition fix_scorer (reduce_lp : Z) : Scorer Fix.fixnum toy_ts :=
  table_scorer (fix_table reduce_lp).

Definition copy_args : Args := mkArgs false 10.

(** The input [a a z y]: [a] twice, [z] and [y] out of vocabulary. *)
Definition utterance : list string := ["a"; "a"; "z"; "y"].

(** The hypothesis after [ApplyRule 0] and [GenToken a], with score 0. *)
Definition open_hyp : DecodeHypothesis (N:=Fix.fixnum) (TS:=toy_ts) :=
  mkHyp (N:=Fix.fixnum) (TS:=toy_ts)
        [ApplyRuleAction (G:=toy_grammar) 0; GenTokenAction "a"] 0%Z.

Definition open_state : BeamState (N:=Fix.fixnum) (SC:=fix_scorer (Fix.milli (-600))) :=
  mkBeam (N:=Fix.fixnum) (SC:=fix_scorer (Fix.milli (-600)))
         2 [open_hyp] [[0; 1]] [1] [0%Z] [] [].

(** The scores the decoder of [open_state] yields. *)
Definition open_table
  : StepScores (N:=Fix.fixnum) (@DecState _ _ _ (fix_scorer (Fix.milli (-600)))) :=
  fix_table (Fix.milli (-600)) 0.

(** The candidate scores of [open_state]: Reduce, then the slots [<unk>],
    [a], [b]. *)
Definition open_scores : list Z :=
  [Fix.milli (-600); (-16094379)%Z; (-9162907)%Z; (-18971200)%Z].





(** The state [parse] starts from. *)
Definition fresh_state (reduce_lp : Z)
  : BeamState (N:=Fix.fixnum) (SC:=fix_scorer reduce_lp) :=
  mkBeam (N:=Fix.fixnum) (SC:=fix_scorer reduce_lp)
         0 [mkHyp (N:=Fix.fixnum) (TS:=toy_ts) [] 0%Z] [[]] [0] [0%Z] [] [].

(** The hypothesis a decoding of [utterance] holds after its first step,
    [ApplyRule 0] with score [-0.1], and its state history. *)
Definition partial_hyp : DecodeHypothesis (N:=Fix.fixnum) (TS:=toy_ts) :=
  mkHyp (N:=Fix.fixnum) (TS:=toy_ts)
        [ApplyRuleAction (G:=toy_grammar) 0] (Fix.milli (-100)).

Definition partial_states : list nat := [0].




(** A batch of one example over the source [a a b]: an ApplyRule step, a
    GenToken step whose token [a] is in the vocabulary and at the source
    positions 0 and 1, and a padded step. *)
Definition fix_batch : Batch (N:=Fix.fixnum) :=
  mkBatch (N:=Fix.fixnum) 3 1 3
    (fun _ _ => 0)
    (fun t _ => nth t [Fix.scale; 0; 0]%Z 0%Z)
    (fun _ _ => 1)
    (fun t _ => nth t [0; Fix.scale; 0]%Z 0%Z)
    (fun t _ => nth t [0; Fix.scale; 0]%Z 0%Z)
    (fun t _ pos => match t with
                    | 1 => nth pos [Fix.scale; Fix.scale; 0]%Z 0%Z
                    | _ => 0%Z
                    end).

(** Gold production probability [0.5], gold token probability [0.4], gate
    [0.5], [0.5], copy attention [0.2], [0.3], [0.5]. *)
Definition fix_probs : ScoreProbs (N:=Fix.fixnum) :=
  mkScoreProbs (N:=Fix.fixnum)
    (fun _ _ _ => Fix.milli 500)
    (fun _ _ _ => Fix.milli 400)
    (fun _ _ _ => Fix.milli 500)
    (fun _ _ pos => nth pos [Fix.milli 200; Fix.milli 300; Fix.milli 500] 0%Z).

(** A batch of one GenToken step, copy disabled, where the probability of
    the production at the masked-out ApplyRule index is zero. *)
Definition ext_batch : Batch (N:=Ext.extnum) :=
  mkBatch (N:=Ext.extnum) 1 1 1
    (fun _ _ => 0)
    (fun _ _ => Ext.XFin 0)
    (fun _ _ => 1)
    (fun _ _ => Ext.XFin Fix.scale)
    (fun _ _ => Ext.XFin 0)
    (fun _ _ _ => Ext.XFin 0).

Definition ext_probs : ScoreProbs (N:=Ext.extnum) :=
  mkScoreProbs (N:=Ext.extnum)
    (fun _ _ _ => Ext.XFin 0)
    (fun _ _ _ => Ext.XFin (Fix.milli 500))
    (fun _ _ _ => Ext.XFin (Fix.milli 500))
    (fun _ _ _ => Ext.XFin 0).
End Toy.

(* ================================================================== *)
(** * Notions the statements use *)
(* ================================================================== *)

(** The positions at which [token] occurs, in ascending order. *)
Definition occurrences (es : list (nat * string)) (token : string) : list nat :=
map fst (filter (fun e => String.eqb (snd e) token) es).

Definition occurrence_positions (src_sent : list string) (token : string)
  : list nat :=
occurrences (enumerate src_sent) token.

(** What the dictionary holds after the tokens [es] were entered. *)
Definition agg_inv (d : list (string * list nat)) (es : list (nat * string))
  : Prop :=
NoDup (map fst d) /\
forall k v, In (k, v) d <-> (In k (map snd es) /\ v = occurrences es k).

Inductive Forall3 {A B C} (P : A -> B -> C -> Prop)
  : list A -> list B -> list C -> Prop :=
| Forall3_nil : Forall3 P [] [] []
| Forall3_cons : forall x y z l1 l2 l3,
    P x y z -> Forall3 P l1 l2 l3 ->
    Forall3 P (x :: l1) (y :: l2) (z :: l3).

Section ParseNotions.
Context {N : Numeric} {G : Grammar} {V : PrimVocab}
        {TS : TransitionSystem G} {SC : Scorer N TS}.
Variable args : Args.
Variable src_sent : list string.

(** The input tokens the vocabulary does not hold, with their positions. *)
Definition is_oov (e : string * list nat) : bool :=
match vocab_lookup (fst e) with None => true | Some _ => false end.

Definition oov_entries : list (string * list nat) :=
filter is_oov (aggregated_primitive_tokens src_sent).

(** The unknown-copy candidates of hypothesis [hyp_id]. *)
Definition unk_copy_info (scores : StepScores DecState) (hyp_id : nat)
  : list UnkCopy :=
map (fun e => mkUnkCopy (fst e) (snd e) (gated_copy_prob scores hyp_id (snd e)))
    oov_entries.

(** The candidate [np.argmax] picks among them. *)
Definition unk_choice (scores : StepScores DecState) (hyp_id : nat) : UnkCopy :=
nth (argmax (map uc_copy_prob (unk_copy_info scores hyp_id)))
    (unk_copy_info scores hyp_id) (mkUnkCopy EmptyString [] zero).

(** Whether a GenToken hypothesis records an unknown-copy token. *)
Definition records_unk : bool :=
negb (no_copy args) && (0 <? length oov_entries).

(** The actions the transition system allows on a derivation. *)
Definition legal (d : Derivation) (a : Action) : Prop :=
match a with
| ApplyRuleAction p =>
    In TApplyRule (get_valid_continuation_types d) /\
    In p (get_valid_continuating_productions d)
| ReduceAction => In TReduce (get_valid_continuation_types d)
| GenTokenAction _ => In TGenToken (get_valid_continuation_types d)
end.

(** The productions the transition system offers have ids below
    [len(grammar)] that map back to them. *)
Definition grammar_ids_ok (hyps : list DecodeHypothesis) : Prop :=
forall hyp p, In hyp hyps ->
              In p (get_valid_continuating_productions (tree hyp)) ->
              prod2id p < grammar_len /\ id2prod (prod2id p) = p.

(** What the lists of a step hold while the hypotheses are walked over. *)
Record cands_inv (scores : StepScores DecState)
       (hyps : list DecodeHypothesis) (c : Cands) : Prop := {
  ci_apply :
    Forall3 (fun s prod_id hyp_id =>
               exists hyp, nth_error hyps hyp_id = Some hyp /\
                 s = add (score hyp) (apply_rule_log_prob scores hyp_id prod_id) /\
                 ((In TApplyRule (get_valid_continuation_types (tree hyp)) /\
                   exists p, In p (get_valid_continuating_productions (tree hyp))
                             /\ prod_id = prod2id p) \/
                  (In TReduce (get_valid_continuation_types (tree hyp)) /\
                   prod_id = grammar_len)))
            (applyrule_new_hyp_scores c) (applyrule_new_hyp_prod_ids c)
            (applyrule_prev_hyp_ids c);
  ci_gen :
    Forall (fun hyp_id => exists hyp, nth_error hyps hyp_id = Some hyp /\
              In TGenToken (get_valid_continuation_types (tree hyp)))
           (gentoken_prev_hyp_ids c);
  ci_unks :
    gentoken_new_hyp_unks c =
    if records_unk
    then map (fun h => uc_token (unk_choice scores h)) (gentoken_prev_hyp_ids c)
    else [];
  ci_unk_slot :
    records_unk = true ->
    Forall (fun h => primitive_prob c h unk = uc_copy_prob (unk_choice scores h))
           (gentoken_prev_hyp_ids c)
}.
End ParseNotions.

(** A new hypothesis of a step: a hypothesis of the beam extended by an
    action the transition system allows on it. *)
Definition derived_legally {N : Numeric} {G : Grammar}
           {TS : TransitionSystem G} (hyps : list DecodeHypothesis)
           (new_hyp : DecodeHypothesis) : Prop :=
  exists prev ai,
    In prev hyps /\ legal (tree prev) (action ai) /\
    tree new_hyp = clone_and_apply_action_info (tree prev) ai.

(** An incomplete derivation has a continuation. *)
Definition ts_progress {G : Grammar} (TS : TransitionSystem G) : Prop :=
  forall d, completed d = false ->
    In TReduce (get_valid_continuation_types d) \/
    In TGenToken (get_valid_continuation_types d) \/
    (In TApplyRule (get_valid_continuation_types d) /\
     get_valid_continuating_productions d <> []).

(** What holds of the loop variables at the head of the loop. *)
Record beam_ok {N : Numeric} {G : Grammar} {TS : TransitionSystem G}
       {SC : Scorer N TS} (st : BeamState) : Prop := {
  bo_states : length (hyp_states st) = length (hypotheses st);
  bo_scores : length (hyp_scores st) = length (hypotheses st);
  bo_live : Forall (fun h => completed (tree h) = false) (hypotheses st);
  bo_done : Forall (fun h => completed (tree h) = true)
                   (completed_hypotheses st);
  bo_nonempty : hypotheses st <> []
}.

Definition cand_count {N : Numeric} (c : Cands) : nat :=
  length (applyrule_new_hyp_scores c) + length (gentoken_prev_hyp_ids c).

(** The properties of a selection the loop relies on. *)
Definition selected_ok {N : Numeric} {G : Grammar} {TS : TransitionSystem G}
           {SC : Scorer N TS} (st : BeamState) (a : Selected) : Prop :=
  Forall (fun i => i < length (hypotheses st)) (live_hyp_ids a) /\
  Forall (fun h => completed (tree h) = false) (new_hypotheses a) /\
  Forall (fun h => completed (tree h) = true) (sel_completed a) /\
  length (live_hyp_ids a) = length (new_hypotheses a).

(** Descending in the cumulative score. *)
Definition score_descending {N : Numeric} {G : Grammar}
           {TS : TransitionSystem G} (l : list DecodeHypothesis) : Prop :=
  StronglySorted (fun a b => leb (score b) (score a) = true) l.

(* ================================================================== *)
(** * [Parser.sample] (lines 920-944) *)
(* ================================================================== *)

Section Sample.
Context {N : Numeric} {G : Grammar} {V : PrimVocab}
        {TS : TransitionSystem G} {SC : Scorer N TS} {TK : TopK N}.
Variable args : Args.
(** [self.args['beam_size']] *)
Variable args_beam_size : nat.
Variable src_sent : list string.

(** [parse(...)[0]] *)
Definition first_result (r : list DecodeHypothesis * list (list DecState))
  : option DecodeHypothesis :=
  nth_error (fst r) 0.

Definition sample (resume : option (DecodeHypothesis * list DecState))
  : option DecodeHypothesis :=
  match resume with
  | Some (hyp, states) =>
      if completed (tree hyp) then Some hyp
      else obind (parse args src_sent args_beam_size false resume) first_result
  | None =>
      obind (parse args src_sent args_beam_size false resume) first_result
  end.
End Sample.

(* ================================================================== *)
(** * Notions about whole runs *)
(* ================================================================== *)

(** A derivation reached from [d0] by actions the transition system
    allows, each applied through [clone_and_apply_action_info]. *)
Inductive legally_reachable {G : Grammar} {TS : TransitionSystem G}
          (d0 : Derivation) : Derivation -> Prop :=
| reach_start : legally_reachable d0 d0
| reach_step : forall d ai,
    legally_reachable d0 d -> legal d (action ai) ->
    legally_reachable d0 (clone_and_apply_action_info d ai).

(** The productions the transition system offers anywhere have ids below
    [len(grammar)] that map back to them. *)
Definition grammar_ids_ok_everywhere {G : Grammar} (TS : TransitionSystem G)
  : Prop :=
  forall d p, In p (get_valid_continuating_productions d) ->
              prod2id p < grammar_len /\ id2prod (prod2id p) = p.

(** The batch with its number of steps set to [len]. *)
Definition with_action_len {N : Numeric} (batch : Batch) (len : nat) : Batch :=
  mkBatch len (batch_len batch) (src_sent_len batch)
          (apply_rule_idx_matrix batch) (apply_rule_mask batch)
          (primitive_idx_matrix batch) (gen_token_mask batch)
          (primitive_copy_mask batch) (primitive_copy_token_idx_mask batch).

(** The terms of a score as the claim about [score] words them: the
    probabilities of the gold action of step [t] of example [b], read at
    the gold indices of the batch, and the term the masks of the step
    select. *)
Section GoldAction.
Context {N : Numeric}.
Variable args : Args.
Variable label_smoothing : option Tensor2.
Variable batch : Batch.
Variable probs : ScoreProbs.

(** The probability of the gold ApplyRule or Reduce. *)
Definition gold_rule_prob (t b : nat) : num :=
  sp_apply_rule_prob probs t b (apply_rule_idx_matrix batch t b).

(** The vocabulary probability of the gold token. *)
Definition gold_token_prob (t b : nat) : num :=
  sp_gen_from_vocab_prob probs t b (primitive_idx_matrix batch t b).

(** The copy attention summed over the source positions that hold the
    gold token. *)
Definition gold_copy_mass (t b : nat) : num :=
  tsum (map (sp_primitive_copy_prob probs t b)
            (filter (fun pos => negb (is_zero (primitive_copy_token_idx_mask
                                                 batch t b pos)))
                    (seq 0 (src_sent_len batch)))).

Definition mask_on (m : num) : bool := negb (is_zero m).

(** The term of step [t]: the logarithm of the probability of the gold
    action, by the kind of the action the masks name; nothing for a
    padded step.  With copy disabled there is no gate, and in training
    with label smoothing the term of a token is the negated smoothing
    loss. *)
Definition gold_action_log_prob (t b : nat) : num :=
  if mask_on (apply_rule_mask batch t b) then log (gold_rule_prob t b)
  else if no_copy args then
    if mask_on (gen_token_mask batch t b) then
      match label_smoothing with
      | Some loss => neg (loss t b)
      | None => log (gold_token_prob t b)
      end
    else zero
  else
    let gen := mul (sp_primitive_predictor probs t b 0)
                   (gold_token_prob t b) in
    let copy := mul (sp_primitive_predictor probs t b 1)
                    (gold_copy_mass t b) in
    match mask_on (gen_token_mask batch t b),
          mask_on (primitive_copy_mask batch t b) with
    | true, false => log gen
    | true, true => log (add gen copy)
    | false, true => log copy
    | false, false => zero
    end.

(** The masks of a step name one kind of action: an ApplyRule or Reduce,
    or a token that is generated, copied or both, or a padded step; and
    the mask of the source positions has entries 0 and 1. *)
Definition masks_ok (t b : nat) : Prop :=
  ((apply_rule_mask batch t b = one /\ gen_token_mask batch t b = zero /\
    primitive_copy_mask batch t b = zero) \/
   (apply_rule_mask batch t b = zero /\
    (gen_token_mask batch t b = zero \/ gen_token_mask batch t b = one) /\
    (primitive_copy_mask batch t b = zero \/
     primitive_copy_mask batch t b = one))) /\
  forall pos, primitive_copy_token_idx_mask batch t b pos = zero \/
              primitive_copy_token_idx_mask batch t b pos = one.
End GoldAction.

(** How a decoding ends, as the claim about the result of [parse] words
    it: [run_ends fuel st live done] when the loop entered at [st] with
    [fuel] steps left to the step bound ends with the live hypotheses
    [live] and the completed hypotheses [done]. *)
Section Endings.
Context {N : Numeric} {G : Grammar} {V : PrimVocab}
        {TS : TransitionSystem G} {SC : Scorer N TS} {TK : TopK N}.
Variable args : Args.
Variable src_sent : list string.
Variable beam_size : nat.
Variable return_states : bool.

Inductive run_ends : nat -> BeamState -> list DecodeHypothesis ->
                     list DecodeHypothesis -> Prop :=
| end_step_bound : forall st,
    (* the step bound is reached *)
    run_ends 0 st (hypotheses st) (completed_hypotheses st)
| end_beam_full : forall fuel st,
    (* [beam_size] hypotheses are completed *)
    beam_size <= length (completed_hypotheses st) ->
    run_ends (S fuel) st (hypotheses st) (completed_hypotheses st)
| end_none_live : forall fuel st sel,
    (* no live hypothesis survives the step: the hypotheses it completed
       are kept, the beam stays as it was *)
    length (completed_hypotheses st) < beam_size ->
    beam_select args src_sent beam_size return_states st = Some sel ->
    live_hyp_ids sel = [] ->
    run_ends (S fuel) st (hypotheses st) (sel_completed sel)
| end_later : forall fuel st sel st' live done,
    (* a step with surviving hypotheses, and the rest of the decoding *)
    length (completed_hypotheses st) < beam_size ->
    beam_select args src_sent beam_size return_states st = Some sel ->
    live_hyp_ids sel <> [] ->
    bs_t st' = S (bs_t st) ->
    hypotheses st' = new_hypotheses sel ->
    completed_hypotheses st' = sel_completed sel ->
    beam_advance src_sent st sel = Some st' ->
    run_ends fuel st' live done ->
    run_ends (S fuel) st live done.
End Endings.

Section RunNotions.
Context {N : Numeric} {G : Grammar} {V : PrimVocab}
        {TS : TransitionSystem G} {SC : Scorer N TS}.

(** No hypothesis has a candidate: every action type on offer is
    ApplyRule, with no production. *)
Definition no_candidates (hyps : list DecodeHypothesis) : Prop :=
  forall hyp ty, In hyp hyps ->
    In ty (get_valid_continuation_types (tree hyp)) ->
    ty = TApplyRule /\ get_valid_continuating_productions (tree hyp) = [].

(** The token a vocabulary slot of the GenToken hypothesis [prev_id]
    stands for: the label of the slot, and for the unknown slot the token
    recorded for the hypothesis, or the unknown word when none is
    recorded. *)
Definition slot_token (c : Cands) (prev_id slot : nat) (tok : string) : Prop :=
  (slot <> unk /\ tok = idxToLabel slot) \/
  (slot = unk /\
   ((gentoken_new_hyp_unks c = [] /\ tok = unk_word) \/
    (exists k, nth_error (gentoken_prev_hyp_ids c) k = Some prev_id /\
               nth_error (gentoken_new_hyp_unks c) k = Some tok))).

(** The score of a new hypothesis: the score of the hypothesis it extends
    plus the log-probability of the action applied to it: the entry of
    [apply_rule_log_prob] at the id of the production of an ApplyRule, at
    [len(grammar)] for a Reduce, and the logarithm of the entry of
    [primitive_prob] at the slot of the token of a GenToken. *)
Definition scored_from (scores : StepScores DecState)
           (hyps : list DecodeHypothesis) (c : Cands)
           (new_hyp : DecodeHypothesis) : Prop :=
  exists prev_id prev ai,
    nth_error hyps prev_id = Some prev /\
    tree new_hyp = clone_and_apply_action_info (tree prev) ai /\
    match action ai with
    | ApplyRuleAction p =>
        score new_hyp =
        add (score prev) (apply_rule_log_prob scores prev_id (prod2id p))
    | ReduceAction =>
        score new_hyp =
        add (score prev) (apply_rule_log_prob scores prev_id grammar_len)
    | GenTokenAction tok =>
        exists slot, slot < vocab_size /\ slot_token c prev_id slot tok /\
          score new_hyp =
          add (score prev) (log (primitive_prob c prev_id slot))
    end.

(** Each live hypothesis has one recorded state per step taken, the last
    of them its row of [h_tm1]. *)
Definition states_ok (st : BeamState) : Prop :=
  Forall2 (fun s h => length s = bs_t st /\
                      (0 < bs_t st -> nth_error s (bs_t st - 1) = Some h))
          (hyp_states st) (h_tm1 st) /\
  length (hyp_states st) = length (hypotheses st).

(** The derivation a call of [parse] starts from: the empty one, or the
    one of the hypothesis handed in. *)
Definition start_derivation (resume : option (DecodeHypothesis * list DecState))
  : Derivation :=
  match resume with
  | None => empty_derivation
  | Some (hyp, _) => tree hyp
  end.
End RunNotions.

(* ================================================================== *)
(** * Facts about lists *)
(* ================================================================== *)

Lemma fold_left_invariant {A B} (P : A -> Prop) (f : A -> B -> A) (l : list B) :
  forall a, P a -> (forall a x, In x l -> P a -> P (f a x)) -> P (fold_left f l a).
Proof.
  induction l as [| x l IH]; intros a Ha Hstep; simpl; [exact Ha|].
  apply IH.
  - apply Hstep; [now left | exact Ha].
  - intros a' y Hy. apply Hstep. now right.
Qed.

Lemma strongly_sorted_nth {A} (R : A -> A -> Prop) (l : list A) :
  StronglySorted R l ->
  forall i j a b, i < j -> nth_error l i = Some a -> nth_error l j = Some b ->
                  R a b.
Proof.
  induction 1 as [| x l Hs IH Hall]; intros i j a b Hij Hi Hj.
  - destruct i; discriminate.
  - destruct j as [| j]; [lia|].
    destruct i as [| i]; simpl in *.
    + injection Hi as <-. rewrite Forall_forall in Hall.
      apply Hall. eapply nth_error_In; eauto.
    + apply (IH i j); auto; lia.
Qed.

Lemma strongly_sorted_app {A} (R : A -> A -> Prop) (l1 l2 : list A) :
  StronglySorted R (l1 ++ l2) ->
  forall x y, In x l1 -> In y l2 -> R x y.
Proof.
  induction l1 as [| a l1 IH]; simpl; intros Hs x y Hx Hy; [contradiction|].
  inversion Hs as [| ? ? Hs' Hall]; subst.
  destruct Hx as [<- | Hx].
  - rewrite Forall_forall in Hall. apply Hall, in_or_app. now right.
  - now apply IH.
Qed.

Lemma in_firstn {A} (l : list A) k x : In x (firstn k l) -> In x l.
Proof.
  intros H. rewrite <- (firstn_skipn k l). apply in_or_app. now left.
Qed.

Lemma strongly_sorted_firstn {A} (R : A -> A -> Prop) (l : list A) k :
  StronglySorted R l -> StronglySorted R (firstn k l).
Proof.
  intros Hs. revert k.
  induction Hs as [| x l Hs IH Hall]; intros [| k]; simpl; try constructor.
  - apply IH.
  - rewrite Forall_forall in *. intros y Hy. apply Hall.
    eapply in_firstn; eauto.  
Qed.

(* ================================================================== *)
(** * [topk_by] meets the contract of [torch.topk] *)
(* ================================================================== *)

Section TopKByFacts.
Context {N : Numeric} {E : ExactArith N}.
Variable goes_before : num -> num -> bool.
Hypothesis gb_true : forall x y, goes_before x y = true -> leb y x = true.
Hypothesis gb_false : forall x y, goes_before x y = false -> leb x y = true.
Variable values : list num.

Let val (p : nat) : num := nth p values zero.
Let desc (i j : nat) : Prop := leb (val j) (val i) = true.

Lemma insert_idx_perm i l :
  Permutation (insert_idx goes_before values i l) (i :: l).
Proof.
  induction l as [| j l IH]; simpl; [reflexivity|].
  destruct (goes_before _ _); [reflexivity|].
  rewrite IH. apply perm_swap.
Qed.

Lemma order_idx_perm :
  Permutation (order_idx goes_before values) (seq 0 (length values)).
Proof.
  unfold order_idx.
  induction (seq 0 (length values)) as [| i l IH]; simpl; [reflexivity|].
  rewrite insert_idx_perm. now constructor.
Qed.

Lemma insert_idx_sorted i l :
  StronglySorted desc l ->
  StronglySorted desc (insert_idx goes_before values i l).
Proof.
  induction 1 as [| j l Hs IH Hall]; simpl.
  - repeat constructor.
  - destruct (goes_before (nth i values zero) (nth j values zero)) eqn:Hg.
    + constructor; [now constructor|].
      constructor; [now apply gb_true|].
      rewrite Forall_forall in *. intros k Hk.
      unfold desc. apply leb_trans with (val j); [now apply Hall|].
      now apply gb_true.
    + constructor; [exact IH|].
      rewrite Forall_forall in *. intros k Hk.
      apply (Permutation_in _ (insert_idx_perm i l)) in Hk.
      destruct Hk as [<- | Hk]; [now apply gb_false | now apply Hall].
Qed.

Lemma order_idx_sorted : StronglySorted desc (order_idx goes_before values).
Proof.
  unfold order_idx.
  induction (seq 0 (length values)) as [| i l IH]; simpl.
  - constructor.
  - now apply insert_idx_sorted.
Qed.

Lemma order_idx_In p :
  In p (order_idx goes_before values) <-> p < length values.
Proof.
  split; intros H.
  - apply (Permutation_in _ order_idx_perm) in H. apply in_seq in H. lia.
  - apply (Permutation_in _ (Permutation_sym order_idx_perm)).
    apply in_seq. lia.
Qed.

Lemma topk_by_contract k :
  k <= length values ->
  topk_contract values k (topk_by goes_before values k).
Proof.
  intros Hk. unfold topk_by.
  set (ord := order_idx goes_before values).
  assert (Hlen : length ord = length values).
  { unfold ord. rewrite (Permutation_length order_idx_perm). apply length_seq. }
  assert (Hnd : NoDup ord).
  { apply (Permutation_NoDup (Permutation_sym order_idx_perm)), seq_NoDup. }
  constructor; simpl.
  - rewrite length_firstn. lia.
  - rewrite map_map. apply map_ext_in. intros p Hp.
    apply in_firstn in Hp. apply order_idx_In in Hp.
    now apply nth_error_nth'.
  - rewrite <- (firstn_skipn k ord) in Hnd. now apply NoDup_app_remove_r in Hnd.
  - intros i j x y Hij Hi Hj.
    rewrite nth_error_map in Hi, Hj.
    destruct (nth_error (firstn k ord) i) as [p|] eqn:Hp; [|discriminate].
    destruct (nth_error (firstn k ord) j) as [q|] eqn:Hq; [|discriminate].
    simpl in Hi, Hj. injection Hi as <-. injection Hj as <-.
    exact (@strongly_sorted_nth _ desc _ (@strongly_sorted_firstn _ desc _ k order_idx_sorted) i j p q Hij Hp Hq).
  - intros p q x y Hp Hq Hx Hy.
    assert (Hq' : q < length values) by (apply nth_error_Some; congruence).
    apply order_idx_In in Hq'. fold ord in Hq'.
    rewrite <- (firstn_skipn k ord) in Hq'.
    apply in_app_or in Hq'. destruct Hq' as [Hq' | Hq']; [contradiction|].
    pose proof order_idx_sorted as Hs. fold ord in Hs.
    rewrite <- (firstn_skipn k ord) in Hs.
    pose proof (@strongly_sorted_app _ desc _ _ Hs p q Hp Hq') as Hd.
    unfold desc, val in Hd.
    rewrite (nth_error_nth _ _ _ Hx), (nth_error_nth _ _ _ Hy) in Hd.
    exact Hd.
Qed.
End TopKByFacts.

Lemma topk_first_spec (N : Numeric) (E : ExactArith N) : TopKSpec (topk_first N).
Proof.
  intros values k Hk. simpl.
  apply (@topk_by_contract N E (fun x y => leb y x)); [| | exact Hk].
  - intros x y H. exact H.
  - intros x y H. destruct (leb_total x y) as [Hxy | Hyx]; congruence.
Qed.

(* ================================================================== *)
(** * The selection the spec describes: ties go to the lower position *)
(* ================================================================== *)

Section StableTopK.
Context {N : Numeric} {E : ExactArith N}.
Variable values : list num.

Let val (p : nat) : num := nth p values zero.




End StableTopK.

(* ================================================================== *)
(** * The fixed-point carrier is an exact arithmetic *)
(* ================================================================== *)

Lemma fix_exact : ExactArith Fix.fixnum.
Proof.
  constructor; simpl; unfold Fix.fix_mul, Fix.scale; intros.
  - reflexivity.
  - apply Z.add_0_r.
  - now rewrite Z.mul_0_r.
  - apply Z.div_mul. discriminate.
  - destruct (Z.leb_spec x y); [now left | right; apply Z.leb_le; lia].
  - apply Z.leb_le. apply Z.leb_le in H, H0. lia.
  - destruct (Z.leb_spec (- x) (- y)), (Z.leb_spec y x); trivial; lia.
  - apply Z.eqb_eq.
  - reflexivity.
  - apply Z.leb_gt. apply Z.leb_gt in H. apply Z.leb_le in H0. lia.
Qed.

(* ================================================================== *)
(** * The aggregated input tokens *)
(* ================================================================== *)

Lemma occurrences_snoc es pos tok token :
  occurrences (es ++ [(pos, tok)]) token =
  occurrences es token ++ (if String.eqb tok token then [pos] else []).
Proof.
  unfold occurrences. rewrite filter_app, map_app. simpl.
  now destruct (String.eqb tok token).
Qed.

Lemma occurrences_nil_iff es token :
  occurrences es token = [] <-> ~ In token (map snd es).
Proof.
  unfold occurrences. induction es as [| [p s] es IH]; simpl.
  - tauto.
  - destruct (String.eqb_spec s token) as [-> | Hne]; simpl.
    + split; [discriminate | intros H; exfalso; apply H; now left].
    + rewrite IH. tauto.
Qed.

Lemma setdefault_append_keys d token pos :
  map fst (setdefault_append d token pos) =
  map fst d ++ (if in_dec string_dec token (map fst d) then [] else [token]).
Proof.
  induction d as [| [k v] d IH]; simpl; [reflexivity|].
  destruct (String.eqb_spec k token) as [-> | Hne]; simpl.
  - destruct (string_dec token token); [|congruence].
    now rewrite app_nil_r.
  - rewrite IH. destruct (string_dec k token); [congruence|].
    now destruct (in_dec string_dec token (map fst d)).
Qed.

Lemma setdefault_append_In d token pos k v :
  NoDup (map fst d) ->
  In (k, v) (setdefault_append d token pos) <->
  (k <> token /\ In (k, v) d) \/
  (k = token /\ ((exists v0, In (token, v0) d /\ v = v0 ++ [pos]) \/
                 (~ In token (map fst d) /\ v = [pos]))).
Proof.
  induction d as [| [k0 v0] d IH]; simpl; intros Hnd.
  - split.
    + intros [H | []]. injection H as <- <-. right. split; trivial.
      right. split; trivial. tauto.
    + intros [[_ []] | [-> [[v1 [[] _]] | [_ ->]]]]. now left.
  - inversion Hnd as [| ? ? Hnot Hnd']; subst.
    destruct (String.eqb_spec k0 token) as [-> | Hne]; simpl.
    + split.
      * intros [H | H].
        -- injection H as <- <-. right. split; trivial. left.
           exists v0. split; trivial. now left.
        -- left. split; [|now right].
           intros ->. apply Hnot. now apply (in_map fst) in H.
      * intros [[Hk [H | H]] | [-> [[v1 [[H | H] ->]] | [Hn _]]]].
        -- injection H as <- <-. congruence.
        -- now right.
        -- injection H as <-. now left.
        -- exfalso. apply Hnot. now apply (in_map fst) in H.
        -- exfalso. apply Hn. now left.
    + rewrite (IH Hnd'). split.
      * intros [H | [[Hk H] | [-> H]]].
        -- injection H as <- <-. left. split; [congruence | now left].
        -- left. split; trivial. now right.
        -- right. split; trivial. destruct H as [[v1 [H ->]] | [Hn ->]].
           ++ left. exists v1. split; trivial. now right.
           ++ right. split; trivial. intros [H | H]; [congruence | tauto].
      * intros [[Hk [H | H]] | [-> [[v1 [[H | H] ->]] | [Hn ->]]]].
        -- now left.
        -- right. left. tauto.
        -- injection H as <- <-. congruence.
        -- right. right. split; trivial. left. now exists v1.
        -- right. right. split; trivial. right. split; trivial.
           intros H. apply Hn. now right.
Qed.

Lemma agg_inv_step d es pos tok :
  agg_inv d es ->
  agg_inv (setdefault_append d tok pos) (es ++ [(pos, tok)]).
Proof.
  intros [Hnd Hin]. split.
  - rewrite setdefault_append_keys.
    destruct (in_dec string_dec tok (map fst d)) as [Hi | Hn].
    + now rewrite app_nil_r.
    + apply NoDup_app; trivial.
      * repeat constructor. intros [].
      * intros x Hx [<- | []]. contradiction.
  - assert (Hkey : In tok (map fst d) <-> In tok (map snd es)).
    { split; intros H.
      - apply in_map_iff in H. destruct H as [[k v] [<- H]].
        now apply Hin in H.
      - assert (Hx : In (tok, occurrences es tok) d) by (apply Hin; now split).
        apply (in_map fst) in Hx. exact Hx. }
    intros k v. rewrite (@setdefault_append_In d tok pos k v Hnd).
    rewrite map_app, in_app_iff, occurrences_snoc. simpl.
    destruct (String.eqb_spec tok k) as [-> | Hne].
    + split.
      * intros [[Hk _] | [_ [[v0 [H ->]] | [Hn ->]]]]; [congruence | |].
        -- apply Hin in H. destruct H as [_ ->]. tauto.
        -- rewrite Hkey in Hn. apply occurrences_nil_iff in Hn.
           rewrite Hn. tauto.
      * intros [_ ->]. right. split; trivial.
        destruct (in_dec string_dec k (map snd es)) as [Hi | Hn].
        -- left. exists (occurrences es k). split; trivial.
           apply Hin. now split.
        -- right. rewrite Hkey. split; trivial.
           apply occurrences_nil_iff in Hn. now rewrite Hn.
    + rewrite app_nil_r. split.
      * intros [[Hk H] | [-> _]]; [|congruence].
        apply Hin in H. tauto.
      * intros [[H | [H | []]] ->]; [|congruence].
        left. split; [congruence|]. apply Hin. now split.
Qed.

Lemma aggregated_inv src_sent :
  agg_inv (aggregated_primitive_tokens src_sent) (enumerate src_sent).
Proof.
  unfold aggregated_primitive_tokens.
  assert (H : forall es pre d, agg_inv d pre ->
            agg_inv (fold_left (fun d e => setdefault_append d (snd e) (fst e))
                               es d) (pre ++ es)).
  { induction es as [| [pos tok] es IH]; intros pre d Hd; simpl.
    - now rewrite app_nil_r.
    - replace (pre ++ (pos, tok) :: es) with ((pre ++ [(pos, tok)]) ++ es)
        by (rewrite <- app_assoc; reflexivity).
      apply IH. now apply agg_inv_step. }
  apply (H (enumerate src_sent) [] []).
  split; [constructor|]. simpl. intros k v. tauto.
Qed.

Lemma enumerate_snd {A} (l : list A) : map snd (enumerate l) = l.
Proof.
  unfold enumerate. generalize 0.
  induction l as [| x l IH]; intros n; simpl; [reflexivity|].
  now rewrite IH.
Qed.

Lemma enumerate_In {A} (l : list A) i x :
  In (i, x) (enumerate l) <-> nth_error l i = Some x.
Proof.
  unfold enumerate.
  assert (H : forall n, In (i, x) (combine (seq n (length l)) l) <->
                        n <= i /\ nth_error l (i - n) = Some x).
  { induction l as [| y l IH]; intros n; simpl.
    - split; [tauto|]. intros [_ H]. destruct (i - n); discriminate.
    - rewrite IH. split.
      + intros [H | [Hle H]].
        * injection H as <- <-. split; [lia|]. now rewrite Nat.sub_diag.
        * split; [lia|]. replace (i - n) with (S (i - S n)) by lia. exact H.
      + intros [Hle H]. destruct (Nat.eq_dec n i) as [<- | Hne].
        * rewrite Nat.sub_diag in H. injection H as <-. now left.
        * right. split; [lia|].
          replace (i - n) with (S (i - S n)) in H by lia. exact H. }
  rewrite H, Nat.sub_0_r. split; [tauto | split; [lia | tauto]].
Qed.

Lemma occurrence_positions_In src_sent token i :
  In i (occurrence_positions src_sent token) <->
  nth_error src_sent i = Some token.
Proof.
  unfold occurrence_positions, occurrences.
  rewrite in_map_iff. split.
  - intros [[j s] [<- H]]. apply filter_In in H. destruct H as [H Heq].
    simpl in *. apply String.eqb_eq in Heq. subst. now apply enumerate_In.
  - intros H. exists (i, token). split; trivial.
    apply filter_In. split; [now apply enumerate_In|].
    simpl. apply String.eqb_refl.
Qed.

(** The dictionary has one entry per distinct input token, holding all the
    positions of that token. *)
Lemma aggregated_spec src_sent :
  NoDup (map fst (aggregated_primitive_tokens src_sent)) /\
  forall token positions,
    In (token, positions) (aggregated_primitive_tokens src_sent) <->
    (In token src_sent /\ positions = occurrence_positions src_sent token).
Proof.
  destruct (aggregated_inv src_sent) as [Hnd Hin]. split; trivial.
  intros token positions. rewrite Hin, enumerate_snd. reflexivity.
Qed.

(* ================================================================== *)
(** * The candidate lists of a step *)
(* ================================================================== *)

Lemma Forall3_snoc {A B C} (P : A -> B -> C -> Prop) l1 l2 l3 x y z :
  Forall3 P l1 l2 l3 -> P x y z ->
  Forall3 P (l1 ++ [x]) (l2 ++ [y]) (l3 ++ [z]).
Proof.
  induction 1; intros Hp; simpl; constructor; auto. constructor.
Qed.

Lemma Forall3_length {A B C} (P : A -> B -> C -> Prop) l1 l2 l3 :
  Forall3 P l1 l2 l3 -> length l1 = length l2 /\ length l2 = length l3.
Proof.
  induction 1 as [| ? ? ? ? ? ? _ _ [IH1 IH2]]; simpl; split; congruence.
Qed.

Lemma Forall3_nth {A B C} (P : A -> B -> C -> Prop) l1 l2 l3 :
  Forall3 P l1 l2 l3 ->
  forall i, i < length l1 ->
  exists x y z, nth_error l1 i = Some x /\ nth_error l2 i = Some y /\
                nth_error l3 i = Some z /\ P x y z.
Proof.
  induction 1 as [| x y z l1 l2 l3 Hp _ IH]; simpl; intros i Hi; [lia|].
  destruct i as [| i]; simpl.
  - exists x, y, z. auto.
  - apply IH. lia.
Qed.

Section ArgmaxFacts.
Context {N : Numeric} {E : ExactArith N}.

Lemma leb_refl (x : num) : leb x x = true.
Proof. destruct (leb_total x x); assumption. Qed.

Lemma argmax_from_spec (l : list num) :
  forall pre best_i best,
    nth_error pre best_i = Some best ->
    (forall x, In x pre -> leb x best = true) ->
    exists m, nth_error (pre ++ l) (argmax_from best_i best (length pre) l)
              = Some m /\
              forall x, In x (pre ++ l) -> leb x m = true.
Proof.
  induction l as [| x l IH]; intros pre best_i best Hb Hmax; simpl.
  - exists best. rewrite app_nil_r. auto.
  - replace (pre ++ x :: l) with ((pre ++ [x]) ++ l)
      by (rewrite <- app_assoc; reflexivity).
    replace (S (length pre)) with (length (pre ++ [x]))
      by (rewrite length_app; simpl; lia).
    destruct (leb x best) eqn:Hx.
    + apply IH.
      * rewrite nth_error_app1; trivial.
        apply nth_error_Some. congruence.
      * intros y Hy. apply in_app_or in Hy.
        destruct Hy as [Hy | [<- | []]]; auto.
    + apply IH.
      * rewrite nth_error_app2, Nat.sub_diag; [reflexivity | lia].
      * assert (Hbx : leb best x = true)
          by (destruct (leb_total x best); congruence).
        intros y Hy. apply in_app_or in Hy.
        destruct Hy as [Hy | [<- | []]]; [|apply leb_refl].
        apply leb_trans with best; auto.
Qed.

(** [np.argmax] points at an entry no other entry exceeds. *)
Lemma argmax_spec (l : list num) :
  l <> [] ->
  exists m, nth_error l (argmax l) = Some m /\
            forall x, In x l -> leb x m = true.
Proof.
  destruct l as [| x l]; [congruence|]. intros _. unfold argmax.
  apply (argmax_from_spec l [x] 0); [reflexivity|].
  intros y [<- | []]. apply leb_refl.
Qed.
End ArgmaxFacts.

Section CollectFacts.
Context {N : Numeric} {G : Grammar} {V : PrimVocab}
        {TS : TransitionSystem G} {SC : Scorer N TS}.
Variable args : Args.
Variable src_sent : list string.
Variable scores : StepScores DecState.

Lemma copy_fold_snd h l acc :
  snd (fold_left (copy_token_step scores h) l acc) =
  snd acc ++
  map (fun e => mkUnkCopy (fst e) (snd e) (gated_copy_prob scores h (snd e)))
      (filter is_oov l).
Proof.
  revert acc. induction l as [| e l IH]; intros acc; simpl.
  - now rewrite app_nil_r.
  - rewrite IH. unfold copy_token_step, is_oov.
    destruct (vocab_lookup (fst e)); simpl; [reflexivity|].
    now rewrite <- app_assoc.
Qed.

Lemma copy_aggregate_snd h pp :
  snd (copy_aggregate src_sent scores h pp) = unk_copy_info src_sent scores h.
Proof. unfold copy_aggregate. now rewrite copy_fold_snd. Qed.

Lemma copy_fold_other_row h h' j l acc :
  h' <> h ->
  fst (fold_left (copy_token_step scores h) l acc) h' j = fst acc h' j.
Proof.
  intros Hne. revert acc. induction l as [| e l IH]; intros acc; simpl; trivial.
  rewrite IH. unfold copy_token_step.
  destruct (vocab_lookup (fst e)); simpl; trivial.
  unfold upd2. destruct (Nat.eqb_spec h' h); [contradiction | reflexivity].
Qed.

Lemma copy_fold_frame h i l acc :
  (forall e, In e l -> vocab_lookup (fst e) <> Some i) ->
  fst (fold_left (copy_token_step scores h) l acc) h i = fst acc h i.
Proof.
  revert acc. induction l as [| e l IH]; intros acc Hl; simpl; trivial.
  rewrite IH by (intros e' He'; apply Hl; now right).
  unfold copy_token_step.
  destruct (vocab_lookup (fst e)) as [j |] eqn:Hj; simpl; trivial.
  unfold upd2. destruct (Nat.eqb_spec i j) as [-> | Hne].
  - exfalso. apply (Hl e); [now left | exact Hj].
  - now rewrite andb_false_r.
Qed.

(** A token that alone maps to slot [i] adds its copy mass there. *)
Lemma copy_fold_slot h i token positions l :
  forall acc,
    NoDup (map fst l) ->
    In (token, positions) l ->
    vocab_lookup token = Some i ->
    (forall e, In e l -> vocab_lookup (fst e) = Some i -> fst e = token) ->
    fst (fold_left (copy_token_step scores h) l acc) h i =
    add (fst acc h i) (gated_copy_prob scores h positions).
Proof.
  induction l as [| e l IH]; intros acc Hnd Hin Hi Hinj; [contradiction|].
  simpl in Hnd. inversion Hnd as [| ? ? Hnot Hnd']; subst.
  simpl. destruct Hin as [-> | Hin].
  - rewrite copy_fold_frame.
    + unfold copy_token_step. simpl. rewrite Hi. simpl.
      unfold upd2. now rewrite !Nat.eqb_refl.
    + intros e He Hv. apply Hnot. simpl.
      pose proof (Hinj e (or_intror He) Hv) as Heq.
      apply (in_map fst) in He. now rewrite Heq in He.
  - rewrite (IH _ Hnd' Hin Hi) by (intros e' He'; apply Hinj; now right).
    f_equal. unfold copy_token_step.
    destruct (vocab_lookup (fst e)) as [j |] eqn:Hj; simpl; trivial.
    unfold upd2. destruct (Nat.eqb_spec i j) as [-> | Hne].
    + exfalso. apply Hnot. rewrite (Hinj e (or_introl eq_refl) Hj).
      apply (in_map fst) in Hin. exact Hin.
    + now rewrite andb_false_r.
Qed.

(** The GenToken branch in closed form. *)
Lemma gentoken_branch_eq h c :
  gentoken_branch args src_sent scores h c =
  let pp := if no_copy args then primitive_prob c
            else fst (copy_aggregate src_sent scores h (primitive_prob c)) in
  with_gentoken
    (if records_unk args src_sent
     then upd2 pp h unk (uc_copy_prob (unk_choice src_sent scores h))
     else pp)
    (gentoken_prev_hyp_ids c ++ [h])
    (gentoken_new_hyp_unks c ++
     (if records_unk args src_sent
      then [uc_token (unk_choice src_sent scores h)] else []))
    c.
Proof.
  unfold gentoken_branch, records_unk.
  destruct (no_copy args); simpl.
  - now rewrite app_nil_r.
  - rewrite copy_aggregate_snd.
    replace (length (unk_copy_info src_sent scores h))
      with (length (oov_entries src_sent))
      by (unfold unk_copy_info; now rewrite length_map).
    destruct (0 <? length (oov_entries src_sent)); [reflexivity|].
    now rewrite app_nil_r.
Qed.

Lemma gentoken_branch_other_row h h' j c :
  h' <> h ->
  primitive_prob (gentoken_branch args src_sent scores h c) h' j =
  primitive_prob c h' j.
Proof.
  intros Hne. rewrite gentoken_branch_eq. simpl.
  assert (Hpp : (if no_copy args then primitive_prob c
                 else fst (copy_aggregate src_sent scores h (primitive_prob c)))
                h' j = primitive_prob c h' j).
  { destruct (no_copy args); trivial.
    unfold copy_aggregate. now rewrite copy_fold_other_row. }
  destruct (records_unk args src_sent); trivial.
  unfold upd2. destruct (Nat.eqb_spec h' h); [contradiction | exact Hpp].
Qed.

Lemma gentoken_branch_unk_slot h c :
  records_unk args src_sent = true ->
  primitive_prob (gentoken_branch args src_sent scores h c) h unk =
  uc_copy_prob (unk_choice src_sent scores h).
Proof.
  intros Hr. rewrite gentoken_branch_eq. simpl. rewrite Hr.
  unfold upd2. now rewrite !Nat.eqb_refl.
Qed.

Lemma cands_inv_push hyps c s prod_id hyp_id hyp :
  cands_inv args src_sent scores hyps c ->
  nth_error hyps hyp_id = Some hyp ->
  s = add (score hyp) (apply_rule_log_prob scores hyp_id prod_id) ->
  (In TApplyRule (get_valid_continuation_types (tree hyp)) /\
   exists p, In p (get_valid_continuating_productions (tree hyp)) /\
             prod_id = prod2id p) \/
  (In TReduce (get_valid_continuation_types (tree hyp)) /\
   prod_id = grammar_len) ->
  cands_inv args src_sent scores hyps (push_applyrule s prod_id hyp_id c).
Proof.
  intros [Ha Hg Hu Hs] Hh Hsc Hlegal. constructor; simpl; trivial.
  apply Forall3_snoc; trivial. exists hyp. auto.
Qed.

Lemma cands_inv_gentoken hyps c h hyp :
  cands_inv args src_sent scores hyps c ->
  nth_error hyps h = Some hyp ->
  In TGenToken (get_valid_continuation_types (tree hyp)) ->
  cands_inv args src_sent scores hyps (gentoken_branch args src_sent scores h c).
Proof.
  intros [Ha Hg Hu Hs] Hh Hty. constructor.
  - rewrite gentoken_branch_eq. exact Ha.
  - rewrite gentoken_branch_eq. simpl. apply Forall_app. split; trivial.
    constructor; [|constructor]. exists hyp. auto.
  - rewrite gentoken_branch_eq. simpl. rewrite Hu.
    destruct (records_unk args src_sent); [|reflexivity].
    now rewrite map_app.
  - intros Hr. specialize (Hs Hr).
    assert (Hids : gentoken_prev_hyp_ids
                     (gentoken_branch args src_sent scores h c) =
                   gentoken_prev_hyp_ids c ++ [h])
      by (now rewrite gentoken_branch_eq).
    rewrite Hids. apply Forall_app. split.
    + rewrite Forall_forall in *. intros h0 Hh0.
      destruct (Nat.eq_dec h0 h) as [-> | Hne].
      * now apply gentoken_branch_unk_slot.
      * rewrite gentoken_branch_other_row; auto.
    + constructor; [|constructor]. now apply gentoken_branch_unk_slot.
Qed.

Lemma cands_inv_action_type hyps c h hyp ty :
  cands_inv args src_sent scores hyps c ->
  nth_error hyps h = Some hyp ->
  In ty (get_valid_continuation_types (tree hyp)) ->
  cands_inv args src_sent scores hyps
            (action_type_step args src_sent scores h hyp c ty).
Proof.
  intros Hc Hh Hty. destruct ty; simpl.
  - apply fold_left_invariant; trivial.
    intros c' p Hp Hc'. eapply cands_inv_push; eauto.
  - eapply cands_inv_push; eauto.
  - eapply cands_inv_gentoken; eauto.
Qed.

Lemma collect_inv hyps :
  cands_inv args src_sent scores hyps (collect args src_sent scores hyps).
Proof.
  unfold collect. apply fold_left_invariant.
  - constructor; simpl; try constructor.
    now destruct (records_unk args src_sent).
  - intros c [h hyp] He Hc. apply enumerate_In in He.
    unfold hyp_step. simpl. apply fold_left_invariant; trivial.
    intros c' ty Hty Hc'. now apply cands_inv_action_type.
Qed.
End CollectFacts.

(* ================================================================== *)
(** * Selected positions and the actions they stand for *)
(* ================================================================== *)

Section ActionFacts.
Context {N : Numeric} {G : Grammar} {V : PrimVocab}
        {TS : TransitionSystem G} {SC : Scorer N TS}.
Variable args : Args.
Variable src_sent : list string.
Variable scores : StepScores DecState.
Variable hyps : list DecodeHypothesis.

Lemma gen_scores_length (hyp_scores : list num) (c : Cands) :
  length (gen_token_new_hyp_scores hyp_scores c) =
  length (gentoken_prev_hyp_ids c) * vocab_size.
Proof.
  unfold gen_token_new_hyp_scores.
  induction (gentoken_prev_hyp_ids c) as [| h l IH]; simpl; trivial.
  now rewrite length_app, length_map, length_seq, IH.
Qed.

(** The candidate list: ApplyRule and Reduce candidates, then the
    vocabulary slots of the GenToken hypotheses. *)
Lemma new_hyp_scores_eq (hyp_scores : list num) (c : Cands) l :
  new_hyp_scores hyp_scores c = Some l ->
  l = applyrule_new_hyp_scores c ++ gen_token_new_hyp_scores hyp_scores c.
Proof.
  unfold new_hyp_scores, gen_token_new_hyp_scores.
  destruct (applyrule_new_hyp_scores c) as [| s ss];
    destruct (gentoken_prev_hyp_ids c) as [| h hs]; simpl; intros H;
    try discriminate; injection H as <-; trivial.
  now rewrite app_nil_r.
Qed.

Lemma div_mod_lt k n v : v <> 0 -> k < n * v -> k / v < n.
Proof. intros Hv Hk. apply Nat.Div0.div_lt_upper_bound. lia. Qed.

Lemma make_action_defined c pos :
  cands_inv args src_sent scores hyps c ->
  pos < length (applyrule_new_hyp_scores c) +
        length (gentoken_prev_hyp_ids c) * vocab_size ->
  exists h a hyp,
    make_action c pos = Some (h, a) /\ nth_error hyps h = Some hyp /\
    (pos < length (applyrule_new_hyp_scores c) ->
     forall tok, a <> GenTokenAction tok) /\
    (length (applyrule_new_hyp_scores c) <= pos ->
     exists tok, a = GenTokenAction tok).
Proof.
  intros [Ha Hg Hu Hs] Hpos. unfold make_action.
  destruct (Nat.ltb_spec pos (length (applyrule_new_hyp_scores c)))
    as [Hlt | Hge].
  - destruct (Forall3_nth Ha Hlt)
      as (s & prod_id & h & _ & Hp & Hh & hyp & Hhyp & _).
    rewrite Hh, Hp. simpl.
    exists h. eexists. exists hyp. split; [reflexivity|]. split; trivial.
    split; [|lia]. intros _ tok.
    destruct (prod_id <? grammar_len); discriminate.
  - set (n := length (applyrule_new_hyp_scores c)) in *.
    assert (Hv : vocab_size <> 0) by (intros Hv; rewrite Hv in Hpos; lia).
    assert (Hk : (pos - n) / vocab_size < length (gentoken_prev_hyp_ids c))
      by (apply div_mod_lt; trivial; lia).
    destruct (nth_error (gentoken_prev_hyp_ids c) ((pos - n) / vocab_size))
      as [h |] eqn:Hh; [|apply nth_error_None in Hh; lia].
    simpl. rewrite Forall_forall in Hg.
    destruct (Hg h (nth_error_In _ _ Hh)) as (hyp & Hhyp & _).
    assert (Htok : exists tok,
               (if (pos - n) mod vocab_size =? unk
                then match gentoken_new_hyp_unks c with
                     | [] => Some unk_word
                     | _ :: _ => nth_error (gentoken_new_hyp_unks c)
                                           ((pos - n) / vocab_size)
                     end
                else Some (idxToLabel ((pos - n) mod vocab_size))) = Some tok).
    { assert (Hlen : gentoken_new_hyp_unks c = [] \/
                     length (gentoken_new_hyp_unks c) =
                     length (gentoken_prev_hyp_ids c)).
      { rewrite Hu. destruct (records_unk args src_sent); [right | now left].
        apply length_map. }
      destruct ((pos - n) mod vocab_size =? unk); [|eauto].
      destruct Hlen as [-> | Hlen]; [eauto|].
      destruct (nth_error (gentoken_new_hyp_unks c) ((pos - n) / vocab_size))
        as [tok |] eqn:Ht.
      - exists tok. destruct (gentoken_new_hyp_unks c);
          [now rewrite nth_error_nil in Ht | reflexivity].
      - apply nth_error_None in Ht. lia. }
    destruct Htok as [tok Htok]. rewrite Htok. simpl.
    exists h, (GenTokenAction tok), hyp. split; trivial. split; trivial.
    split; [lia|]. eauto.
Qed.

Lemma make_action_legal c pos h a :
  cands_inv args src_sent scores hyps c ->
  grammar_ids_ok hyps ->
  make_action c pos = Some (h, a) ->
  exists hyp, nth_error hyps h = Some hyp /\ legal (tree hyp) a.
Proof.
  intros [Ha Hg Hu Hs] Hgr. unfold make_action.
  destruct (Nat.ltb_spec pos (length (applyrule_new_hyp_scores c)))
    as [Hlt | Hge].
  - destruct (Forall3_nth Ha Hlt)
      as (s & prod_id & h' & _ & Hp & Hh & hyp & Hhyp & _ & Hlegal).
    rewrite Hh, Hp. simpl. intros H. injection H as <- <-.
    exists hyp. split; trivial.
    destruct Hlegal as [[Hty (p & Hp' & ->)] | [Hty ->]].
    + destruct (Hgr hyp p (nth_error_In _ _ Hhyp) Hp') as [Hlt' Hid].
      apply Nat.ltb_lt in Hlt'. rewrite Hlt', Hid. simpl. auto.
    + rewrite Nat.ltb_irrefl. exact Hty.
  - destruct (nth_error (gentoken_prev_hyp_ids c) _) as [h' |] eqn:Hh;
      [|discriminate].
    simpl.
    destruct (if _ =? unk then _ else _) as [tok |]; [|discriminate].
    simpl. intros H. injection H as <- <-.
    rewrite Forall_forall in Hg.
    destruct (Hg h' (nth_error_In _ _ Hh)) as (hyp & Hhyp & Hty).
    exists hyp. auto.
Qed.
End ActionFacts.

Lemma fold_obind_none {A B} (g : A -> B -> option A) (l : list B) :
  fold_left (fun acc e => obind acc (fun a => g a e)) l None = None.
Proof. induction l; simpl; trivial. Qed.

Lemma fold_obind_inv {A B} (g : A -> B -> option A) (P : A -> Prop)
      (l : list B) :
  forall a0 r,
    P a0 ->
    (forall a e a', In e l -> P a -> g a e = Some a' -> P a') ->
    fold_left (fun acc e => obind acc (fun a => g a e)) l (Some a0) = Some r ->
    P r.
Proof.
  induction l as [| e l IH]; simpl; intros a0 r H0 Hstep Hr.
  - now injection Hr as <-.
  - destruct (g a0 e) as [a1 |] eqn:Hg.
    + apply (IH a1 r); trivial.
      * eapply Hstep; eauto.
      * intros a e' a' He'. apply Hstep. now right.
    + now rewrite fold_obind_none in Hr.
Qed.

Lemma fold_obind_total {A B} (g : A -> B -> option A) (P : A -> Prop)
      (l : list B) :
  forall a0,
    P a0 ->
    (forall a e, In e l -> P a -> exists a', g a e = Some a' /\ P a') ->
    exists r,
      fold_left (fun acc e => obind acc (fun a => g a e)) l (Some a0) = Some r
      /\ P r.
Proof.
  induction l as [| e l IH]; simpl; intros a0 H0 Hstep.
  - eauto.
  - destruct (Hstep a0 e (or_introl eq_refl) H0) as (a1 & Hg & H1).
    rewrite Hg. apply IH; trivial.
    intros a e' He'. apply Hstep. now right.
Qed.

Section StepFacts.
Context {N : Numeric} {G : Grammar} {V : PrimVocab}
        {TS : TransitionSystem G} {SC : Scorer N TS} {TK : TopK N}.
Variable args : Args.
Variable src_sent : list string.
Variable beam_size : nat.
Variable return_states : bool.

Lemma make_action_info_inv t hyps c pos pid prev ai :
  make_action_info src_sent t hyps c pos = Some (pid, prev, ai) ->
  make_action c pos = Some (pid, action ai) /\ nth_error hyps pid = Some prev /\
  ai_t ai = t.
Proof.
  unfold make_action_info.
  destruct (make_action c pos) as [[h a] |]; simpl; [|discriminate].
  destruct (nth_error hyps h) as [hyp |] eqn:Hh; simpl; [|discriminate].
  intros H. injection H as <- <- <-. simpl. auto.
Qed.

(** What one pass of the loop over the selected candidates does. *)
Lemma select_one_inv st c a e a' :
  select_one src_sent return_states st c a e = Some a' ->
  exists pid prev ai,
    make_action_info src_sent (bs_t st) (hypotheses st) c (snd e)
    = Some (pid, prev, ai) /\
    let new_hyp :=
      mkHyp (clone_and_apply_action_info (tree prev) ai) (fst e) in
    (completed (tree new_hyp) = true /\
     live_hyp_ids a' = live_hyp_ids a /\
     new_hypotheses a' = new_hypotheses a /\
     sel_completed a' = sel_completed a ++ [new_hyp]) \/
    (completed (tree new_hyp) = false /\
     live_hyp_ids a' = live_hyp_ids a ++ [pid] /\
     new_hypotheses a' = new_hypotheses a ++ [new_hyp] /\
     sel_completed a' = sel_completed a /\ sel_saved a' = sel_saved a).
Proof.
  unfold select_one.
  destruct (make_action_info _ _ _ _ _) as [[[pid prev] ai] |]; simpl;
    [|discriminate].
  intros H. exists pid, prev, ai. split; trivial. simpl.
  destruct (completed (clone_and_apply_action_info (tree prev) ai)).
  - left. destruct (if return_states then _ else _); simpl in H;
      [|discriminate].
    injection H as <-. simpl. auto.
  - right. injection H as <-. simpl. auto.
Qed.

Lemma select_fold_length st c l :
  forall a0 r,
    fold_left (select_step src_sent return_states st c) l (Some a0) = Some r ->
    length (new_hypotheses r) + length (sel_completed r) =
    length (new_hypotheses a0) + length (sel_completed a0) + length l /\
    (length (live_hyp_ids a0) = length (new_hypotheses a0) ->
     length (live_hyp_ids r) = length (new_hypotheses r)).
Proof.
  unfold select_step.
  induction l as [| e l IH]; simpl; intros a0 r Hr.
  - injection Hr as <-. split; [lia | trivial].
  - destruct (select_one src_sent return_states st c a0 e) as [a1 |] eqn:H1;
      [|now rewrite fold_obind_none in Hr].
    destruct (IH _ _ Hr) as [IHa IHb].
    apply select_one_inv in H1.
    destruct H1 as (pid & prev & ai & _ & [H1 | H1]); simpl in H1.
    + destruct H1 as (_ & Hl & Hn & Hc). rewrite Hl, Hn, Hc in *.
      rewrite length_app in IHa. simpl in IHa. split; [lia | trivial].
    + destruct H1 as (_ & Hl & Hn & Hc & _). rewrite Hl, Hn, Hc in *.
      rewrite !length_app in *. simpl in *. split; [lia|].
      intros H0. apply IHb. lia.
Qed.

Lemma topk_combine_length (values : list num) k :
  topk_contract values k (topk values k) ->
  length (combine (fst (topk values k)) (snd (topk values k))) = k.
Proof.
  intros [Hlen Hvals _ _ _].
  apply (f_equal (@length _)) in Hvals. rewrite !length_map in Hvals.
  rewrite length_combine. lia.
Qed.

Lemma topk_positions (values : list num) k p :
  topk_contract values k (topk values k) ->
  In p (snd (topk values k)) -> p < length values.
Proof.
  intros [_ Hvals _ _ _] Hp.
  destruct (In_nth_error _ _ Hp) as [i Hi].
  apply (f_equal (fun l => nth_error l i)) in Hvals.
  rewrite !nth_error_map, Hi in Hvals. simpl in Hvals.
  apply nth_error_Some.
  destruct (nth_error (fst (topk values k)) i); simpl in Hvals; congruence.
Qed.
End StepFacts.

(* ================================================================== *)
(** * One step of the beam search *)
(* ================================================================== *)

Section StepClaims.
Context {N : Numeric} {G : Grammar} {V : PrimVocab}
        {TS : TransitionSystem G} {SC : Scorer N TS} {TK : TopK N}.
Variable args : Args.
Variable src_sent : list string.
Variable beam_size : nat.
Variable return_states : bool.

Lemma step_cands_inv (st : BeamState) :
  cands_inv args src_sent (step_scores src_sent st) (hypotheses st)
            (step_cands args src_sent st).
Proof. apply collect_inv. Qed.

(** C5.  Every hypothesis a step of [parse] produces is a hypothesis of
    the beam extended, through [clone_and_apply_action_info], by an action
    the transition system allows on it: an ApplyRule with one of the
    productions of [get_valid_continuating_productions], a Reduce or a
    GenToken whose type is among [get_valid_continuation_types]. *)
Theorem applied_actions_are_legal (st : BeamState) (sel : Selected) :
  grammar_ids_ok (hypotheses st) ->
  beam_select args src_sent beam_size return_states st = Some sel ->
  Forall (derived_legally (hypotheses st)) (new_hypotheses sel) /\
  exists newly_completed,
    sel_completed sel = completed_hypotheses st ++ newly_completed /\
    Forall (derived_legally (hypotheses st)) newly_completed.
Proof.
  intros Hgr. unfold beam_select.
  destruct (new_hyp_scores _ _) as [new_scores |]; simpl; [|discriminate].
  unfold select_step.
  apply fold_obind_inv with
    (P := fun a => Forall (derived_legally (hypotheses st)) (new_hypotheses a)
                   /\ exists newc,
                        sel_completed a = completed_hypotheses st ++ newc /\
                        Forall (derived_legally (hypotheses st)) newc).
  - simpl. split; [constructor|]. exists []. now rewrite app_nil_r.
  - intros a e a' _ [Hnew (newc & Hc & Hnewc)] H1.
    apply select_one_inv in H1.
    destruct H1 as (pid & prev & ai & Hai & H1).
    apply make_action_info_inv in Hai. destruct Hai as (Hact & Hprev & _).
    destruct (make_action_legal (snd e) (step_cands_inv st) Hgr Hact)
      as (hyp & Hhyp & Hlegal).
    assert (hyp = prev) by congruence. subst hyp.
    assert (Hd : forall s, derived_legally (hypotheses st)
                   (mkHyp (clone_and_apply_action_info (tree prev) ai) s)).
    { intros s. exists prev, ai. split; [|auto].
      eapply nth_error_In; eauto. }
    simpl in H1. destruct H1 as [(_ & _ & Hn & Hc') | (_ & _ & Hn & Hc' & _)].
    + rewrite Hn, Hc'. split; trivial.
      exists (newc ++ [mkHyp (clone_and_apply_action_info (tree prev) ai)
                             (fst e)]).
      rewrite Hc, app_assoc. split; trivial.
      apply Forall_app. split; trivial. constructor; [apply Hd | constructor].
    + rewrite Hn, Hc'. split; [|eauto].
      apply Forall_app. split; trivial. constructor; [apply Hd | constructor].
Qed.

(** C7.  At the end of a step the live and the completed hypotheses are
    together at most [beam_size], and at least one unless no live
    hypothesis survives the step. *)
Theorem beam_size_invariant {TKS : TopKSpec TK} (st : BeamState)
        (sel : Selected) :
  length (completed_hypotheses st) < beam_size ->
  beam_select args src_sent beam_size return_states st = Some sel ->
  length (new_hypotheses sel) + length (sel_completed sel) <= beam_size /\
  (live_hyp_ids sel <> [] ->
   1 <= length (new_hypotheses sel) + length (sel_completed sel)) /\
  (0 < vocab_size ->
   1 <= length (new_hypotheses sel) + length (sel_completed sel)) /\
  length (live_hyp_ids sel) = length (new_hypotheses sel).
Proof.
  intros Hguard. unfold beam_select.
  destruct (new_hyp_scores _ _) as [new_scores |] eqn:Hsc; simpl;
    [|discriminate].
  intros Hsel. apply select_fold_length in Hsel. simpl in Hsel.
  destruct Hsel as [Hsum Hlive]. specialize (Hlive eq_refl).
  assert (Hk : step_k beam_size st new_scores <= length new_scores)
    by (unfold step_k; lia).
  rewrite (topk_combine_length (topk_ok _ Hk)) in Hsum.
  unfold step_k in Hsum.
  split; [lia|]. split; [|split; trivial].
  - intros Hne. destruct (live_hyp_ids sel); [congruence|].
    simpl in Hlive. lia.
  - intros Hv. apply new_hyp_scores_eq in Hsc as Heq.
    assert (1 <= length new_scores); [|lia].
    rewrite Heq, length_app, gen_scores_length.
    unfold new_hyp_scores in Hsc.
    destruct (applyrule_new_hyp_scores _) as [| s ss]; simpl; [|lia].
    destruct (gentoken_prev_hyp_ids _) as [| h hs]; [discriminate|].
    simpl. lia.
Qed.

End StepClaims.

Section StableSelection.
Context {N : Numeric} {E : ExactArith N} {G : Grammar} {V : PrimVocab}
        {TS : TransitionSystem G} {SC : Scorer N TS}.
Variable args : Args.
Variable src_sent : list string.
Variable beam_size : nat.

End StableSelection.

(* ================================================================== *)
(** * [parse] returns *)
(* ================================================================== *)

Lemma fold_left_mono {A B} (m : A -> nat) (f : A -> B -> A) (l : list B) :
  (forall a x, m a <= m (f a x)) ->
  forall a, m a <= m (fold_left f l a).
Proof.
  intros Hf. induction l as [| x l IH]; intros a; simpl; [lia|].
  specialize (IH (f a x)). specialize (Hf a x). lia.
Qed.

Lemma fold_left_strict {A B} (m : A -> nat) (f : A -> B -> A) (l : list B) x :
  (forall a y, m a <= m (f a y)) ->
  In x l -> (forall a, m a < m (f a x)) ->
  forall a, m a < m (fold_left f l a).
Proof.
  intros Hf Hx Hs. induction l as [| y l IH]; intros a; [contradiction|].
  simpl. destruct Hx as [-> | Hx].
  - pose proof (fold_left_mono m f l Hf (f a x)). specialize (Hs a). lia.
  - specialize (IH Hx (f a y)). specialize (Hf a y). lia.
Qed.

Lemma mapM_total {A B} (f : A -> option B) (l : list A) :
  (forall x, In x l -> exists y, f x = Some y) ->
  exists ys, mapM f l = Some ys /\ length ys = length l.
Proof.
  induction l as [| x l IH]; simpl; intros H; [eauto|].
  destruct (H x (or_introl eq_refl)) as [y Hy]. rewrite Hy. simpl.
  destruct IH as (ys & Hys & Hlen); [intros; apply H; now right|].
  rewrite Hys. simpl. exists (y :: ys). simpl. auto.
Qed.

Section Totality.
Context {N : Numeric} {G : Grammar} {V : PrimVocab}
        {TS : TransitionSystem G} {SC : Scorer N TS} {TK : TopK N}.
Context {TKS : TopKSpec TK}.
Variable args : Args.
Variable src_sent : list string.
Variable beam_size : nat.
Variable return_states : bool.
Hypothesis progress : ts_progress TS.

Lemma action_type_step_count scores h hyp c ty :
  cand_count c <= cand_count (action_type_step args src_sent scores h hyp c ty)
  /\ (ty <> TApplyRule ->
      cand_count c < cand_count (action_type_step args src_sent scores h hyp c ty))
  /\ (ty = TApplyRule -> get_valid_continuating_productions (tree hyp) <> [] ->
      cand_count c < cand_count (action_type_step args src_sent scores h hyp c ty)).
Proof.
  destruct ty; simpl.
  - set (f := fun (c0 : Cands) (production : Production) =>
                push_applyrule
                  (add (score hyp)
                       (apply_rule_log_prob scores h (prod2id production)))
                  (prod2id production) h c0).
    assert (Hf : forall a y, cand_count a <= cand_count (f a y)).
    { intros a y. unfold f, cand_count. simpl. rewrite length_app. lia. }
    split; [apply (fold_left_mono cand_count f _ Hf)|].
    split; [congruence|]. intros _ Hne.
    destruct (get_valid_continuating_productions (tree hyp)) as [| p ps];
      [congruence|].
    apply (fold_left_strict cand_count f (p :: ps) p Hf); [now left|].
    intros a. unfold f, cand_count. simpl. rewrite length_app. simpl. lia.
  - unfold cand_count. simpl. rewrite length_app. simpl.
    repeat split; intros; try lia; congruence.
  - rewrite gentoken_branch_eq. unfold cand_count. simpl.
    rewrite length_app. simpl. repeat split; intros; try lia; congruence.
Qed.

Lemma hyp_step_count scores c e :
  cand_count c <= cand_count (hyp_step args src_sent scores c e) /\
  (completed (tree (snd e)) = false ->
   cand_count c < cand_count (hyp_step args src_sent scores c e)).
Proof.
  unfold hyp_step.
  assert (Hf : forall a ty,
             cand_count a <=
             cand_count (action_type_step args src_sent scores (fst e) (snd e)
                                          a ty))
    by (intros a ty;
        destruct (action_type_step_count scores (fst e) (snd e) a ty);
        trivial).
  split; [apply (fold_left_mono cand_count _ _ Hf)|].
  intros Hc. destruct (progress _ Hc) as [H | [H | [H Hne]]].
  - apply (fold_left_strict cand_count _ _ TReduce Hf H).
    intros a.
    destruct (action_type_step_count scores (fst e) (snd e) a TReduce)
      as (_ & Hs & _).
    apply Hs. discriminate.
  - apply (fold_left_strict cand_count _ _ TGenToken Hf H).
    intros a.
    destruct (action_type_step_count scores (fst e) (snd e) a TGenToken)
      as (_ & Hs & _).
    apply Hs. discriminate.
  - apply (fold_left_strict cand_count _ _ TApplyRule Hf H).
    intros a.
    destruct (action_type_step_count scores (fst e) (snd e) a TApplyRule)
      as (_ & _ & Hs).
    now apply Hs.
Qed.

Lemma collect_count scores hyps :
  hyps <> [] -> Forall (fun h => completed (tree h) = false) hyps ->
  0 < cand_count (collect args src_sent scores hyps).
Proof.
  intros Hne Hall. unfold collect.
  destruct hyps as [| hyp hyps]; [congruence|].
  inversion Hall as [| ? ? Hhyp _]; subst.
  assert (Hin : In (0, hyp) (enumerate (hyp :: hyps))) by (now left).
  eapply Nat.le_lt_trans;
    [|apply (fold_left_strict cand_count (hyp_step args src_sent scores)
                              _ (0, hyp));
      [intros; apply hyp_step_count | exact Hin
       | intros a; now apply hyp_step_count]].
  lia.
Qed.

Lemma new_hyp_scores_total scores hyps (hyp_scores : list num) :
  hyps <> [] -> Forall (fun h => completed (tree h) = false) hyps ->
  exists l, new_hyp_scores hyp_scores (collect args src_sent scores hyps)
            = Some l.
Proof.
  intros Hne Hall. pose proof (collect_count scores Hne Hall) as Hc.
  unfold cand_count in Hc. unfold new_hyp_scores.
  destruct (applyrule_new_hyp_scores _);
    destruct (gentoken_prev_hyp_ids _); simpl in *; eauto. lia.
Qed.

Lemma beam_select_total st :
  beam_ok st ->
  exists sel, beam_select args src_sent beam_size return_states st = Some sel
              /\ selected_ok st sel.
Proof.
  intros [Hst _ Hlive Hdone Hne]. unfold beam_select.
  destruct (new_hyp_scores_total (step_scores src_sent st) (hyp_scores st)
                                 Hne Hlive) as [new_scores Hsc].
  fold (step_cands args src_sent st) in Hsc. rewrite Hsc. simpl.
  assert (Hk : step_k beam_size st new_scores <= length new_scores)
    by (unfold step_k; lia).
  pose proof (topk_ok _ Hk) as Hc.
  unfold select_step. apply fold_obind_total.
  - repeat split; simpl; trivial.
  - intros a [sc p] He (Ha1 & Ha2 & Ha3 & Ha4).
    apply in_combine_r in He. apply (topk_positions _ Hc) in He.
    rewrite (new_hyp_scores_eq _ _ Hsc), length_app, gen_scores_length in He.
    destruct (make_action_defined (step_cands_inv args src_sent st) He)
      as (h & act & hyp & Hact & Hhyp & _).
    unfold select_one, make_action_info. cbn [fst snd].
    rewrite Hact. cbn [obind fst snd]. rewrite Hhyp. cbn [obind fst snd].
    assert (Hh : h < length (hypotheses st))
      by (apply nth_error_Some; congruence).
    match goal with
    | |- context [completed ?d] => destruct (completed d) eqn:Hcomp
    end.
    + destruct return_states.
      * destruct (nth_error (hyp_states st) h) as [s |] eqn:Hs;
          [|apply nth_error_None in Hs; lia].
        simpl. eexists. split; [reflexivity|]. repeat split; simpl; trivial.
        apply Forall_app. split; trivial. repeat constructor. exact Hcomp.
      * simpl. eexists. split; [reflexivity|]. repeat split; simpl; trivial.
        apply Forall_app. split; trivial. repeat constructor. exact Hcomp.
    + eexists. split; [reflexivity|]. repeat split; simpl.
      * apply Forall_app. split; trivial. repeat constructor. exact Hh.
      * apply Forall_app. split; trivial. repeat constructor. exact Hcomp.
      * trivial.
      * rewrite !length_app. simpl. lia.
Qed.

Lemma beam_advance_total st sel :
  beam_ok st -> selected_ok st sel -> live_hyp_ids sel <> [] ->
  exists st', beam_advance src_sent st sel = Some st' /\ beam_ok st' /\
              bs_t st' = S (bs_t st).
Proof.
  intros [Hst _ _ _ _] (H1 & H2 & H3 & H4) Hne. unfold beam_advance.
  destruct (mapM_total
              (fun i => obind (nth_error (hyp_states st) i)
                          (fun s => Some (s ++ [new_state
                                           (step_scores src_sent st) i])))
              (live_hyp_ids sel)) as (hs & Hhs & Hlen).
  { intros i Hi. rewrite Forall_forall in H1. specialize (H1 i Hi).
    destruct (nth_error (hyp_states st) i) eqn:Hs; simpl; [eauto|].
    apply nth_error_None in Hs. lia. }
  rewrite Hhs. simpl. eexists. split; [reflexivity|]. split; [|reflexivity].
  constructor; simpl; trivial; [lia | apply length_map |].
  intros Hn. rewrite Hn in H4. destruct (live_hyp_ids sel); [congruence|].
  discriminate.
Qed.

(** The loop ends, and it ends with incomplete hypotheses in [hypotheses]
    and complete ones in [completed_hypotheses]. *)
Lemma parse_loop_total fuel :
  forall st, beam_ok st ->
  exists st', parse_loop args src_sent beam_size return_states fuel st
              = Some st' /\
              Forall (fun h => completed (tree h) = false) (hypotheses st') /\
              Forall (fun h => completed (tree h) = true)
                     (completed_hypotheses st').
Proof.
  induction fuel as [| fuel IH]; intros st Hok; simpl.
  - exists st. destruct Hok. auto.
  - destruct (length (completed_hypotheses st) <? beam_size).
    + destruct (beam_select_total Hok) as (sel & Hsel & Hsok).
      rewrite Hsel. simpl.
      destruct (live_hyp_ids sel) as [| i l] eqn:Hl.
      * eexists. split; [reflexivity|]. simpl.
        destruct Hok, Hsok as (_ & _ & ? & _). auto.
      * destruct (@beam_advance_total st sel Hok Hsok) as (st' & Hadv & Hok' & _);
          [rewrite Hl; discriminate|].
        rewrite Hadv. simpl. now apply IH.
    + exists st. destruct Hok. auto.
Qed.
End Totality.

(* ================================================================== *)
(** * The result of [parse] *)
(* ================================================================== *)

Section SortFacts.
Context {N : Numeric} {E : ExactArith N}.
Context {A : Type}.
Variable key : A -> num.

Let ascending (a b : A) : Prop := leb (key a) (key b) = true.

Lemma insert_by_perm x l : Permutation (insert_by key x l) (x :: l).
Proof.
  induction l as [| y l IH]; simpl; [reflexivity|].
  destruct (ltb (key y) (key x)); [|reflexivity].
  rewrite IH. apply perm_swap.
Qed.

Lemma sort_by_perm l : Permutation (sort_by key l) l.
Proof.
  unfold sort_by. induction l as [| x l IH]; simpl; [reflexivity|].
  rewrite insert_by_perm. now constructor.
Qed.

Lemma insert_by_sorted x l :
  StronglySorted ascending l -> StronglySorted ascending (insert_by key x l).
Proof.
  induction 1 as [| y l Hs IH Hall]; simpl.
  - repeat constructor.
  - unfold ltb. destruct (leb (key x) (key y)) eqn:Hxy; simpl.
    + constructor; [now constructor|].
      constructor; trivial.
      rewrite Forall_forall in *. intros z Hz.
      apply leb_trans with (key y); auto. now apply Hall.
    + constructor; trivial.
      rewrite Forall_forall in *. intros z Hz.
      apply (Permutation_in _ (insert_by_perm x l)) in Hz.
      destruct Hz as [<- | Hz]; [|now apply Hall].
      unfold ascending. destruct (leb_total (key x) (key y)); congruence.
Qed.

Lemma sort_by_sorted l : StronglySorted ascending (sort_by key l).
Proof.
  unfold sort_by. induction l as [| x l IH]; simpl.
  - constructor.
  - now apply insert_by_sorted.
Qed.
End SortFacts.

Lemma strongly_sorted_impl {A} (R S : A -> A -> Prop) (l : list A) :
  (forall a b, R a b -> S a b) -> StronglySorted R l -> StronglySorted S l.
Proof.
  intros HRS. induction 1 as [| x l Hs IH Hall]; constructor; trivial.
  rewrite Forall_forall in *. auto.
Qed.

Section ParseResult.
Context {N : Numeric} {G : Grammar} {V : PrimVocab}
        {TS : TransitionSystem G} {SC : Scorer N TS} {TK : TopK N}.
Context {E : ExactArith N} {TKS : TopKSpec TK}.
Variable args : Args.
Variable src_sent : list string.
Variable beam_size : nat.
Variable return_states : bool.

Lemma initial_state_ok resume st0 :
  initial_state src_sent resume = Some st0 ->
  Forall (fun h => completed (tree h) = false) (hypotheses st0) ->
  beam_ok st0.
Proof.
  destruct resume as [[hyp states] |]; simpl.
  - destruct (py_index_pred states (hyp_t (tree hyp))); simpl; [|discriminate].
    intros H. injection H as <-. simpl. intros Hl.
    constructor; simpl;
      [reflexivity | reflexivity | exact Hl | constructor | discriminate].
  - intros H. injection H as <-. simpl. intros Hl.
    constructor; simpl;
      [reflexivity | reflexivity | exact Hl | constructor | discriminate].
Qed.

Lemma sorted_result_descending (l : list DecodeHypothesis) :
  score_descending (sort_by (fun hyp => neg (score hyp)) l).
Proof.
  unfold score_descending.
  eapply strongly_sorted_impl; [|apply sort_by_sorted].
  intros a b H. simpl in H. now rewrite leb_neg in H.
Qed.

(** The loop ends in one of the ways of [run_ends]. *)
Lemma parse_loop_ends fuel :
  forall st st',
    parse_loop args src_sent beam_size return_states fuel st = Some st' ->
    run_ends args src_sent beam_size return_states fuel st
             (hypotheses st') (completed_hypotheses st').
Proof.
  induction fuel as [| fuel IH]; intros st st'; simpl.
  - intros H. injection H as <-. constructor.
  - destruct (Nat.ltb_spec (length (completed_hypotheses st)) beam_size)
      as [Hlt | Hge].
    + destruct (beam_select args src_sent beam_size return_states st)
        as [sel |] eqn:Hsel; simpl; [|discriminate].
      destruct (live_hyp_ids sel) as [| i l] eqn:Hl.
      * intros H. injection H as <-. simpl. now apply end_none_live.
      * destruct (beam_advance src_sent st sel) as [st1 |] eqn:Hadv; simpl;
          [|discriminate].
        intros Hloop.
        assert (Hf : bs_t st1 = S (bs_t st) /\
                     hypotheses st1 = new_hypotheses sel /\
                     completed_hypotheses st1 = sel_completed sel).
        { unfold beam_advance in Hadv.
          destruct (mapM _ (live_hyp_ids sel)); simpl in Hadv;
            [|discriminate].
          injection Hadv as <-. simpl. auto. }
        destruct Hf as (Ht & Hh & Hc).
        apply end_later with (sel:=sel) (st':=st1); trivial.
        -- rewrite Hl. discriminate.
        -- now apply IH.
    + intros H. injection H as <-. now apply end_beam_full.
Qed.

(** C6.  [parse] returns, and its decoding ends in one of the ways of
    [run_ends]: at the step bound, with the beam full, or at a step that
    leaves no live hypothesis, whose completed hypotheses are kept.  If
    it ends with no completed hypothesis, [parse] returns the live
    hypotheses, each of them incomplete; else it returns the completed
    ones; in both cases in descending order of score. *)
Theorem parse_returns_sorted_live_or_completed resume st0 :
  ts_progress TS ->
  initial_state src_sent resume = Some st0 ->
  Forall (fun h => completed (tree h) = false) (hypotheses st0) ->
  exists st,
    parse_final args src_sent beam_size return_states resume = Some st /\
    parse args src_sent beam_size return_states resume
    = Some (parse_result return_states st) /\
    run_ends args src_sent beam_size return_states
             (decode_max_time_step args - bs_t st0) st0
             (hypotheses st) (completed_hypotheses st) /\
    let result := fst (parse_result return_states st) in
    score_descending result /\
    (completed_hypotheses st = [] ->
     Permutation result (hypotheses st) /\
     Forall (fun h => completed (tree h) = false) result) /\
    (completed_hypotheses st <> [] ->
     Permutation result (completed_hypotheses st) /\
     Forall (fun h => completed (tree h) = true) result).
Proof.
  intros Hprog Hinit Hlive0.
  pose proof (initial_state_ok _ Hinit Hlive0) as Hok.
  destruct (parse_loop_total args src_sent beam_size return_states Hprog
              (decode_max_time_step args - bs_t st0) Hok)
    as (st & Hloop & Hlive & Hdone).
  exists st. unfold parse, parse_final. rewrite Hinit. simpl.
  rewrite Hloop. simpl. split; trivial. split; trivial.
  split; [now apply parse_loop_ends|].
  split; [apply sorted_result_descending|].
  split.
  - intros Hnil. rewrite Hnil.
    assert (Hp : Permutation (sort_by (fun hyp => neg (score hyp))
                                      (hypotheses st)) (hypotheses st))
      by apply sort_by_perm.
    split; trivial.
    rewrite Forall_forall in *. intros h Hh. apply Hlive.
    now apply (Permutation_in _ Hp).
  - intros Hne.
    destruct (completed_hypotheses st) as [| h0 hs] eqn:Hc; [congruence|].
    assert (Hp : Permutation (sort_by (fun hyp => neg (score hyp))
                                      (h0 :: hs)) (h0 :: hs))
      by apply sort_by_perm.
    split; trivial.
    rewrite Forall_forall in *. intros h Hh. apply Hdone.
    now apply (Permutation_in _ Hp).
Qed.
End ParseResult.

(* ================================================================== *)
(** * Copying: the mass of the input tokens and the unknown slot *)
(* ================================================================== *)

Section CopyClaims.
Context {N : Numeric} {G : Grammar} {V : PrimVocab}
        {TS : TransitionSystem G} {SC : Scorer N TS}.
Variable args : Args.
Variable src_sent : list string.
Variable scores : StepScores DecState.

Lemma oov_entries_In e :
  In e (oov_entries src_sent) <->
  In (fst e) src_sent /\ vocab_lookup (fst e) = None /\
  snd e = occurrence_positions src_sent (fst e).
Proof.
  unfold oov_entries. rewrite filter_In. destruct e as [token positions].
  destruct (aggregated_spec src_sent) as [_ Hagg]. rewrite Hagg.
  unfold is_oov. simpl. destruct (vocab_lookup token); split; intros H.
  - destruct H; discriminate.
  - destruct H as (_ & ? & _). discriminate.
  - tauto.
  - tauto.
Qed.

Lemma records_unk_true :
  no_copy args = false ->
  (exists token, In token src_sent /\ vocab_lookup token = None) ->
  records_unk args src_sent = true.
Proof.
  intros Hc (token & Hin & Hv). unfold records_unk. rewrite Hc. simpl.
  assert (He : In (token, occurrence_positions src_sent token)
                  (oov_entries src_sent))
    by (apply oov_entries_In; simpl; auto).
  destruct (oov_entries src_sent); [contradiction | reflexivity].
Qed.

Lemma records_unk_false :
  no_copy args = true \/
  (forall token, In token src_sent -> vocab_lookup token <> None) ->
  records_unk args src_sent = false.
Proof.
  unfold records_unk. intros [-> | Hall]; [reflexivity|].
  destruct (oov_entries src_sent) as [| e l] eqn:He;
    [now rewrite andb_false_r|].
  assert (Hin : In e (oov_entries src_sent)) by (rewrite He; now left).
  apply oov_entries_In in Hin. destruct Hin as (Hin & Hv & _).
  now apply Hall in Hin.
Qed.

Lemma unk_copy_info_In h u :
  In u (unk_copy_info src_sent scores h) <->
  exists token,
    In token src_sent /\ vocab_lookup token = None /\
    u = mkUnkCopy token (occurrence_positions src_sent token)
                  (gated_copy_prob scores h
                                   (occurrence_positions src_sent token)).
Proof.
  unfold unk_copy_info. rewrite in_map_iff. split.
  - intros ([token positions] & <- & He). apply oov_entries_In in He.
    simpl in *. destruct He as (Hin & Hv & ->). eauto.
  - intros (token & Hin & Hv & ->).
    exists (token, occurrence_positions src_sent token). split; trivial.
    apply oov_entries_In. simpl. auto.
Qed.

Lemma unk_choice_spec {E : ExactArith N} h :
  oov_entries src_sent <> [] ->
  In (unk_choice src_sent scores h) (unk_copy_info src_sent scores h) /\
  forall u, In u (unk_copy_info src_sent scores h) ->
            leb (uc_copy_prob u)
                (uc_copy_prob (unk_choice src_sent scores h)) = true.
Proof.
  intros Hne. unfold unk_choice.
  set (info := unk_copy_info src_sent scores h).
  assert (Hinfo : map uc_copy_prob info <> []).
  { unfold info, unk_copy_info.
    destruct (oov_entries src_sent); [congruence | discriminate]. }
  destruct (argmax_spec Hinfo) as (m & Hm & Hmax).
  rewrite nth_error_map in Hm.
  destruct (nth_error info (argmax (map uc_copy_prob info))) as [u |] eqn:Hu;
    [|discriminate].
  simpl in Hm. injection Hm as <-.
  rewrite (nth_error_nth _ _ _ Hu). split.
  - eapply nth_error_In; eauto.
  - intros u' Hu'. apply Hmax. now apply in_map.
Qed.

Lemma gen_position_slot (n k slot : nat) :
  slot < vocab_size ->
  (n + (k * vocab_size + slot) <? n) = false /\
  (n + (k * vocab_size + slot) - n) mod vocab_size = slot /\
  (n + (k * vocab_size + slot) - n) / vocab_size = k.
Proof.
  intros Hs. split; [apply Nat.ltb_ge; lia|].
  replace (n + (k * vocab_size + slot) - n) with (slot + k * vocab_size)
    by lia.
  split.
  - rewrite Nat.Div0.mod_add. now apply Nat.mod_small.
  - rewrite Nat.div_add by lia. rewrite Nat.div_small by lia. reflexivity.
Qed.

(** C3.  With copy enabled and an input token outside the vocabulary, for
    every GenToken hypothesis of a step the unknown-copy candidate of the
    largest copy mass is put into the unknown slot of that hypothesis, and
    the action made from the unknown slot of that hypothesis carries the
    token of that candidate. *)
Theorem unknown_copy_candidate_recorded {E : ExactArith N}
        (hyps : list DecodeHypothesis) (k h : nat) :
  let c := collect args src_sent scores hyps in
  let u := unk_choice src_sent scores h in
  no_copy args = false ->
  (exists token, In token src_sent /\ vocab_lookup token = None) ->
  unk < vocab_size ->
  nth_error (gentoken_prev_hyp_ids c) k = Some h ->
  (In (uc_token u) src_sent /\ vocab_lookup (uc_token u) = None /\
   uc_copy_prob u =
   gated_copy_prob scores h (occurrence_positions src_sent (uc_token u))) /\
  (forall token, In token src_sent -> vocab_lookup token = None ->
     leb (gated_copy_prob scores h (occurrence_positions src_sent token))
         (uc_copy_prob u) = true) /\
  primitive_prob c h unk = uc_copy_prob u /\
  nth_error (gentoken_new_hyp_unks c) k = Some (uc_token u) /\
  make_action c (length (applyrule_new_hyp_scores c) + (k * vocab_size + unk))
  = Some (h, GenTokenAction (uc_token u)).
Proof.
  intros c u Hcopy Hoov Hunk Hk.
  pose proof (records_unk_true Hcopy Hoov) as Hrec.
  assert (Hne : oov_entries src_sent <> []).
  { unfold records_unk in Hrec. rewrite Hcopy in Hrec. simpl in Hrec.
    destruct (oov_entries src_sent); [discriminate | congruence]. }
  destruct (unk_choice_spec h Hne) as [Hin Hmax]. fold u in Hin, Hmax.
  destruct (collect_inv args src_sent scores hyps) as [_ _ Hunks Hslot].
  fold c in Hunks, Hslot. rewrite Hrec in Hunks. specialize (Hslot Hrec).
  assert (Htok : nth_error (gentoken_new_hyp_unks c) k = Some (uc_token u)).
  { rewrite Hunks, nth_error_map, Hk. reflexivity. }
  split; [|split; [|split; [|split]]]; trivial.
  - apply unk_copy_info_In in Hin. destruct Hin as (token & H1 & H2 & ->).
    simpl. auto.
  - intros token H1 H2.
    apply (Hmax (mkUnkCopy token (occurrence_positions src_sent token)
                           (gated_copy_prob scores h
                              (occurrence_positions src_sent token)))).
    apply unk_copy_info_In. eauto.
  - rewrite Forall_forall in Hslot. apply Hslot.
    eapply nth_error_In; eauto.
  - unfold make_action.
    destruct (gen_position_slot (length (applyrule_new_hyp_scores c)) k Hunk)
      as (-> & -> & ->).
    rewrite Hk, Nat.eqb_refl. simpl. rewrite Htok.
    destruct (gentoken_new_hyp_unks c); [|reflexivity].
    now rewrite nth_error_nil in Htok.
Qed.

(** C10.  When a step records no unknown-copy token (copy is disabled, or
    every input token is in the vocabulary), the action made from the
    unknown slot of a GenToken hypothesis carries the vocabulary's own
    unknown word. *)
Theorem unk_slot_falls_back_to_unk_word (hyps : list DecodeHypothesis)
        (k h : nat) :
  let c := collect args src_sent scores hyps in
  (no_copy args = true \/
   forall token, In token src_sent -> vocab_lookup token <> None) ->
  unk < vocab_size ->
  nth_error (gentoken_prev_hyp_ids c) k = Some h ->
  gentoken_new_hyp_unks c = [] /\
  make_action c (length (applyrule_new_hyp_scores c) + (k * vocab_size + unk))
  = Some (h, GenTokenAction unk_word).
Proof.
  intros c Hno Hunk Hk.
  destruct (collect_inv args src_sent scores hyps) as [_ _ Hunks _].
  fold c in Hunks. rewrite (records_unk_false Hno) in Hunks.
  split; trivial. unfold make_action.
  destruct (gen_position_slot (length (applyrule_new_hyp_scores c)) k Hunk)
    as (-> & -> & ->).
  now rewrite Hk, Nat.eqb_refl, Hunks.
Qed.
End CopyClaims.

Lemma enumerate_fst {A} (l : list A) : map fst (enumerate l) = seq 0 (length l).
Proof.
  unfold enumerate. generalize 0.
  induction l as [| x l IH]; intros n; simpl; [reflexivity|].
  now rewrite IH.
Qed.

Lemma enumerate_split {A} (l : list A) i x :
  nth_error l i = Some x ->
  exists l1 l2, enumerate l = l1 ++ (i, x) :: l2 /\
                (forall e, In e l1 -> fst e <> i) /\
                (forall e, In e l2 -> fst e <> i).
Proof.
  intros Hi. apply enumerate_In in Hi.
  destruct (in_split _ _ Hi) as (l1 & l2 & Heq).
  exists l1, l2. split; trivial.
  pose proof (seq_NoDup (length l) 0) as Hnd.
  rewrite <- enumerate_fst, Heq, map_app in Hnd. simpl in Hnd.
  apply NoDup_remove_2 in Hnd.
  split; intros e He Hfst; apply Hnd, in_or_app; [left | right];
    rewrite <- Hfst; now apply in_map.
Qed.

Section CopyRows.
Context {N : Numeric} {G : Grammar} {V : PrimVocab}
        {TS : TransitionSystem G} {SC : Scorer N TS}.
Variable args : Args.
Variable src_sent : list string.
Variable scores : StepScores DecState.

Lemma action_type_step_pp h hyp c ty :
  ty <> TGenToken ->
  primitive_prob (action_type_step args src_sent scores h hyp c ty) =
  primitive_prob c.
Proof.
  intros Hty. destruct ty; simpl; trivial; [|congruence].
  apply fold_left_invariant with
    (P := fun c' => primitive_prob c' = primitive_prob c); trivial.
Qed.

Lemma action_type_step_other_row h h' j hyp c ty :
  h' <> h ->
  primitive_prob (action_type_step args src_sent scores h hyp c ty) h' j =
  primitive_prob c h' j.
Proof.
  intros Hne. destruct ty.
  - now rewrite action_type_step_pp.
  - now rewrite action_type_step_pp.
  - simpl. now apply gentoken_branch_other_row.
Qed.

Lemma hyp_steps_other_row h j l :
  (forall e, In e l -> fst e <> h) ->
  forall c, primitive_prob (fold_left (hyp_step args src_sent scores) l c) h j
            = primitive_prob c h j.
Proof.
  intros Hl c.
  apply fold_left_invariant with
    (P := fun c' => primitive_prob c' h j = primitive_prob c h j); trivial.
  intros c' e He Hc'. unfold hyp_step.
  apply fold_left_invariant with
    (P := fun c'' => primitive_prob c'' h j = primitive_prob c h j); trivial.
  intros c'' ty _ Hc''. rewrite action_type_step_other_row; trivial.
  intros ->. now apply (Hl e).
Qed.

Lemma types_fold_pp h hyp l :
  ~ In TGenToken l ->
  forall c, primitive_prob
              (fold_left (action_type_step args src_sent scores h hyp) l c)
            = primitive_prob c.
Proof.
  intros Hl c.
  apply fold_left_invariant with
    (P := fun c' => primitive_prob c' = primitive_prob c); trivial.
  intros c' ty Hty Hc'. rewrite action_type_step_pp; trivial.
  intros ->. contradiction.
Qed.

(** The slot of an in-vocabulary input token after the step has walked
    over all hypotheses: the gated vocabulary probability plus the copy
    mass of the token. *)
Lemma collect_gentoken_slot hyps h hyp token positions i :
  no_copy args = false ->
  nth_error hyps h = Some hyp ->
  NoDup (get_valid_continuation_types (tree hyp)) ->
  In TGenToken (get_valid_continuation_types (tree hyp)) ->
  In (token, positions) (aggregated_primitive_tokens src_sent) ->
  vocab_lookup token = Some i ->
  (forall token', In token' src_sent -> vocab_lookup token' = Some i ->
                  token' = token) ->
  i <> unk \/ records_unk args src_sent = false ->
  primitive_prob (collect args src_sent scores hyps) h i =
  add (mul (primitive_predictor_prob scores h 0)
           (gen_from_vocab_prob scores h i))
      (gated_copy_prob scores h positions).
Proof.
  intros Hcopy Hh Hnd Hgen Hagg Hi Hinj Hunk. unfold collect.
  destruct (@enumerate_split _ hyps h hyp Hh) as (l1 & l2 & -> & H1 & H2).
  rewrite fold_left_app. simpl.
  rewrite (@hyp_steps_other_row h i l2 H2).
  set (c1 := fold_left (hyp_step args src_sent scores) l1 _).
  assert (Hc1 : primitive_prob c1 h i =
                mul (primitive_predictor_prob scores h 0)
                    (gen_from_vocab_prob scores h i)).
  { unfold c1. rewrite (@hyp_steps_other_row h i l1 H1). simpl.
    unfold initial_primitive_prob. now rewrite Hcopy. }
  unfold hyp_step. simpl.
  destruct (in_split _ _ Hgen) as (t1 & t2 & Hty). rewrite Hty in *.
  apply NoDup_remove_2 in Hnd.
  rewrite fold_left_app. simpl (fold_left _ (_ :: _) _).
  rewrite types_fold_pp by (intros H; apply Hnd, in_or_app; now right).
  set (c2 := fold_left _ t1 c1).
  assert (Hc2 : primitive_prob c2 = primitive_prob c1).
  { unfold c2. apply types_fold_pp. intros H. apply Hnd, in_or_app. now left. }
  simpl. rewrite gentoken_branch_eq. simpl. rewrite Hcopy, Hc2.
  assert (Hslot : fst (copy_aggregate src_sent scores h (primitive_prob c1)) h i
                  = add (primitive_prob c1 h i)
                        (gated_copy_prob scores h positions)).
  { unfold copy_aggregate.
    destruct (aggregated_spec src_sent) as [Hkeys Hspec].
    apply (copy_fold_slot scores h positions
             (aggregated_primitive_tokens src_sent)
             (primitive_prob c1, []) Hkeys Hagg Hi).
    intros [tok pos] He Hv. simpl in *. apply Hinj; trivial.
    now apply Hspec in He. }
  rewrite <- Hc1, <- Hslot.
  destruct Hunk as [Hne | ->]; [|reflexivity].
  destruct (records_unk args src_sent); [|reflexivity].
  unfold upd2. rewrite Nat.eqb_refl. simpl.
  destruct (Nat.eqb_spec i unk); [contradiction | reflexivity].
Qed.

(** C2.  With copy enabled the copy mass of an input token is the copy
    gate times the copy attention summed over all positions of the token;
    for a token of the vocabulary it is added to the gated vocabulary
    probability at the slot of the token, for any other token it makes an
    unknown-copy candidate under that token.  For the input [a a b] the
    mass of [a] is the gate times the attention at positions 0 and 1. *)
Theorem copy_mass_aggregation {E : ExactArith N} (hyp_id : nat)
        (token : string) (positions : list nat) :
  let mass := mul (primitive_predictor_prob scores hyp_id 1)
                  (tsum (map (primitive_copy_prob scores hyp_id) positions)) in
  let r := copy_aggregate src_sent scores hyp_id
                          (initial_primitive_prob args scores) in
  no_copy args = false ->
  In (token, positions) (aggregated_primitive_tokens src_sent) ->
  (In token src_sent /\ positions = occurrence_positions src_sent token /\
   forall p, In p positions <-> nth_error src_sent p = Some token) /\
  gated_copy_prob scores hyp_id positions = mass /\
  (forall i, vocab_lookup token = Some i ->
     (forall token', In token' src_sent -> vocab_lookup token' = Some i ->
                     token' = token) ->
     fst r hyp_id i =
     add (mul (primitive_predictor_prob scores hyp_id 0)
              (gen_from_vocab_prob scores hyp_id i)) mass /\
     forall hyps hyp,
       nth_error hyps hyp_id = Some hyp ->
       NoDup (get_valid_continuation_types (tree hyp)) ->
       In TGenToken (get_valid_continuation_types (tree hyp)) ->
       i <> unk \/ records_unk args src_sent = false ->
       primitive_prob (collect args src_sent scores hyps) hyp_id i =
       add (mul (primitive_predictor_prob scores hyp_id 0)
                (gen_from_vocab_prob scores hyp_id i)) mass) /\
  (vocab_lookup token = None ->
   In (mkUnkCopy token positions mass) (snd r)) /\
  (aggregated_primitive_tokens ["a"; "a"; "b"]%string
   = [("a", [0; 1]); ("b", [2])]%string /\
   gated_copy_prob scores hyp_id [0; 1] =
   mul (primitive_predictor_prob scores hyp_id 1)
       (add (primitive_copy_prob scores hyp_id 0)
            (primitive_copy_prob scores hyp_id 1))).
Proof.
  intros mass r Hcopy Hagg.
  destruct (aggregated_spec src_sent) as [Hkeys Hspec].
  pose proof (proj1 (Hspec _ _) Hagg) as [Hin Hpos].
  split; [|split; [reflexivity|split; [|split]]].
  - split; trivial. split; trivial. intros p. rewrite Hpos.
    apply occurrence_positions_In.
  - intros i Hi Hinj. split.
    + unfold r, copy_aggregate.
      rewrite (copy_fold_slot scores hyp_id positions
                 (aggregated_primitive_tokens src_sent)
                 (initial_primitive_prob args scores, []) Hkeys Hagg Hi).
      * simpl. unfold initial_primitive_prob. now rewrite Hcopy.
      * intros [tok pos] He Hv. simpl in *. apply Hinj; trivial.
        now apply Hspec in He.
    + intros hyps hyp Hh Hnd Hgen Hunk.
      now apply (@collect_gentoken_slot hyps hyp_id hyp token positions i).
  - intros Hv. unfold r. rewrite copy_aggregate_snd.
    apply unk_copy_info_In. exists token. rewrite <- Hpos. auto.
  - split; [reflexivity|].
    unfold gated_copy_prob, tsum. simpl. now rewrite add_zero_l.
Qed.
End CopyRows.

(* ================================================================== *)
(** * Teacher-forced scoring *)
(* ================================================================== *)

Section MaskFacts.
Context {N : Numeric} {E : ExactArith N}.

Lemma is_zero_zero : is_zero zero = true.
Proof. now apply is_zero_spec. Qed.

Lemma zero_le_one : leb zero one = true.
Proof. destruct (leb_total zero one); trivial. now rewrite one_pos in *. Qed.

Lemma positive_not_zero (x : num) : leb x zero = false -> is_zero x = false.
Proof.
  intros Hx. destruct (is_zero x) eqn:Hz; trivial.
  apply is_zero_spec in Hz. subst. now rewrite leb_refl in Hx.
Qed.

Lemma is_zero_one : is_zero one = false.
Proof. apply positive_not_zero, one_pos. Qed.

Lemma is_zero_two : is_zero (add one one) = false.
Proof. apply positive_not_zero, add_pos; [apply one_pos | apply zero_le_one]. Qed.

(** Summing the entries a 0/1 mask keeps. *)
Lemma masked_sum (a m : nat -> num) (l : list nat) :
  (forall pos, In pos l -> m pos = zero \/ m pos = one) ->
  tsum (map (fun pos => mul (a pos) (m pos)) l) =
  tsum (map a (filter (fun pos => negb (is_zero (m pos))) l)).
Proof.
  unfold tsum. intros Hm. generalize zero as acc. revert Hm.
  induction l as [| x l IH]; intros Hm acc; simpl; trivial.
  destruct (Hm x (or_introl eq_refl)) as [Hx | Hx]; rewrite Hx.
  - rewrite is_zero_zero, mul_zero_r, add_zero_r. simpl.
    apply IH. intros; apply Hm; now right.
  - rewrite is_zero_one, mul_one_r. simpl.
    apply IH. intros; apply Hm; now right.
Qed.
End MaskFacts.

Lemma gen_scores_nth {N : Numeric} {V : PrimVocab} (hyp_scores : list num)
      (c : Cands) (k h i : nat) :
  nth_error (gentoken_prev_hyp_ids c) k = Some h ->
  i < vocab_size ->
  nth_error (gen_token_new_hyp_scores hyp_scores c) (k * vocab_size + i) =
  Some (add (nth h hyp_scores zero) (log (primitive_prob c h i))).
Proof.
  unfold gen_token_new_hyp_scores. intros Hk Hi. revert k Hk.
  induction (gentoken_prev_hyp_ids c) as [| h0 ids IH]; intros k Hk.
  - destruct k; discriminate.
  - simpl. destruct k as [| k]; simpl in *.
    + injection Hk as ->.
      rewrite nth_error_app1 by (now rewrite length_map, length_seq).
      rewrite nth_error_map.
      rewrite (nth_error_nth' (seq 0 vocab_size) 0)
        by (now rewrite length_seq).
      now rewrite seq_nth.
    + rewrite nth_error_app2 by (rewrite length_map, length_seq; lia).
      rewrite length_map, length_seq.
      replace (vocab_size + k * vocab_size + i - vocab_size)
        with (k * vocab_size + i) by lia.
      now apply IH.
Qed.

Section ScoreClaims.
Context {N : Numeric} {E : ExactArith N}.
Variable args : Args.
Variable label_smoothing : option Tensor2.
Variable batch : Batch.
Variable probs : ScoreProbs.

Lemma mask_on_zero : mask_on zero = false.
Proof. unfold mask_on. now rewrite is_zero_zero. Qed.

Lemma mask_on_one : mask_on one = true.
Proof. unfold mask_on. now rewrite is_zero_one. Qed.

(** With a 0/1 mask of the source positions, the masked sum of the code
    is the copy attention summed over the positions of the gold token. *)
Lemma tgt_copy_is_gold_mass (t b : nat) :
  (forall pos, primitive_copy_token_idx_mask batch t b pos = zero \/
               primitive_copy_token_idx_mask batch t b pos = one) ->
  tgt_primitive_copy_prob batch probs t b = gold_copy_mass batch probs t b.
Proof.
  intros Hm. unfold tgt_primitive_copy_prob, gold_copy_mass.
  apply (masked_sum (sp_primitive_copy_prob probs t b)
                    (primitive_copy_token_idx_mask batch t b)).
  intros pos _. apply Hm.
Qed.

(** The term [score] adds for a step is the term the masks select. *)
Lemma action_prob_gold (t b : nat) :
  masks_ok batch t b ->
  action_prob args label_smoothing batch probs t b =
  gold_action_log_prob args label_smoothing batch probs t b.
Proof.
  intros [Hmasks Hidx].
  unfold action_prob, gold_action_log_prob.
  destruct (no_copy args).
  - unfold tgt_primitive_gen_from_vocab_log_prob, tgt_apply_rule_prob,
      tgt_primitive_gen_from_vocab_prob, gold_rule_prob, gold_token_prob.
    destruct Hmasks as [(-> & -> & _) | (-> & Hg & _)].
    + rewrite mask_on_one, mul_one_r, mul_zero_r, add_zero_r. reflexivity.
    + rewrite mask_on_zero, mul_zero_r, add_zero_l.
      destruct Hg as [-> | ->].
      * now rewrite mask_on_zero, mul_zero_r.
      * rewrite mask_on_one, mul_one_r. now destruct label_smoothing.
  - unfold filled_action_prob, action_mask, action_mask_pad,
      mixed_action_prob.
    rewrite (tgt_copy_is_gold_mass t b Hidx).
    unfold tgt_apply_rule_prob, tgt_primitive_gen_from_vocab_prob,
      gold_rule_prob, gold_token_prob.
    destruct Hmasks as [(-> & -> & ->) | (-> & Hg & Hc)].
    + rewrite mask_on_one.
      now rewrite !add_zero_r, is_zero_one, !mul_zero_r, !mul_one_r,
        !add_zero_r.
    + rewrite mask_on_zero.
      destruct Hg as [-> | ->]; destruct Hc as [-> | ->];
        rewrite ?mask_on_zero, ?mask_on_one, ?add_zero_l, ?add_zero_r,
          ?is_zero_zero, ?is_zero_one, ?is_zero_two, ?mul_zero_r,
          ?mul_one_r, ?add_zero_l, ?add_zero_r; reflexivity.
Qed.

(** C9, as the code has it.  With masks that name one kind of action per
    step and an arithmetic without special values, the score of an
    example is the sum over the steps of [gold_action_log_prob]: the
    logarithm of the probability of the gold ApplyRule or Reduce; with
    copy enabled, of the gated vocabulary probability of the gold token,
    of the gated copy attention summed over the source positions that
    hold the gold token, or of their sum when the token is both; nothing
    for a padded step.  With copy disabled there is no gate: the term of a
    token is the logarithm of its vocabulary probability, or the negated
    smoothing loss in training with label smoothing.  [score] takes no
    [topk]. *)
Theorem score_sums_gold_action_log_probs (b : nat) :
  b < batch_len batch ->
  (forall t, t < tgt_action_len batch -> masks_ok batch t b) ->
  nth_error (score_batch args label_smoothing batch probs) b =
  Some (tsum (map (fun t => gold_action_log_prob args label_smoothing
                                                 batch probs t b)
                  (seq 0 (tgt_action_len batch)))).
Proof.
  intros Hb Hmasks. unfold score_batch. rewrite nth_error_map.
  rewrite (nth_error_nth' (seq 0 (batch_len batch)) 0)
    by (now rewrite length_seq).
  rewrite seq_nth by trivial. simpl. unfold score_example. do 2 f_equal.
  apply map_ext_in. intros t Ht. apply in_seq in Ht.
  apply action_prob_gold, Hmasks. lia.
Qed.
End ScoreClaims.


(* ================================================================== *)
(** * Runs on the small grammar *)
(* ================================================================== *)

Lemma toy_progress : ts_progress Toy.toy_ts.
Proof.
  intros d. simpl. unfold Toy.toy_completed, Toy.toy_types, Toy.toy_productions.
  destruct d as [| a0 d0]; simpl.
  - intros _. right. right. split; [now left | discriminate].
  - destruct (rev d0 ++ [a0]) as [| a l] eqn:Hr.
    + destruct (rev d0); discriminate.
    + destruct a as [p | | tok].
      * destruct (Nat.eqb p 1); [discriminate|]. intros _. right. left.
        now left.
      * discriminate.
      * intros _. left. right. now left.
Qed.

Lemma toy_grammar_ids_ok
      (hyps : list (DecodeHypothesis (N:=Fix.fixnum) (TS:=Toy.toy_ts))) :
  grammar_ids_ok hyps.
Proof.
  intros hyp p _. simpl. unfold Toy.toy_productions.
  destruct (tree hyp); simpl; [|contradiction].
  intros [<- | [<- | []]]; split; trivial; lia.
Qed.

#[local] Existing Instance Toy.toy_grammar.
#[local] Existing Instance Toy.toy_vocab.
#[local] Existing Instance Toy.toy_ts.


(** The token [a] of [utterance]: mass 0.5 * (0.1 + 0.2), slot value
    0.5 * 0.5 + 0.15. *)
Lemma copy_mass_aggregation_witness :
  In ("a"%string, [0; 1]) (aggregated_primitive_tokens Toy.utterance) /\
  gated_copy_prob Toy.open_table 0 [0; 1]
  = Fix.milli 150 /\
  fst (copy_aggregate Toy.utterance Toy.open_table 0
         (initial_primitive_prob Toy.copy_args
                                 Toy.open_table)) 0 1
  = Fix.milli 400.
Proof.
  assert (Hin : In ("a"%string, [0; 1])
                   (aggregated_primitive_tokens Toy.utterance))
    by (left; reflexivity).
  split; [exact Hin|].
  pose proof (copy_mass_aggregation
                (SC:=Toy.fix_scorer (Fix.milli (-600)))
                Toy.copy_args Toy.utterance
                Toy.open_table (E:=fix_exact)
                0 "a" [0; 1] eq_refl Hin) as Hc.
  cbv zeta in Hc. destruct Hc as (_ & Hmass & Hslot & _).
  split; [rewrite Hmass; reflexivity|].
  destruct (Hslot 1 eq_refl) as [Hs _].
  - intros token' Hin' Hv.
    destruct Hin' as [<- | [<- | [<- | [<- | []]]]];
      try reflexivity; discriminate.
  - rewrite Hs. reflexivity.
Defined.

(** Of the unknown tokens [z] (mass 0.15) and [y] (mass 0.2) of
    [utterance], [y] takes the unknown slot. *)
Lemma unknown_copy_candidate_recorded_witness :
  primitive_prob (collect Toy.copy_args Toy.utterance
                          Toy.open_table
                          [Toy.open_hyp]) 0 unk
  = Fix.milli 200 /\
  make_action (collect Toy.copy_args Toy.utterance
                       Toy.open_table [Toy.open_hyp])
              (1 + (0 * vocab_size + unk))
  = Some (0, GenTokenAction "y").
Proof.
  assert (Hoov : exists token, In token Toy.utterance /\
                               vocab_lookup token = None).
  { exists "z"%string. split; [right; right; left|]; reflexivity. }
  pose proof (unknown_copy_candidate_recorded
                (SC:=Toy.fix_scorer (Fix.milli (-600)))
                Toy.copy_args Toy.utterance
                Toy.open_table (E:=fix_exact)
                [Toy.open_hyp] 0 (h:=0) eq_refl Hoov) as Hc.
  cbv zeta in Hc.
  destruct Hc as (_ & _ & Hslot & _ & Hact);
    [simpl; lia | reflexivity |].
  split.
  - rewrite Hslot. reflexivity.
  - exact Hact.
Defined.

(** The same step with copy disabled. *)
Lemma unk_slot_falls_back_to_unk_word_witness :
  gentoken_new_hyp_unks
    (collect (mkArgs true 10) Toy.utterance
             Toy.open_table [Toy.open_hyp]) = [] /\
  make_action (collect (mkArgs true 10) Toy.utterance
                       Toy.open_table [Toy.open_hyp])
              (1 + (0 * vocab_size + unk))
  = Some (0, GenTokenAction "<unk>").
Proof.
  pose proof (unk_slot_falls_back_to_unk_word
                (SC:=Toy.fix_scorer (Fix.milli (-600)))
                (mkArgs true 10) Toy.utterance
                Toy.open_table [Toy.open_hyp] 0 (h:=0)) as Hc.
  cbv zeta in Hc. destruct Hc as [Hunks Hact].
  - left. reflexivity.
  - simpl. lia.
  - reflexivity.
  - split; [exact Hunks | exact Hact].
Defined.

(** The first step of a decoding with beam size 2. *)
Lemma applied_actions_are_legal_witness :
  exists sel,
    beam_select (TK:=topk_first Fix.fixnum) Toy.copy_args Toy.utterance 2
                false (Toy.fresh_state (Fix.milli (-600))) = Some sel /\
    map tree (new_hypotheses sel) = [[ApplyRuleAction 0]] /\
    Forall (derived_legally (hypotheses (Toy.fresh_state (Fix.milli (-600)))))
           (new_hypotheses sel).
Proof.
  eexists. split; [reflexivity|]. split; [reflexivity|].
  apply (applied_actions_are_legal
           (TK:=topk_first Fix.fixnum) Toy.copy_args Toy.utterance 2 false
           (Toy.fresh_state (Fix.milli (-600)))).
  - apply toy_grammar_ids_ok.
  - reflexivity.
Defined.

(** The first step of a decoding with beam size 2: one live and one
    completed hypothesis. *)
Lemma beam_size_invariant_witness :
  exists sel,
    beam_select (TK:=topk_first Fix.fixnum) Toy.copy_args Toy.utterance 2
                false (Toy.fresh_state (Fix.milli (-600))) = Some sel /\
    length (new_hypotheses sel) + length (sel_completed sel) <= 2 /\
    1 <= length (new_hypotheses sel) + length (sel_completed sel).
Proof.
  assert (H : {sel | beam_select (TK:=topk_first Fix.fixnum) Toy.copy_args
                       Toy.utterance 2 false
                       (Toy.fresh_state (Fix.milli (-600))) = Some sel})
    by (eexists; reflexivity).
  destruct H as [sel Hsel]. exists sel. split; [exact Hsel|].
  destruct (beam_size_invariant
              (TK:=topk_first Fix.fixnum) Toy.copy_args Toy.utterance
              (beam_size:=2) false (TKS:=topk_first_spec fix_exact)
              (Toy.fresh_state (Fix.milli (-600))) (sel:=sel))
    as (Hle & _ & Hge & _).
  - simpl. lia.
  - exact Hsel.
  - split; [exact Hle | apply Hge; simpl; lia].
Defined.

(** Two decodings.  Beam size 1 and a bound of two steps: no hypothesis
    completes and the live one is returned.  Beam size 2: [ApplyRule 1]
    completes at the first step and [Reduce] at the third, which leaves no
    live hypothesis; the two completed hypotheses are returned, the higher
    score first. *)
Lemma parse_returns_sorted_live_or_completed_witness :
  (exists st,
     parse_final (SC:=Toy.fix_scorer (Fix.milli (-500)))
                 (TK:=topk_first Fix.fixnum) (mkArgs false 2) Toy.utterance 1
                 false None = Some st /\
     completed_hypotheses st = [] /\
     parse (SC:=Toy.fix_scorer (Fix.milli (-500)))
           (TK:=topk_first Fix.fixnum) (mkArgs false 2) Toy.utterance 1
           false None
     = Some ([mkHyp (N:=Fix.fixnum) [ApplyRuleAction 0; GenTokenAction "a"]
                    (-10162907)%Z], []) /\
     Forall (fun h => completed (tree h) = false)
            (fst (parse_result false st))) /\
  (exists st,
     parse_final (SC:=Toy.fix_scorer (Fix.milli (-600)))
                 (TK:=topk_first Fix.fixnum) Toy.copy_args Toy.utterance 2
                 false None = Some st /\
     completed_hypotheses st <> [] /\
     parse (SC:=Toy.fix_scorer (Fix.milli (-600)))
           (TK:=topk_first Fix.fixnum) Toy.copy_args Toy.utterance 2
           false None
     = Some ([mkHyp (N:=Fix.fixnum) [ApplyRuleAction 1] (Fix.milli (-900));
              mkHyp (N:=Fix.fixnum)
                    [ApplyRuleAction 0; GenTokenAction "a"; ReduceAction]
                    (-16162907)%Z], []) /\
     Forall (fun h => completed (tree h) = true)
            (fst (parse_result false st))).
Proof.
  split.
  - destruct (parse_returns_sorted_live_or_completed
                (SC:=Toy.fix_scorer (Fix.milli (-500)))
                (TK:=topk_first Fix.fixnum) (E:=fix_exact)
                (TKS:=topk_first_spec fix_exact)
                (mkArgs false 2) Toy.utterance 1 false None
                (st0:=Toy.fresh_state (Fix.milli (-500))))
      as (st & Hfinal & _ & _ & _ & Hlive & _).
    + apply toy_progress.
    + reflexivity.
    + repeat constructor.
    + exists st. split; [exact Hfinal|].
      assert (Hsome : Some st =
                Some (mkBeam (SC:=Toy.fix_scorer (Fix.milli (-500)))
                        2 [mkHyp (N:=Fix.fixnum)
                                 [ApplyRuleAction 0; GenTokenAction "a"]
                                 (-10162907)%Z]
                        [[0; 1]] [1] [(-10162907)%Z] [] []))
        by (rewrite <- Hfinal; reflexivity).
      injection Hsome as Hst.
      assert (Hnil : completed_hypotheses st = []) by (now rewrite Hst).
      split; [exact Hnil|]. split; [reflexivity|].
      now apply Hlive.
  - destruct (parse_returns_sorted_live_or_completed
                (SC:=Toy.fix_scorer (Fix.milli (-600)))
                (TK:=topk_first Fix.fixnum) (E:=fix_exact)
                (TKS:=topk_first_spec fix_exact)
                Toy.copy_args Toy.utterance 2 false None
                (st0:=Toy.fresh_state (Fix.milli (-600))))
      as (st & Hfinal & _ & _ & _ & _ & Hdone).
    + apply toy_progress.
    + reflexivity.
    + repeat constructor.
    + exists st. split; [exact Hfinal|].
      assert (Hsome : Some st =
                Some (mkBeam (SC:=Toy.fix_scorer (Fix.milli (-600)))
                        2 [mkHyp (N:=Fix.fixnum)
                                 [ApplyRuleAction 0; GenTokenAction "a"]
                                 (-10162907)%Z]
                        [[0; 1]] [1] [(-10162907)%Z]
                        [mkHyp (N:=Fix.fixnum) [ApplyRuleAction 1]
                               (Fix.milli (-900));
                         mkHyp (N:=Fix.fixnum)
                               [ApplyRuleAction 0; GenTokenAction "a";
                                ReduceAction] (-16162907)%Z] []))
        by (rewrite <- Hfinal; reflexivity).
      injection Hsome as Hst.
      assert (Hne : completed_hypotheses st <> [])
        by (rewrite Hst; discriminate).
      split; [exact Hne|]. split; [reflexivity|].
      now apply Hdone.
Defined.


(** [fix_batch]: the logarithm of 0.5, of 0.5 * 0.4 + 0.5 * (0.2 + 0.3),
    and a padded step. *)
Lemma score_sums_gold_action_log_probs_witness :
  nth_error (score_batch Toy.copy_args None Toy.fix_batch Toy.fix_probs) 0
  = Some (-14916549)%Z /\
  map (fun t => gold_action_log_prob Toy.copy_args None Toy.fix_batch
                                     Toy.fix_probs t 0) [0; 1; 2]
  = [(-6931472)%Z; (-7985077)%Z; 0%Z].
Proof.
  split; [|reflexivity].
  rewrite (@score_sums_gold_action_log_probs
             Fix.fixnum fix_exact Toy.copy_args None Toy.fix_batch
             Toy.fix_probs 0); [reflexivity | simpl; lia |].
  intros t Ht. simpl in Ht.
  assert (Hpos : forall pos,
             primitive_copy_token_idx_mask Toy.fix_batch t 0 pos = 0%Z \/
             primitive_copy_token_idx_mask Toy.fix_batch t 0 pos = Fix.scale).
  { intros pos. destruct t as [| [| t]]; simpl; auto.
    destruct pos as [| [| [| pos]]]; simpl; auto. destruct pos; auto. }
  split; [|exact Hpos].
  destruct t as [| [| [| t]]]; simpl; [auto | auto 6 | auto 6 | lia].
Defined.

(** C9 as stated fails.  With copy disabled there is no gate: at the
    token step of [fix_batch] the term of [score] is the logarithm of the
    vocabulary probability 0.4 of the gold token, not of the gated
    probability 0.5 * 0.4.  And over numbers with the special values of
    floating point the mask does not select the term: at the token step of
    [ext_batch], where the probability at the masked-out ApplyRule index
    is zero, the score is not a number although the logarithm of the
    probability of the gold token is finite. *)
Lemma score_term_is_not_the_gated_log_probability :
  action_prob (mkArgs true 10) None Toy.fix_batch Toy.fix_probs 1 0
  = (-9162907)%Z /\
  log (mul (sp_primitive_predictor Toy.fix_probs 1 0 0)
           (gold_token_prob Toy.fix_batch Toy.fix_probs 1 0))
  = (-16094379)%Z /\
  (-9162907)%Z <> (-16094379)%Z /\
  score_batch (mkArgs true 10) None Toy.ext_batch Toy.ext_probs
  = [Ext.XNaN] /\
  apply_rule_mask Toy.ext_batch 0 0 = Ext.XFin 0 /\
  gen_token_mask Toy.ext_batch 0 0 = Ext.XFin Fix.scale /\
  log (gold_token_prob Toy.ext_batch Toy.ext_probs 0 0)
  = Ext.XFin (-6931472)%Z.
Proof. repeat split; try reflexivity. discriminate. Qed.


(** C4 fails on the code.  Decoding [utterance] straight through gives
    the completed hypothesis the score -1.5162907; after its first step
    the beam holds [partial_hyp] with the state history [partial_states];
    resuming from that hypothesis and that history gives the same
    derivation the score -1.4162907: the first candidates of the resumed
    run are scored from 0 instead of the score -0.1 of the hypothesis. *)
Theorem resumed_gentoken_scores_drop_hyp_score :
  parse (SC:=Toy.fix_scorer (Fix.milli (-500))) (TK:=topk_first Fix.fixnum)
        Toy.copy_args Toy.utterance 1 true None
  = Some ([mkHyp (N:=Fix.fixnum) [ApplyRuleAction 0; GenTokenAction "a"; ReduceAction]
                 (-15162907)%Z], [[0; 1; 2]]) /\
  parse_loop (SC:=Toy.fix_scorer (Fix.milli (-500)))
             (TK:=topk_first Fix.fixnum)
             Toy.copy_args Toy.utterance 1 true 1
             (Toy.fresh_state (Fix.milli (-500)))
  = Some (mkBeam (SC:=Toy.fix_scorer (Fix.milli (-500)))
                 1 [Toy.partial_hyp] [Toy.partial_states] [0]
                 [Fix.milli (-100)] [] []) /\
  parse (SC:=Toy.fix_scorer (Fix.milli (-500))) (TK:=topk_first Fix.fixnum)
        Toy.copy_args Toy.utterance 1 true
        (Some (Toy.partial_hyp, Toy.partial_states))
  = Some ([mkHyp (N:=Fix.fixnum) [ApplyRuleAction 0; GenTokenAction "a"; ReduceAction]
                 (-14162907)%Z], [[0; 1; 2]]) /\
  option_map
    (fun st => new_hyp_scores (hyp_scores st)
                 (step_cands Toy.copy_args Toy.utterance st))
    (initial_state (SC:=Toy.fix_scorer (Fix.milli (-500))) Toy.utterance
                   (Some (Toy.partial_hyp, Toy.partial_states)))
  = Some (Some [(-16094379)%Z; (-9162907)%Z; (-18971200)%Z]).
Proof. repeat split; reflexivity. Qed.

(* ================================================================== *)
(** * More of [parse]: the dictionary of the input tokens *)
(* ================================================================== *)

Lemma agg_lookup_In d token v :
  NoDup (map fst d) ->
  agg_lookup d token = Some v <-> In (token, v) d.
Proof.
  induction d as [| [k w] d IH]; simpl; intros Hnd.
  - split; [discriminate | contradiction].
  - inversion Hnd as [| ? ? Hnot Hnd']; subst.
    destruct (String.eqb_spec k token) as [-> | Hne].
    + split.
      * intros H. injection H as <-. now left.
      * intros [H | H]; [now injection H as <- |].
        exfalso. apply Hnot. now apply (in_map fst) in H.
    + rewrite (IH Hnd'). split; [now right|].
      intros [H | H]; [injection H as <- <-; congruence | exact H].
Qed.

Lemma agg_lookup_None d token :
  agg_lookup d token = None <-> ~ In token (map fst d).
Proof.
  induction d as [| [k w] d IH]; simpl.
  - tauto.
  - destruct (String.eqb_spec k token) as [-> | Hne].
    + split; [discriminate | intros H; exfalso; apply H; now left].
    + rewrite IH. tauto.
Qed.

Lemma occurrences_bound n (l : list string) token p :
  In p (occurrences (combine (seq n (length l)) l) token) -> n <= p.
Proof.
  unfold occurrences. intros Hp.
  apply in_map_iff in Hp. destruct Hp as ([q y] & <- & Hq).
  apply filter_In in Hq. destruct Hq as [Hq _].
  apply in_combine_l in Hq. apply in_seq in Hq. simpl. lia.
Qed.

Lemma occurrences_sorted (l : list string) token :
  forall n, StronglySorted lt
              (occurrences (combine (seq n (length l)) l) token).
Proof.
  induction l as [| x l IH]; intros n; [constructor|].
  unfold occurrences. simpl.
  destruct (String.eqb x token); simpl; [|apply IH].
  constructor; [apply IH|].
  apply Forall_forall. intros p Hp.
  apply occurrences_bound in Hp. lia.
Qed.

Lemma agg_lookup_present (src_sent : list string) (token : string) :
  In token src_sent ->
  agg_lookup (aggregated_primitive_tokens src_sent) token
  = Some (occurrence_positions src_sent token).
Proof.
  destruct (aggregated_spec src_sent) as [Hnd Hspec]. intros Hin.
  apply (@agg_lookup_In _ token _ Hnd). apply Hspec. auto.
Qed.

Lemma agg_lookup_absent (src_sent : list string) (token : string) :
  ~ In token src_sent ->
  agg_lookup (aggregated_primitive_tokens src_sent) token = None.
Proof.
  destruct (aggregated_spec src_sent) as [Hnd Hspec]. intros Hn.
  apply agg_lookup_None.
  intros Hk. apply in_map_iff in Hk. destruct Hk as ([k v] & <- & Hk).
  apply Hspec in Hk. now apply Hn.
Qed.

(** X1.  Looking a token up in the dictionary built from the input gives
    all the positions of the token, in ascending order, when the token
    occurs in the input, and nothing when it does not. *)
Theorem aggregated_lookup (src_sent : list string) (token : string) :
  (In token src_sent ->
   agg_lookup (aggregated_primitive_tokens src_sent) token
   = Some (occurrence_positions src_sent token) /\
   (forall p, In p (occurrence_positions src_sent token) <->
              nth_error src_sent p = Some token) /\
   StronglySorted lt (occurrence_positions src_sent token)) /\
  (~ In token src_sent ->
   agg_lookup (aggregated_primitive_tokens src_sent) token = None).
Proof.
  split.
  - intros Hin. split; [now apply agg_lookup_present|]. split.
    + intros p. apply occurrence_positions_In.
    + apply occurrences_sorted.
  - apply agg_lookup_absent.
Qed.

(** X2.  The action information of a selected candidate: its step is the
    step of the search; the parent links are set from the extended
    hypothesis except at step 0; a GenToken whose token occurs in the input
    is marked as copied, with all positions of the token, whichever slot
    it came from, and no other action is. *)
Theorem action_info_metadata {N : Numeric} {G : Grammar} {V : PrimVocab}
        {TS : TransitionSystem G} (src_sent : list string) (t : nat)
        (hyps : list DecodeHypothesis) (c : Cands) (pos pid : nat)
        (prev : DecodeHypothesis) (ai : ActionInfo) :
  make_action_info src_sent t hyps c pos = Some (pid, prev, ai) ->
  nth_error hyps pid = Some prev /\
  ai_t ai = t /\
  (t = 0 -> parent_t ai = None /\ frontier_prod ai = None /\
            frontier_field ai = None) /\
  (0 < t ->
   parent_t ai = Some (frontier_created_time (tree prev)) /\
   frontier_prod ai = Some (frontier_node_production (tree prev)) /\
   frontier_field ai = Some (frontier_field_field (tree prev))) /\
  (forall tok, action ai = GenTokenAction tok ->
     (In tok src_sent ->
      copy_from_src ai = true /\
      src_token_position ai = Some (occurrence_positions src_sent tok)) /\
     (~ In tok src_sent ->
      copy_from_src ai = false /\ src_token_position ai = None)) /\
  ((forall tok, action ai <> GenTokenAction tok) ->
   copy_from_src ai = false /\ src_token_position ai = None).
Proof.
  unfold make_action_info.
  destruct (make_action c pos) as [[h a] |]; simpl; [|discriminate].
  destruct (nth_error hyps h) as [hyp |] eqn:Hh; simpl; [|discriminate].
  intros H. injection H as <- <- <-. simpl.
  split; trivial. split; trivial. split; [|split; [|split]].
  - intros ->. auto.
  - intros Ht. apply Nat.ltb_lt in Ht. rewrite Ht. auto.
  - intros tok ->. split; intros Hin.
    + now rewrite (agg_lookup_present _ _ Hin).
    + now rewrite (agg_lookup_absent _ _ Hin).
  - intros Hno. destruct a as [p | | tok]; auto.
    now destruct (Hno tok).
Qed.

(* ================================================================== *)
(** * More of [parse]: what a step and a run keep *)
(* ================================================================== *)

Lemma combine_vals {A} (values : list A) (vals : list A) (poss : list nat) s p :
  map (nth_error values) poss = map Some vals ->
  In (s, p) (combine vals poss) ->
  nth_error values p = Some s.
Proof.
  revert poss. induction vals as [| v vals IH]; intros [| q poss] Hmap Hin;
    simpl in *; try contradiction.
  injection Hmap as Hq Hrest. destruct Hin as [Hin | Hin].
  - now injection Hin as <- <-.
  - now apply (IH poss).
Qed.

Section RunFacts.
Context {N : Numeric} {G : Grammar} {V : PrimVocab}
        {TS : TransitionSystem G} {SC : Scorer N TS} {TK : TopK N}.
Variable args : Args.
Variable src_sent : list string.
Variable beam_size : nat.
Variable return_states : bool.

(** A property of the selection that every pass of the loop over the
    selected candidates keeps holds of the selection of the step. *)
Lemma beam_select_fold_inv (P : Selected -> Prop) st sel :
  beam_select args src_sent beam_size return_states st = Some sel ->
  P (mkSelected [] [] (completed_hypotheses st) (saved_states st)) ->
  (forall new_scores a e a',
     new_hyp_scores (hyp_scores st) (step_cands args src_sent st)
     = Some new_scores ->
     In e (combine (fst (topk new_scores (step_k beam_size st new_scores)))
                   (snd (topk new_scores (step_k beam_size st new_scores)))) ->
     P a ->
     select_one src_sent return_states st (step_cands args src_sent st) a e
     = Some a' ->
     P a') ->
  P sel.
Proof.
  unfold beam_select.
  destruct (new_hyp_scores _ _) as [new_scores |] eqn:Hsc; simpl;
    [|discriminate].
  unfold select_step. intros Hfold H0 Hstep.
  eapply fold_obind_inv; [exact H0 | | exact Hfold].
  intros a e a' He Ha H1. eapply Hstep; eauto.
Qed.

(** A property of the loop variables that both ways out of a step keep
    holds when the loop ends. *)
Lemma parse_loop_invariant (I : BeamState -> Prop) :
  (forall st sel,
     I st -> length (completed_hypotheses st) < beam_size ->
     beam_select args src_sent beam_size return_states st = Some sel ->
     live_hyp_ids sel = [] -> I (beam_break st sel)) ->
  (forall st sel st',
     I st -> length (completed_hypotheses st) < beam_size ->
     beam_select args src_sent beam_size return_states st = Some sel ->
     live_hyp_ids sel <> [] ->
     beam_advance src_sent st sel = Some st' -> I st') ->
  forall fuel st st',
    I st ->
    parse_loop args src_sent beam_size return_states fuel st = Some st' ->
    I st'.
Proof.
  intros Hbreak Hadv. induction fuel as [| fuel IH]; intros st st' Hst; simpl.
  - intros H. now injection H as <-.
  - destruct (Nat.ltb_spec (length (completed_hypotheses st)) beam_size)
      as [Hlt | Hge]; [|intros H; now injection H as <-].
    destruct (beam_select args src_sent beam_size return_states st)
      as [sel |] eqn:Hsel; simpl; [|discriminate].
    destruct (live_hyp_ids sel) as [| i l] eqn:Hl.
    + intros H. injection H as <-. now apply Hbreak.
    + destruct (beam_advance src_sent st sel) as [st1 |] eqn:Ha; simpl;
        [|discriminate].
      apply IH. eapply Hadv; eauto. rewrite Hl. discriminate.
Qed.

Lemma beam_advance_fields st sel st' :
  beam_advance src_sent st sel = Some st' ->
  bs_t st' = S (bs_t st) /\
  hypotheses st' = new_hypotheses sel /\
  h_tm1 st' = map (new_state (step_scores src_sent st)) (live_hyp_ids sel) /\
  hyp_scores st' = map score (new_hypotheses sel) /\
  completed_hypotheses st' = sel_completed sel /\
  saved_states st' = sel_saved sel /\
  mapM (fun i => obind (nth_error (hyp_states st) i)
                   (fun s => Some (s ++ [new_state (step_scores src_sent st) i])))
       (live_hyp_ids sel) = Some (hyp_states st').
Proof.
  unfold beam_advance.
  destruct (mapM _ (live_hyp_ids sel)) as [hs |]; simpl; [|discriminate].
  intros H. injection H as <-. simpl. repeat split; reflexivity.
Qed.

(** The counts of a selection (the count behind the bound on the beam). *)
Lemma beam_select_counts {TKS : TopKSpec TK} st sel :
  beam_select args src_sent beam_size return_states st = Some sel ->
  length (new_hypotheses sel) + length (sel_completed sel) <=
  length (completed_hypotheses st) +
  (beam_size - length (completed_hypotheses st)) /\
  length (live_hyp_ids sel) = length (new_hypotheses sel).
Proof.
  unfold beam_select.
  destruct (new_hyp_scores _ _) as [new_scores |] eqn:Hsc; simpl;
    [|discriminate].
  intros Hsel. apply select_fold_length in Hsel. simpl in Hsel.
  destruct Hsel as [Hsum Hlive]. specialize (Hlive eq_refl).
  assert (Hk : step_k beam_size st new_scores <= length new_scores)
    by (unfold step_k; lia).
  rewrite (topk_combine_length (topk_ok _ Hk)) in Hsum.
  unfold step_k in Hsum. split; [lia | exact Hlive].
Qed.

(** The new hypotheses of a selection extend hypotheses of the beam by
    legal actions. *)
Lemma beam_select_derived st sel :
  grammar_ids_ok (hypotheses st) ->
  beam_select args src_sent beam_size return_states st = Some sel ->
  Forall (derived_legally (hypotheses st)) (new_hypotheses sel) /\
  exists newc, sel_completed sel = completed_hypotheses st ++ newc /\
               Forall (derived_legally (hypotheses st)) newc.
Proof.
  intros Hgr Hsel.
  apply (beam_select_fold_inv
           (fun a => Forall (derived_legally (hypotheses st)) (new_hypotheses a)
                     /\ exists newc,
                          sel_completed a = completed_hypotheses st ++ newc /\
                          Forall (derived_legally (hypotheses st)) newc)
           st Hsel).
  - simpl. split; [constructor|]. exists []. now rewrite app_nil_r.
  - intros new_scores a e a' _ _ [Hnew (newc & Hc & Hnewc)] H1.
    apply select_one_inv in H1.
    destruct H1 as (pid & prev & ai & Hai & H1).
    apply make_action_info_inv in Hai. destruct Hai as (Hact & Hprev & _).
    destruct (make_action_legal (snd e) (step_cands_inv args src_sent st)
                                Hgr Hact) as (hyp & Hhyp & Hlegal).
    assert (hyp = prev) by congruence. subst hyp.
    assert (Hd : forall s, derived_legally (hypotheses st)
                   (mkHyp (clone_and_apply_action_info (tree prev) ai) s)).
    { intros s. exists prev, ai. split; [|auto].
      eapply nth_error_In; eauto. }
    simpl in H1. destruct H1 as [(_ & _ & Hn & Hc') | (_ & _ & Hn & Hc' & _)].
    + rewrite Hn, Hc'. split; trivial.
      exists (newc ++ [mkHyp (clone_and_apply_action_info (tree prev) ai)
                             (fst e)]).
      rewrite Hc, app_assoc. split; trivial.
      apply Forall_app. split; trivial. constructor; [apply Hd | constructor].
    + rewrite Hn, Hc'. split; [|eauto].
      apply Forall_app. split; trivial. constructor; [apply Hd | constructor].
Qed.
End RunFacts.

(** The action information of the slot [a] of [open_hyp] over the input
    [a a z y]. *)
Lemma action_info_metadata_witness :
  make_action_info Toy.utterance 2 [Toy.open_hyp]
    (collect Toy.copy_args Toy.utterance Toy.open_table [Toy.open_hyp]) 2
  = Some (0, Toy.open_hyp,
          mkActionInfo (G:=Toy.toy_grammar) (GenTokenAction "a") 2 (Some 0)
                       (Some 0) (Some tt) true (Some [0; 1])) /\
  Some [0; 1] = Some (occurrence_positions Toy.utterance "a").
Proof.
  assert (Hai : make_action_info Toy.utterance 2 [Toy.open_hyp]
                  (collect Toy.copy_args Toy.utterance Toy.open_table
                           [Toy.open_hyp]) 2
                = Some (0, Toy.open_hyp,
                        mkActionInfo (G:=Toy.toy_grammar) (GenTokenAction "a")
                                     2 (Some 0) (Some 0) (Some tt) true
                                     (Some [0; 1])))
    by reflexivity.
  split; [exact Hai|].
  destruct (action_info_metadata
              Toy.utterance 2 [Toy.open_hyp]
              (collect Toy.copy_args Toy.utterance Toy.open_table
                       [Toy.open_hyp]) 2
              Hai)
    as (_ & _ & _ & _ & Hg & _).
  destruct (Hg "a"%string eq_refl) as [Hin _].
  apply Hin. simpl. auto.
Defined.

(* ================================================================== *)
(** * More of [parse]: the scores of the hypotheses *)
(* ================================================================== *)

Section ScoreFacts.
Context {N : Numeric} {G : Grammar} {V : PrimVocab}
        {TS : TransitionSystem G} {SC : Scorer N TS}.
Variable args : Args.
Variable src_sent : list string.

(** The score at a position of the candidate list is the score of the
    hypothesis the position extends plus the log-probability of the action
    the position stands for. *)
Lemma candidate_score (scores : StepScores DecState)
      (hyps : list DecodeHypothesis) (c : Cands) new_scores pos s h a prev :
  cands_inv args src_sent scores hyps c ->
  grammar_ids_ok hyps ->
  new_hyp_scores (map score hyps) c = Some new_scores ->
  nth_error new_scores pos = Some s ->
  make_action c pos = Some (h, a) ->
  nth_error hyps h = Some prev ->
  match a with
  | ApplyRuleAction p =>
      s = add (score prev) (apply_rule_log_prob scores h (prod2id p))
  | ReduceAction =>
      s = add (score prev) (apply_rule_log_prob scores h grammar_len)
  | GenTokenAction tok =>
      exists slot, slot < vocab_size /\ slot_token c h slot tok /\
                   s = add (score prev) (log (primitive_prob c h slot))
  end.
Proof.
  intros [Ha Hg Hu Hs] Hgr Hsc Hnth Hact Hprev.
  apply new_hyp_scores_eq in Hsc. subst new_scores.
  unfold make_action in Hact.
  destruct (Nat.ltb_spec pos (length (applyrule_new_hyp_scores c)))
    as [Hlt | Hge].
  - destruct (Forall3_nth Ha Hlt)
      as (s' & prod_id & h' & Hs' & Hp & Hh & hyp & Hhyp & Hsum & Hlegal).
    rewrite Hh, Hp in Hact. simpl in Hact. injection Hact as <- <-.
    rewrite nth_error_app1 in Hnth by trivial.
    replace s with s' by congruence. replace prev with hyp by congruence.
    destruct Hlegal as [[_ (p & Hp' & ->)] | [_ ->]].
    + destruct (Hgr hyp p (nth_error_In _ _ Hhyp) Hp') as [Hlt' Hid].
      apply Nat.ltb_lt in Hlt'. rewrite Hlt', Hid. exact Hsum.
    + rewrite Nat.ltb_irrefl. exact Hsum.
  - set (n := length (applyrule_new_hyp_scores c)) in *.
    rewrite nth_error_app2 in Hnth by trivial. fold n in Hnth.
    assert (Hlen : pos - n <
                   length (gen_token_new_hyp_scores (map score hyps) c))
      by (apply nth_error_Some; congruence).
    rewrite gen_scores_length in Hlen.
    assert (Hv : vocab_size <> 0) by (intros Hv; rewrite Hv in Hlen; lia).
    destruct (nth_error (gentoken_prev_hyp_ids c) ((pos - n) / vocab_size))
      as [h' |] eqn:Hh; [|discriminate].
    simpl in Hact.
    assert (Hi : (pos - n) mod vocab_size < vocab_size)
      by (now apply Nat.mod_upper_bound).
    pose proof (@gen_scores_nth _ _ (map score hyps) c _ _ _ Hh Hi) as Hgen.
    replace ((pos - n) / vocab_size * vocab_size + (pos - n) mod vocab_size)
      with (pos - n) in Hgen
      by (rewrite (Nat.div_mod_eq (pos - n) vocab_size) at 1; lia).
    rewrite Hnth in Hgen. injection Hgen as ->.
    assert (Htok : forall tok,
               h' = h ->
               slot_token c h ((pos - n) mod vocab_size) tok ->
               exists slot, slot < vocab_size /\ slot_token c h slot tok /\
                 add (nth h' (map score hyps) zero)
                     (log (primitive_prob c h' ((pos - n) mod vocab_size))) =
                 add (score prev) (log (primitive_prob c h slot))).
    { intros tok -> Hst. exists ((pos - n) mod vocab_size).
      split; trivial. split; trivial.
      replace (nth h (map score hyps) zero) with (score prev); trivial.
      symmetry. apply nth_error_nth.
      rewrite nth_error_map, Hprev. reflexivity. }
    destruct ((pos - n) mod vocab_size =? unk) eqn:Hunk.
    + apply Nat.eqb_eq in Hunk.
      destruct (gentoken_new_hyp_unks c) as [| u us] eqn:Hunks.
      * simpl in Hact. injection Hact as Hh' <-.
        apply Htok; trivial. right. split; trivial. left. auto.
      * destruct (nth_error (u :: us) ((pos - n) / vocab_size))
          as [tok |] eqn:Htk; simpl in Hact; [|discriminate].
        injection Hact as Hh' <-.
        apply Htok; trivial. right. split; trivial. right.
        exists ((pos - n) / vocab_size). subst h'. split; trivial.
        rewrite Hunks. exact Htk.
    + apply Nat.eqb_neq in Hunk. simpl in Hact.
      injection Hact as Hh' <-.
      apply Htok; trivial. left. auto.
Qed.
End ScoreFacts.

Section RunScores.
Context {N : Numeric} {G : Grammar} {V : PrimVocab}
        {TS : TransitionSystem G} {SC : Scorer N TS} {TK : TopK N}.
Variable args : Args.
Variable src_sent : list string.
Variable beam_size : nat.
Variable return_states : bool.

(** Once the row of scores holds the scores of the hypotheses it does so
    for the rest of the run. *)
Lemma run_scores_aligned fuel st0 st :
  hyp_scores st0 = map score (hypotheses st0) ->
  parse_loop args src_sent beam_size return_states fuel st0 = Some st ->
  hyp_scores st = map score (hypotheses st).
Proof.
  intros H0 Hloop.
  refine (parse_loop_invariant
            args src_sent return_states
            (fun st => hyp_scores st = map score (hypotheses st))
            _ _ fuel st0 H0 Hloop); trivial.
  intros s sel s' _ _ _ _ Hadv.
  apply beam_advance_fields in Hadv.
  destruct Hadv as (_ & Hh & _ & Hs & _). now rewrite Hs, Hh.
Qed.

(** X3.  In a decoding from the start, the row [hyp_scores] holds at
    every step the scores of the live hypotheses, and the score given to a
    new hypothesis, live or completed, is the score of the hypothesis it
    extends plus the log-probability of the action applied to it: the
    entry of [apply_rule_log_prob] at the id of the production of an
    ApplyRule, its entry at [len(grammar)] for a Reduce, and for a GenToken
    the logarithm of the entry of [primitive_prob] at the vocabulary slot
    of its token (for the unknown slot, the token recorded for the
    hypothesis, or the unknown word). *)
Theorem scores_accumulate {TKS : TopKSpec TK} (fuel : nat)
        (st0 st : BeamState) (sel : Selected) :
  grammar_ids_ok_everywhere TS ->
  initial_state src_sent None = Some st0 ->
  parse_loop args src_sent beam_size return_states fuel st0 = Some st ->
  beam_select args src_sent beam_size return_states st = Some sel ->
  hyp_scores st = map score (hypotheses st) /\
  Forall (scored_from (step_scores src_sent st) (hypotheses st)
                      (step_cands args src_sent st))
         (new_hypotheses sel) /\
  exists newc,
    sel_completed sel = completed_hypotheses st ++ newc /\
    Forall (scored_from (step_scores src_sent st) (hypotheses st)
                        (step_cands args src_sent st)) newc.
Proof.
  intros Hgr Hinit Hloop Hsel.
  assert (Hal : hyp_scores st = map score (hypotheses st)).
  { eapply run_scores_aligned; [|exact Hloop].
    simpl in Hinit. injection Hinit as <-. reflexivity. }
  split; [exact Hal|].
  apply (beam_select_fold_inv
           args src_sent beam_size return_states
           (fun a =>
              Forall (scored_from (step_scores src_sent st) (hypotheses st)
                                  (step_cands args src_sent st))
                     (new_hypotheses a) /\
              exists newc,
                sel_completed a = completed_hypotheses st ++ newc /\
                Forall (scored_from (step_scores src_sent st) (hypotheses st)
                                    (step_cands args src_sent st)) newc)
           st Hsel).
  - simpl. split; [constructor|]. exists []. now rewrite app_nil_r.
  - intros new_scores a [s p] a' Hsc He [Hnew (newc & Hc & Hnewc)] H1.
    assert (Hk : step_k beam_size st new_scores <= length new_scores)
      by (unfold step_k; lia).
    destruct (topk_ok _ Hk) as [_ Hvals _ _ _].
    pose proof (combine_vals _ _ _ _ _ Hvals He) as Hnth.
    apply select_one_inv in H1. destruct H1 as (pid & prev & ai & Hai & H1).
    apply make_action_info_inv in Hai. destruct Hai as (Hact & Hprev & _).
    rewrite Hal in Hsc. simpl in Hact.
    assert (Hgr' : grammar_ids_ok (hypotheses st))
      by (intros hyp q _; apply Hgr).
    pose proof (candidate_score p (step_cands_inv args src_sent st) Hgr' Hsc
                                Hnth Hact Hprev) as Hs.
    assert (Hd : scored_from (step_scores src_sent st) (hypotheses st)
                   (step_cands args src_sent st)
                   (mkHyp (clone_and_apply_action_info (tree prev) ai) s)).
    { exists pid, prev, ai. simpl. split; trivial. split; trivial. }
    simpl in H1. destruct H1 as [(_ & _ & Hn & Hc') | (_ & _ & Hn & Hc' & _)].
    + rewrite Hn, Hc'. split; trivial.
      exists (newc ++ [mkHyp (clone_and_apply_action_info (tree prev) ai) s]).
      rewrite Hc, app_assoc. split; trivial.
      apply Forall_app. split; trivial. constructor; [exact Hd | constructor].
    + rewrite Hn, Hc'. split; [|eauto].
      apply Forall_app. split; trivial. constructor; [exact Hd | constructor].
Qed.
End RunScores.

Lemma toy_grammar_ids_everywhere : grammar_ids_ok_everywhere Toy.toy_ts.
Proof.
  intros d p. simpl. unfold Toy.toy_productions.
  destruct d; simpl; [|contradiction].
  intros [<- | [<- | []]]; split; trivial; lia.
Qed.

(** The second step of a decoding of [a a z y] with beam size 2: the
    hypothesis [ApplyRule 0] is extended by [GenToken a], whose slot holds
    0.4. *)
Lemma scores_accumulate_witness :
  exists st sel,
    parse_loop (TK:=topk_first Fix.fixnum) Toy.copy_args Toy.utterance 2
               false 1 (Toy.fresh_state (Fix.milli (-600))) = Some st /\
    beam_select (TK:=topk_first Fix.fixnum) Toy.copy_args Toy.utterance 2
                false st = Some sel /\
    new_hypotheses sel
    = [mkHyp (N:=Fix.fixnum) [ApplyRuleAction 0; GenTokenAction "a"]
             (-10162907)%Z] /\
    Forall (scored_from (step_scores Toy.utterance st) (hypotheses st)
                        (step_cands Toy.copy_args Toy.utterance st))
           (new_hypotheses sel).
Proof.
  assert (Hloop :
            parse_loop (TK:=topk_first Fix.fixnum) Toy.copy_args
                       Toy.utterance 2 false 1
                       (Toy.fresh_state (Fix.milli (-600)))
            = Some (mkBeam (SC:=Toy.fix_scorer (Fix.milli (-600)))
                                1 [Toy.partial_hyp] [Toy.partial_states] [0]
                                [Fix.milli (-100)]
                                [mkHyp (N:=Fix.fixnum) [ApplyRuleAction 1]
                                       (Fix.milli (-900))] []))
    by reflexivity.
  assert (Hsel :
            beam_select (TK:=topk_first Fix.fixnum) Toy.copy_args
                        Toy.utterance 2 false
                        (mkBeam (SC:=Toy.fix_scorer (Fix.milli (-600)))
                                1 [Toy.partial_hyp] [Toy.partial_states] [0]
                                [Fix.milli (-100)]
                                [mkHyp (N:=Fix.fixnum) [ApplyRuleAction 1]
                                       (Fix.milli (-900))] [])
            = Some (mkSelected
                      (SC:=Toy.fix_scorer (Fix.milli (-600)))
                      [0]
                      [mkHyp (N:=Fix.fixnum)
                             [ApplyRuleAction 0; GenTokenAction "a"]
                             (-10162907)%Z]
                      [mkHyp (N:=Fix.fixnum) [ApplyRuleAction 1]
                             (Fix.milli (-900))] []))
    by reflexivity.
  destruct (scores_accumulate
              (TK:=topk_first Fix.fixnum) (TKS:=topk_first_spec fix_exact)
              Toy.copy_args (src_sent:=Toy.utterance) 2 false 1
              toy_grammar_ids_everywhere eq_refl Hloop Hsel)
    as (_ & Hnew & _).
  eexists. eexists. split; [exact Hloop|]. split; [exact Hsel|].
  split; [reflexivity | exact Hnew].
Defined.

(* ================================================================== *)
(** * More of [parse]: what it returns *)
(* ================================================================== *)

Section RunResults.
Context {N : Numeric} {G : Grammar} {V : PrimVocab}
        {TS : TransitionSystem G} {SC : Scorer N TS} {TK : TopK N}.
Variable args : Args.
Variable src_sent : list string.
Variable beam_size : nat.
Variable return_states : bool.

(** What [parse] starts from. *)
Lemma initial_state_fields resume st0 :
  initial_state src_sent resume = Some st0 ->
  exists hyp,
    hypotheses st0 = [hyp] /\ tree hyp = start_derivation resume /\
    completed_hypotheses st0 = [] /\ saved_states st0 = [] /\
    length (hyp_states st0) = 1.
Proof.
  destruct resume as [[hyp states] |]; simpl.
  - destruct (py_index_pred states (hyp_t (tree hyp))); simpl; [|discriminate].
    intros H. injection H as <-. simpl. eauto 6.
  - intros H. injection H as <-. simpl. eauto 6.
Qed.

(** A result of [parse] is a sorted copy of the completed hypotheses, or
    of the live ones when there is none. *)
Lemma parse_result_perm st :
  Permutation (fst (parse_result return_states st))
              (match completed_hypotheses st with
               | [] => hypotheses st
               | _ => completed_hypotheses st
               end).
Proof. unfold parse_result. simpl. apply sort_by_perm. Qed.

Lemma parse_inv resume r :
  parse args src_sent beam_size return_states resume = Some r ->
  exists st0 st,
    initial_state src_sent resume = Some st0 /\
    parse_loop args src_sent beam_size return_states
               (decode_max_time_step args - bs_t st0) st0 = Some st /\
    r = parse_result return_states st.
Proof.
  unfold parse, parse_final.
  destruct (initial_state src_sent resume) as [st0 |]; simpl; [|discriminate].
  destruct (parse_loop _ _ _ _ _ st0) as [st |] eqn:Hl; simpl; [|discriminate].
  intros H. injection H as <-. exists st0, st. repeat split. exact Hl.
Qed.

Lemma run_reachable d0 fuel st0 st :
  grammar_ids_ok_everywhere TS ->
  Forall (fun h => legally_reachable d0 (tree h)) (hypotheses st0) ->
  Forall (fun h => legally_reachable d0 (tree h)) (completed_hypotheses st0) ->
  parse_loop args src_sent beam_size return_states fuel st0 = Some st ->
  Forall (fun h => legally_reachable d0 (tree h)) (hypotheses st) /\
  Forall (fun h => legally_reachable d0 (tree h)) (completed_hypotheses st).
Proof.
  intros Hgr Hh0 Hc0 Hloop.
  assert (Hstep : forall s (l : list DecodeHypothesis),
             Forall (fun h => legally_reachable d0 (tree h)) (hypotheses s) ->
             Forall (derived_legally (hypotheses s)) l ->
             Forall (fun h => legally_reachable d0 (tree h)) l).
  { intros s l Hs Hl. rewrite Forall_forall in *. intros h Hh.
    destruct (Hl h Hh) as (prev & ai & Hprev & Hlegal & ->).
    apply reach_step; auto. }
  refine (parse_loop_invariant
            args src_sent return_states
            (fun st => Forall (fun h => legally_reachable d0 (tree h))
                              (hypotheses st) /\
                       Forall (fun h => legally_reachable d0 (tree h))
                              (completed_hypotheses st))
            _ _ fuel st0 (conj Hh0 Hc0) Hloop).
  - intros s sel [Hs Hc] _ Hsel _. simpl. split; trivial.
    destruct (beam_select_derived args src_sent beam_size return_states s)
      with (sel:=sel) as (_ & newc & -> & Hnewc); trivial.
    { intros hyp p _. apply Hgr. }
    apply Forall_app. split; trivial. now apply (Hstep s).
  - intros s sel s' [Hs Hc] _ Hsel _ Hadv.
    apply beam_advance_fields in Hadv.
    destruct Hadv as (_ & Hh & _ & _ & Hcs & _). rewrite Hh, Hcs.
    destruct (beam_select_derived args src_sent beam_size return_states s)
      with (sel:=sel) as (Hnew & newc & -> & Hnewc); trivial.
    { intros hyp p _. apply Hgr. }
    split; [now apply (Hstep s)|].
    apply Forall_app. split; trivial. now apply (Hstep s).
Qed.

(** X4.  Every hypothesis [parse] returns, completed or not, is reached
    from the derivation the call starts from (the empty one, or the one of
    the hypothesis handed in) by a sequence of actions, each allowed by
    the transition system on the derivation it is applied to. *)
Theorem parse_results_legally_reachable
        (resume : option (DecodeHypothesis * list DecState))
        (res : list DecodeHypothesis) (saved : list (list DecState)) :
  grammar_ids_ok_everywhere TS ->
  parse args src_sent beam_size return_states resume = Some (res, saved) ->
  Forall (fun h => legally_reachable (start_derivation resume) (tree h)) res.
Proof.
  intros Hgr Hparse.
  destruct (parse_inv _ Hparse) as (st0 & st & Hinit & Hloop & Hr).
  destruct (initial_state_fields _ Hinit) as (hyp & Hh & Ht & Hc & _).
  destruct (@run_reachable (start_derivation resume)
                           (decode_max_time_step args - bs_t st0) st0 st Hgr)
    as [Hlive Hdone]; trivial.
  - rewrite Hh. constructor; [|constructor]. rewrite Ht. constructor.
  - rewrite Hc. constructor.
  - pose proof (parse_result_perm st) as Hp. rewrite <- Hr in Hp. simpl in Hp.
    rewrite Forall_forall in *. intros h Hin.
    apply (Permutation_in _ Hp) in Hin.
    destruct (completed_hypotheses st); auto.
Qed.

Lemma run_sizes {TKS : TopKSpec TK} fuel st0 st :
  1 <= length (hypotheses st0) <= max 1 beam_size ->
  length (completed_hypotheses st0) <= beam_size ->
  parse_loop args src_sent beam_size return_states fuel st0 = Some st ->
  1 <= length (hypotheses st) <= max 1 beam_size /\
  length (completed_hypotheses st) <= beam_size.
Proof.
  intros Hh0 Hc0 Hloop.
  refine (parse_loop_invariant
            args src_sent return_states
            (fun st => 1 <= length (hypotheses st) <= max 1 beam_size /\
                       length (completed_hypotheses st) <= beam_size)
            _ _ fuel st0 (conj Hh0 Hc0) Hloop).
  - intros s sel [Hs Hc] Hlt Hsel _. simpl. split; trivial.
    destruct (beam_select_counts args src_sent beam_size return_states s Hsel)
      as [Hsum _].
    lia.
  - intros s sel s' [Hs Hc] Hlt Hsel Hne Hadv.
    apply beam_advance_fields in Hadv.
    destruct Hadv as (_ & Hh & _ & _ & Hcs & _). rewrite Hh, Hcs.
    destruct (beam_select_counts args src_sent beam_size return_states s Hsel)
      as [Hsum Hlive].
    assert (0 < length (live_hyp_ids sel))
      by (destruct (live_hyp_ids sel); [congruence | simpl; lia]).
    lia.
Qed.

(** X5.  [parse] returns at least one hypothesis, and at most [beam_size]
    of them (one when [beam_size] is zero). *)
Theorem parse_result_size {TKS : TopKSpec TK}
        (resume : option (DecodeHypothesis * list DecState))
        (res : list DecodeHypothesis) (saved : list (list DecState)) :
  parse args src_sent beam_size return_states resume = Some (res, saved) ->
  1 <= length res <= max 1 beam_size.
Proof.
  intros Hparse.
  destruct (parse_inv _ Hparse) as (st0 & st & Hinit & Hloop & Hr).
  destruct (initial_state_fields _ Hinit) as (hyp & Hh & _ & Hc & _).
  destruct (@run_sizes TKS (decode_max_time_step args - bs_t st0) st0 st)
    as [Hlive Hdone]; trivial.
  - rewrite Hh. cbn [length]. lia.
  - rewrite Hc. cbn [length]. lia.
  - pose proof (parse_result_perm st) as Hp. rewrite <- Hr in Hp. simpl in Hp.
    rewrite (Permutation_length Hp).
    destruct (completed_hypotheses st) as [| h l]; [exact Hlive|].
    cbn [length] in *. lia.
Qed.
End RunResults.

(** A decoding of [a a z y] with beam size 2: both results are reached
    from the empty derivation. *)
Lemma parse_results_legally_reachable_witness :
  Forall (fun h => legally_reachable (TS:=Toy.toy_ts) [] (tree h))
         [mkHyp (N:=Fix.fixnum) [ApplyRuleAction 1] (Fix.milli (-900));
          mkHyp (N:=Fix.fixnum)
                [ApplyRuleAction 0; GenTokenAction "a"; ReduceAction]
                (-16162907)%Z].
Proof.
  assert (Hp : parse (SC:=Toy.fix_scorer (Fix.milli (-600)))
                     (TK:=topk_first Fix.fixnum)
                     Toy.copy_args Toy.utterance 2 false None
               = Some ([mkHyp (N:=Fix.fixnum) [ApplyRuleAction 1]
                              (Fix.milli (-900));
                        mkHyp (N:=Fix.fixnum)
                              [ApplyRuleAction 0; GenTokenAction "a";
                               ReduceAction] (-16162907)%Z], []))
    by reflexivity.
  exact (parse_results_legally_reachable
           (SC:=Toy.fix_scorer (Fix.milli (-600))) (TK:=topk_first Fix.fixnum)
           Toy.copy_args Toy.utterance 2 false None
           toy_grammar_ids_everywhere Hp).
Defined.

(** The same decoding returns two hypotheses. *)
Lemma parse_result_size_witness :
  1 <= length [mkHyp (N:=Fix.fixnum) (TS:=Toy.toy_ts) [ApplyRuleAction 1]
                     (Fix.milli (-900));
               mkHyp (N:=Fix.fixnum) (TS:=Toy.toy_ts)
                     [ApplyRuleAction 0; GenTokenAction "a"; ReduceAction]
                     (-16162907)%Z] <= max 1 2.
Proof.
  assert (Hp : parse (SC:=Toy.fix_scorer (Fix.milli (-600)))
                     (TK:=topk_first Fix.fixnum)
                     Toy.copy_args Toy.utterance 2 false None
               = Some ([mkHyp (N:=Fix.fixnum) [ApplyRuleAction 1]
                              (Fix.milli (-900));
                        mkHyp (N:=Fix.fixnum)
                              [ApplyRuleAction 0; GenTokenAction "a";
                               ReduceAction] (-16162907)%Z], []))
    by reflexivity.
  exact (parse_result_size
           (SC:=Toy.fix_scorer (Fix.milli (-600))) (TK:=topk_first Fix.fixnum)
           (TKS:=topk_first_spec fix_exact)
           Toy.copy_args Toy.utterance 2 false None Hp).
Defined.

(* ================================================================== *)
(** * More of [parse]: the recorded decoder states *)
(* ================================================================== *)

Lemma mapM_Forall2 {A B} (f : A -> option B) (l : list A) (r : list B) :
  mapM f l = Some r -> Forall2 (fun x y => f x = Some y) l r.
Proof.
  revert r. induction l as [| x l IH]; simpl; intros r H.
  - injection H as <-. constructor.
  - destruct (f x) as [y |] eqn:Hy; simpl in H; [|discriminate].
    destruct (mapM f l) as [ys |]; simpl in H; [|discriminate].
    injection H as <-. constructor; auto.
Qed.

Lemma map_fst_combine_eq {A B} (l1 : list A) (l2 : list B) :
  length l1 = length l2 -> map fst (combine l1 l2) = l1.
Proof.
  revert l2. induction l1 as [| x l1 IH]; intros [| y l2] H; simpl in *;
    try discriminate; trivial.
  f_equal. apply IH. lia.
Qed.

Lemma combine_fst_snd {A B} (l : list (A * B)) :
  combine (map fst l) (map snd l) = l.
Proof.
  induction l as [| [x y] l IH]; simpl; trivial. now rewrite IH.
Qed.

Section SortPairs.
Context {N : Numeric} {A B : Type}.
Variable key : A -> num.

Lemma insert_by_map_fst (x : A * B) (l : list (A * B)) :
  map fst (insert_by (fun pair => key (fst pair)) x l) =
  insert_by key (fst x) (map fst l).
Proof.
  induction l as [| y l IH]; simpl; trivial.
  destruct (ltb (key (fst y)) (key (fst x))); simpl; trivial.
  now rewrite IH.
Qed.

(** Sorting pairs by the key of the first component sorts the first
    components. *)
Lemma sort_by_map_fst (l : list (A * B)) :
  map fst (sort_by (fun pair => key (fst pair)) l) = sort_by key (map fst l).
Proof.
  unfold sort_by. induction l as [| x l IH]; simpl; trivial.
  now rewrite insert_by_map_fst, IH.
Qed.
End SortPairs.

Lemma Forall2_nth_both {A B} (R : A -> B -> Prop) (l1 : list A) (l2 : list B)
      i x y :
  Forall2 R l1 l2 -> nth_error l1 i = Some x -> nth_error l2 i = Some y ->
  R x y.
Proof.
  intros H. revert i. induction H as [| a b l1 l2 Hab _ IH]; intros i H1 H2.
  - destruct i; discriminate.
  - destruct i as [| i]; simpl in *; [|eauto].
    injection H1 as <-. injection H2 as <-. exact Hab.
Qed.

Section RunStates.
Context {N : Numeric} {G : Grammar} {V : PrimVocab}
        {TS : TransitionSystem G} {SC : Scorer N TS} {TK : TopK N}.
Variable args : Args.
Variable src_sent : list string.
Variable beam_size : nat.
Variable return_states : bool.

Lemma select_one_saved st c a e a' :
  select_one src_sent return_states st c a e = Some a' ->
  (return_states = true ->
   length (sel_saved a) = length (sel_completed a) ->
   length (sel_saved a') = length (sel_completed a')) /\
  (return_states = false -> sel_saved a' = sel_saved a).
Proof.
  unfold select_one.
  destruct (make_action_info _ _ _ _ _) as [[[pid prev] ai] |]; simpl;
    [|discriminate].
  destruct (completed (clone_and_apply_action_info (tree prev) ai)).
  - destruct return_states.
    + destruct (nth_error (hyp_states st) pid); simpl; [|discriminate].
      intros H. injection H as <-. simpl. split; [|discriminate].
      intros _ Hl. rewrite !length_app. simpl. lia.
    + simpl. intros H. injection H as <-. simpl. split; [discriminate | auto].
  - intros H. injection H as <-. simpl. auto.
Qed.

Lemma beam_select_saved st sel :
  beam_select args src_sent beam_size return_states st = Some sel ->
  (return_states = true ->
   length (saved_states st) = length (completed_hypotheses st) ->
   length (sel_saved sel) = length (sel_completed sel)) /\
  (return_states = false -> sel_saved sel = saved_states st).
Proof.
  intros Hsel.
  apply (beam_select_fold_inv
           args src_sent beam_size return_states
           (fun a =>
              (return_states = true ->
               length (saved_states st) = length (completed_hypotheses st) ->
               length (sel_saved a) = length (sel_completed a)) /\
              (return_states = false -> sel_saved a = saved_states st))
           st Hsel).
  - simpl. auto.
  - intros new_scores a e a' _ _ [Ht Hf] H1.
    apply select_one_saved in H1. destruct H1 as [H1t H1f]. split.
    + auto.
    + intros Hrs. rewrite (H1f Hrs). auto.
Qed.

Lemma beam_select_live_length st sel :
  beam_select args src_sent beam_size return_states st = Some sel ->
  length (live_hyp_ids sel) = length (new_hypotheses sel).
Proof.
  intros Hsel.
  apply (beam_select_fold_inv
           args src_sent beam_size return_states
           (fun a => length (live_hyp_ids a) = length (new_hypotheses a))
           st Hsel); trivial.
  intros new_scores a e a' _ _ Ha H1.
  apply select_one_inv in H1. destruct H1 as (pid & prev & ai & _ & H1).
  simpl in H1. destruct H1 as [(_ & -> & -> & _) | (_ & -> & -> & _)]; trivial.
  rewrite !length_app. simpl. lia.
Qed.

(** With [return_states] there is one saved history per completed
    hypothesis, without it there is none. *)
Lemma run_saved fuel st0 st :
  completed_hypotheses st0 = [] -> saved_states st0 = [] ->
  parse_loop args src_sent beam_size return_states fuel st0 = Some st ->
  (return_states = true ->
   length (saved_states st) = length (completed_hypotheses st)) /\
  (return_states = false -> saved_states st = []).
Proof.
  intros Hc0 Hs0 Hloop.
  refine (parse_loop_invariant
            args src_sent return_states
            (fun st =>
               (return_states = true ->
                length (saved_states st) = length (completed_hypotheses st)) /\
               (return_states = false -> saved_states st = []))
            _ _ fuel st0 _ Hloop).
  - intros s sel [Ht Hf] _ Hsel _. simpl.
    destruct (beam_select_saved _ Hsel) as [H1 H2]. split; [auto|].
    intros Hrs. rewrite (H2 Hrs). auto.
  - intros s sel s' [Ht Hf] _ Hsel _ Hadv.
    apply beam_advance_fields in Hadv.
    destruct Hadv as (_ & _ & _ & _ & Hcs & Hss & _). rewrite Hcs, Hss.
    destruct (beam_select_saved _ Hsel) as [H1 H2]. split; [auto|].
    intros Hrs. rewrite (H2 Hrs). auto.
  - rewrite Hc0, Hs0. auto.
Qed.

Lemma advance_histories (t : nat) (states : list (list DecState))
      (ns : nat -> DecState) (live : list nat) (hs : list (list DecState)) :
  (forall s, In s states -> length s = t) ->
  mapM (fun i => obind (nth_error states i) (fun s => Some (s ++ [ns i])))
       live = Some hs ->
  Forall2 (fun s h => length s = S t /\
                      (0 < S t -> nth_error s (S t - 1) = Some h))
          hs (map ns live).
Proof.
  intros Hlen Hm. apply mapM_Forall2 in Hm.
  induction Hm as [| i s' live hs Hi _ IH]; simpl; constructor; trivial.
  destruct (nth_error states i) as [s |] eqn:Hs; simpl in Hi; [|discriminate].
  injection Hi as <-.
  pose proof (Hlen s (nth_error_In _ _ Hs)) as Hl.
  rewrite length_app. simpl. split; [lia|]. intros _.
  assert (Hn : forall k, k = length s ->
                         nth_error (s ++ [ns i]) k = Some (ns i)).
  { intros k ->. rewrite nth_error_app2 by lia. now rewrite Nat.sub_diag. }
  apply Hn. lia.
Qed.

Lemma run_states_ok fuel st0 st :
  states_ok st0 ->
  parse_loop args src_sent beam_size return_states fuel st0 = Some st ->
  states_ok st.
Proof.
  intros H0 Hloop.
  refine (parse_loop_invariant args src_sent return_states states_ok
                               _ _ fuel st0 H0 Hloop).
  - intros s sel Hs _ _ _. exact Hs.
  - intros s sel s' [Hs Hl] _ Hsel _ Hadv.
    pose proof (beam_advance_fields _ _ _ Hadv)
      as (Ht & Hh & Hp & _ & _ & _ & Hm).
    unfold states_ok. rewrite Ht, Hh, Hp. split.
    + apply advance_histories with (states:=hyp_states s); trivial.
      intros x Hx.
      destruct (In_nth_error _ _ Hx) as [i Hi].
      assert (Hj : i < length (h_tm1 s)).
      { rewrite <- (Forall2_length Hs). apply nth_error_Some. congruence. }
      destruct (nth_error (h_tm1 s) i) as [h |] eqn:Hhi;
        [|apply nth_error_None in Hhi; lia].
      now destruct (Forall2_nth_both i Hs Hi Hhi).
    + apply mapM_Forall2, Forall2_length in Hm. rewrite <- Hm.
      apply (beam_select_live_length _ Hsel).
Qed.

(** X7.  Through a run of the loop every live hypothesis has one
    recorded decoder state per step taken, the last of them its row of
    [h_tm1].  So when [parse] is entered again with a live hypothesis of
    step [t > 0] and its history, it starts at step [t] from the decoder
    state the run had for it, with the row of scores set to zero. *)
Theorem state_histories_track_steps
        (resume : option (DecodeHypothesis * list DecState))
        (st0 : BeamState) (fuel : nat) (st : BeamState) :
  initial_state src_sent resume = Some st0 ->
  (forall hyp states, resume = Some (hyp, states) ->
                      length states = hyp_t (tree hyp)) ->
  parse_loop args src_sent beam_size return_states fuel st0 = Some st ->
  states_ok st /\
  forall i hyp s h,
    nth_error (hypotheses st) i = Some hyp ->
    nth_error (hyp_states st) i = Some s ->
    nth_error (h_tm1 st) i = Some h ->
    0 < bs_t st -> hyp_t (tree hyp) = bs_t st ->
    initial_state src_sent (Some (hyp, s))
    = Some (mkBeam (bs_t st) [hyp] [s] [h] [zero] [] []).
Proof.
  intros Hinit Hres Hloop.
  assert (H0 : states_ok st0).
  { destruct resume as [[hyp states] |]; simpl in Hinit.
    - specialize (Hres hyp states eq_refl).
      destruct (py_index_pred states (hyp_t (tree hyp))) as [prev |] eqn:Hp;
        simpl in Hinit; [|discriminate].
      injection Hinit as <-. split; simpl; trivial.
      constructor; [|constructor]. split; trivial. intros Ht.
      destruct (hyp_t (tree hyp)) as [| t']; [lia|]. simpl in *.
      now rewrite Nat.sub_0_r.
    - injection Hinit as <-. split; simpl; trivial.
      constructor; [|constructor]. split; trivial. lia. }
  pose proof (run_states_ok _ H0 Hloop) as Hok. split; [exact Hok|].
  intros i hyp s h Hhyp Hs Hh Ht Hhyp_t.
  destruct Hok as [Hall _].
  destruct (Forall2_nth_both i Hall Hs Hh) as [_ Hlast].
  specialize (Hlast Ht). simpl. rewrite Hhyp_t.
  destruct (bs_t st) as [| t']; [lia|]. simpl in *.
  rewrite Nat.sub_0_r in Hlast. now rewrite Hlast.
Qed.
End RunStates.

Section ReturnedStates.
Context {N : Numeric} {G : Grammar} {V : PrimVocab}
        {TS : TransitionSystem G} {SC : Scorer N TS} {TK : TopK N}.
Variable args : Args.
Variable src_sent : list string.
Variable beam_size : nat.

(** X6.  With [return_states] the loop saves one state history per
    completed hypothesis, and [parse] sorts the two lists as pairs: the
    history returned at a position is the one saved with the hypothesis
    returned at that position.  When no hypothesis was completed the live
    hypotheses are returned and no history is. *)
Theorem returned_states_follow_results
        (resume : option (DecodeHypothesis * list DecState))
        (res : list DecodeHypothesis) (saved : list (list DecState)) :
  parse args src_sent beam_size true resume = Some (res, saved) ->
  exists st,
    parse_final args src_sent beam_size true resume = Some st /\
    length (saved_states st) = length (completed_hypotheses st) /\
    (completed_hypotheses st = [] ->
     res = sort_by (fun hyp => neg (score hyp)) (hypotheses st) /\
     saved = []) /\
    (completed_hypotheses st <> [] ->
     length saved = length res /\
     combine res saved =
     sort_by (fun pair => neg (score (fst pair)))
             (combine (completed_hypotheses st) (saved_states st))).
Proof.
  intros Hparse.
  destruct (parse_inv _ _ _ _ _ Hparse) as (st0 & st & Hinit & Hloop & Hr).
  destruct (initial_state_fields _ _ Hinit) as (hyp & _ & _ & Hc0 & Hs0 & _).
  pose proof Hloop as Hlen. apply run_saved in Hlen; trivial.
  destruct Hlen as [Hlen _]. specialize (Hlen eq_refl).
  exists st. split; [|split; [exact Hlen|]].
  { unfold parse_final. rewrite Hinit. exact Hloop. }
  unfold parse_result in Hr. injection Hr as -> ->. split.
  - intros Hnil. rewrite Hnil in *. simpl. auto.
  - intros Hne.
    set (L := sort_by (fun pair : DecodeHypothesis * list DecState =>
                         neg (score (fst pair)))
                      (combine (completed_hypotheses st) (saved_states st))).
    assert (Hres : sort_by (fun hyp => neg (score hyp))
                           (match completed_hypotheses st with
                            | [] => hypotheses st
                            | _ :: _ => completed_hypotheses st
                            end) = map fst L).
    { unfold L.
      rewrite (sort_by_map_fst (fun hyp : DecodeHypothesis => neg (score hyp))).
      rewrite map_fst_combine_eq by (now rewrite Hlen).
      destruct (completed_hypotheses st); [congruence | reflexivity]. }
    rewrite Hres. split.
    + now rewrite !length_map.
    + apply combine_fst_snd.
Qed.
End ReturnedStates.

(** A decoding with beam size 2 that completes two hypotheses: the
    histories come back in the order of the hypotheses. *)
Lemma returned_states_follow_results_witness :
  exists st,
    parse_final (SC:=Toy.fix_scorer (Fix.milli (-600)))
                (TK:=topk_first Fix.fixnum)
                Toy.copy_args Toy.utterance 2 true None = Some st /\
    length (saved_states st) = length (completed_hypotheses st).
Proof.
  assert (Hp : parse (SC:=Toy.fix_scorer (Fix.milli (-600)))
                     (TK:=topk_first Fix.fixnum)
                     Toy.copy_args Toy.utterance 2 true None
               = Some ([mkHyp (N:=Fix.fixnum) [ApplyRuleAction 1]
                              (Fix.milli (-900));
                        mkHyp (N:=Fix.fixnum)
                              [ApplyRuleAction 0; GenTokenAction "a";
                               ReduceAction] (-16162907)%Z],
                       [[0]; [0; 1; 2]]))
    by reflexivity.
  destruct (returned_states_follow_results
              (SC:=Toy.fix_scorer (Fix.milli (-600)))
              (TK:=topk_first Fix.fixnum)
              Toy.copy_args Toy.utterance 2 None Hp)
    as (st & Hfinal & Hlen & _).
  exists st. auto.
Defined.

(** The first step of a decoding: the live hypothesis [ApplyRule 0] has
    one recorded state. *)
Lemma state_histories_track_steps_witness :
  exists st,
    parse_loop (TK:=topk_first Fix.fixnum) Toy.copy_args Toy.utterance 2
               false 1 (Toy.fresh_state (Fix.milli (-600))) = Some st /\
    states_ok st /\
    initial_state (SC:=Toy.fix_scorer (Fix.milli (-600))) Toy.utterance
                  (Some (Toy.partial_hyp, Toy.partial_states))
    = Some (mkBeam (SC:=Toy.fix_scorer (Fix.milli (-600)))
                   1 [Toy.partial_hyp] [Toy.partial_states] [0] [0%Z] [] []).
Proof.
  assert (Hloop :
            parse_loop (TK:=topk_first Fix.fixnum) Toy.copy_args Toy.utterance
                       2 false 1 (Toy.fresh_state (Fix.milli (-600)))
            = Some (mkBeam (SC:=Toy.fix_scorer (Fix.milli (-600)))
                           1 [Toy.partial_hyp] [Toy.partial_states] [0]
                           [Fix.milli (-100)]
                           [mkHyp (N:=Fix.fixnum) [ApplyRuleAction 1]
                                  (Fix.milli (-900))] []))
    by reflexivity.
  eexists. split; [exact Hloop|].
  destruct (state_histories_track_steps
              (TK:=topk_first Fix.fixnum) Toy.copy_args Toy.utterance 2
              false (resume:=None) 1 eq_refl
              (fun hyp states H => False_ind _ (eq_ind None
                 (fun o => match o with None => True | Some _ => False end)
                 I _ H)) Hloop)
    as [Hok Hre].
  split; [exact Hok|].
  apply (Hre 0 Toy.partial_hyp Toy.partial_states 0);
    try reflexivity. simpl. lia.
Defined.

(* ================================================================== *)
(** * More of [parse]: runs without a step, runs that fail *)
(* ================================================================== *)

Section EdgeRuns.
Context {N : Numeric} {G : Grammar} {V : PrimVocab}
        {TS : TransitionSystem G} {SC : Scorer N TS} {TK : TopK N}.
Variable args : Args.
Variable src_sent : list string.
Variable beam_size : nat.
Variable return_states : bool.

(** X10.  When the beam size is zero, or the step of the hypothesis
    handed in has reached [decode_max_time_step], the loop is not entered:
    [parse] makes no call of the decoder and returns the hypothesis it
    started from, the empty one or the one handed in, complete or not,
    and no state history. *)
Theorem parse_without_steps
        (resume : option (DecodeHypothesis * list DecState))
        (st0 : BeamState) :
  initial_state src_sent resume = Some st0 ->
  beam_size = 0 \/ decode_max_time_step args <= bs_t st0 ->
  parse_final args src_sent beam_size return_states resume = Some st0 /\
  parse args src_sent beam_size return_states resume
  = Some (hypotheses st0, []) /\
  exists hyp, hypotheses st0 = [hyp] /\ tree hyp = start_derivation resume.
Proof.
  intros Hinit Hedge.
  destruct (initial_state_fields _ _ Hinit) as (hyp & Hh & Ht & Hc & Hs & _).
  assert (Hfinal : parse_final args src_sent beam_size return_states resume
                   = Some st0).
  { unfold parse_final. rewrite Hinit. simpl.
    destruct (decode_max_time_step args - bs_t st0) as [| fuel] eqn:Hfuel;
      simpl; trivial.
    destruct Hedge as [-> | Hle]; [|lia].
    rewrite (proj2 (Nat.ltb_ge _ 0)) by lia. reflexivity. }
  split; [exact Hfinal|]. split; [|eauto].
  unfold parse. rewrite Hfinal. simpl. unfold parse_result.
  rewrite Hc, Hs, Hh. simpl. now destruct return_states.
Qed.

(** Hypotheses without a candidate leave the lists of a step empty. *)
Lemma collect_no_candidates (scores : StepScores DecState)
      (hyps : list DecodeHypothesis) :
  no_candidates hyps ->
  cand_count (collect args src_sent scores hyps) = 0.
Proof.
  intros Hno. unfold collect.
  apply (fold_left_invariant (fun c => cand_count c = 0)); [reflexivity|].
  intros c [i hyp] Hin Hc. apply enumerate_In in Hin.
  apply nth_error_In in Hin. unfold hyp_step. simpl.
  apply (fold_left_invariant (fun c => cand_count c = 0)); [exact Hc|].
  intros c' ty Hty Hc'.
  destruct (Hno hyp ty Hin Hty) as [-> Hnil]. simpl. now rewrite Hnil.
Qed.

(** X11.  When no live hypothesis has a candidate (the transition system
    offers no Reduce and no GenToken, and no production for an ApplyRule),
    [new_hyp_scores] stays [None] and the step fails where it asks for its
    size: a call of [parse] that enters the loop with such a beam raises
    instead of returning. *)
Theorem parse_fails_without_candidates
        (resume : option (DecodeHypothesis * list DecState))
        (st0 : BeamState) :
  initial_state src_sent resume = Some st0 ->
  no_candidates (hypotheses st0) ->
  0 < beam_size -> bs_t st0 < decode_max_time_step args ->
  new_hyp_scores (hyp_scores st0) (step_cands args src_sent st0) = None /\
  parse args src_sent beam_size return_states resume = None.
Proof.
  intros Hinit Hno Hbeam Ht.
  destruct (initial_state_fields _ _ Hinit) as (hyp & _ & _ & Hc & _).
  assert (Hsc : new_hyp_scores (hyp_scores st0) (step_cands args src_sent st0)
                = None).
  { pose proof (collect_no_candidates (step_scores src_sent st0) Hno) as H0.
    unfold cand_count in H0. unfold new_hyp_scores, step_cands.
    destruct (applyrule_new_hyp_scores _); [|simpl in H0; lia].
    destruct (gentoken_prev_hyp_ids _); [reflexivity | simpl in H0; lia]. }
  split; [exact Hsc|].
  unfold parse, parse_final. rewrite Hinit. simpl.
  destruct (decode_max_time_step args - bs_t st0) as [| fuel] eqn:Hfuel;
    [lia|].
  simpl. rewrite Hc. simpl.
  destruct (Nat.ltb_spec 0 beam_size) as [_ | Hge]; [|lia].
  unfold beam_select. rewrite Hsc. reflexivity.
Qed.
End EdgeRuns.

(** Beam size 0: the empty hypothesis comes back. *)
Lemma parse_without_steps_witness :
  parse (SC:=Toy.fix_scorer (Fix.milli (-600))) (TK:=topk_first Fix.fixnum)
        Toy.copy_args Toy.utterance 0 false None
  = Some ([mkHyp (N:=Fix.fixnum) (TS:=Toy.toy_ts) [] 0%Z], []).
Proof.
  destruct (parse_without_steps
              (SC:=Toy.fix_scorer (Fix.milli (-600)))
              (TK:=topk_first Fix.fixnum)
              Toy.copy_args Toy.utterance (beam_size:=0) false
              None (st0:=Toy.fresh_state (Fix.milli (-600)))
              eq_refl (or_introl eq_refl)) as (_ & Hp & _).
  exact Hp.
Defined.

(** [parse] entered with the completed hypothesis [ApplyRule 1]. *)
Lemma parse_fails_without_candidates_witness :
  parse (SC:=Toy.fix_scorer (Fix.milli (-600))) (TK:=topk_first Fix.fixnum)
        Toy.copy_args Toy.utterance 2 false
        (Some (mkHyp (N:=Fix.fixnum) (TS:=Toy.toy_ts)
                     [ApplyRuleAction (G:=Toy.toy_grammar) 1]
                     (Fix.milli (-900)), [0]))
  = None.
Proof.
  destruct (parse_fails_without_candidates
              (SC:=Toy.fix_scorer (Fix.milli (-600)))
              (TK:=topk_first Fix.fixnum)
              Toy.copy_args Toy.utterance (beam_size:=2) false
              (Some (mkHyp (N:=Fix.fixnum) (TS:=Toy.toy_ts)
                           [ApplyRuleAction (G:=Toy.toy_grammar) 1]
                           (Fix.milli (-900)), [0]))
              eq_refl) as [_ Hp].
  - intros hyp ty [<- | []]. simpl. contradiction.
  - lia.
  - simpl. lia.
  - exact Hp.
Defined.

(* ================================================================== *)
(** * [Parser.sample] *)
(* ================================================================== *)

Section SampleFacts.
Context {N : Numeric} {G : Grammar} {V : PrimVocab}
        {TS : TransitionSystem G} {SC : Scorer N TS} {TK : TopK N}.
Context {E : ExactArith N} {TKS : TopKSpec TK}.
Variable args : Args.
Variable args_beam_size : nat.
Variable src_sent : list string.

(** X8.  [sample] hands a completed hypothesis back as it is, without a
    search.  Otherwise, when the transition system has a continuation for
    every incomplete derivation, it returns: its result is the first
    hypothesis of the list [parse] returns for [args['beam_size']], no
    hypothesis of that list has a higher score, and it is completed
    exactly when the hypotheses of that list are. *)
Theorem sample_returns_top_hypothesis
        (resume : option (DecodeHypothesis * list DecState)) :
  (forall hyp states,
     resume = Some (hyp, states) -> completed (tree hyp) = true ->
     sample args args_beam_size src_sent resume = Some hyp) /\
  (ts_progress TS ->
   forall st0,
     initial_state src_sent resume = Some st0 ->
     Forall (fun h => completed (tree h) = false) (hypotheses st0) ->
     exists res rest saved,
       parse args src_sent args_beam_size false resume
       = Some (res :: rest, saved) /\
       sample args args_beam_size src_sent resume = Some res /\
       Forall (fun h => leb (score h) (score res) = true) rest /\
       Forall (fun h => completed (tree h) = completed (tree res)) rest).
Proof.
  split.
  - intros hyp states -> Hdone. simpl. now rewrite Hdone.
  - intros Hprog st0 Hinit Hlive0.
    pose proof (initial_state_ok _ _ Hinit Hlive0) as Hok.
    destruct (parse_loop_total args src_sent args_beam_size false Hprog
                (decode_max_time_step args - bs_t st0) Hok)
      as (st & Hloop & Hlive & Hdone).
    destruct (initial_state_fields _ _ Hinit) as (hyp & Hh & Ht & Hc & _).
    assert (Hsize : 1 <= length (hypotheses st) <= max 1 args_beam_size /\
                    length (completed_hypotheses st) <= args_beam_size).
    { pose proof Hloop as Hs. apply run_sizes in Hs; trivial.
      - rewrite Hh. cbn [length]. lia.
      - rewrite Hc. cbn [length]. lia. }
    assert (Hparse : parse args src_sent args_beam_size false resume
                     = Some (parse_result false st)).
    { unfold parse, parse_final. rewrite Hinit. simpl. now rewrite Hloop. }
    pose proof (parse_result_perm false st) as Hperm.
    pose proof (sorted_result_descending
                  (match completed_hypotheses st with
                   | [] => hypotheses st
                   | _ => completed_hypotheses st
                   end)) as Hsorted.
    assert (Hsame : exists b,
               Forall (fun h => completed (tree h) = b)
                      (fst (parse_result false st))).
    { destruct (completed_hypotheses st) as [| h l] eqn:Hcs.
      - exists false. rewrite Forall_forall in *. intros h Hin.
        apply Hlive. now apply (Permutation_in _ Hperm).
      - exists true. rewrite Forall_forall in *. intros h' Hin.
        apply Hdone. now apply (Permutation_in _ Hperm). }
    destruct Hsame as [b Hsame].
    unfold parse_result in *. cbn [fst] in *.
    destruct (sort_by (fun hyp0 => neg (score hyp0))
                      (match completed_hypotheses st with
                       | [] => hypotheses st
                       | _ => completed_hypotheses st
                       end)) as [| res rest] eqn:Hres.
    { apply Permutation_length in Hperm.
      destruct (completed_hypotheses st); simpl in Hperm; [lia | discriminate]. }
    exists res, rest, (saved_states st). split; [exact Hparse|].
    split; [|split].
    + assert (Hs : obind (parse args src_sent args_beam_size false resume)
                         first_result = Some res)
        by (rewrite Hparse; reflexivity).
      unfold sample. destruct resume as [[hyp' states] |]; trivial.
      simpl in Ht. rewrite Hh in Hlive0.
      inversion Hlive0 as [| ? ? Hinc _]; subst.
      rewrite <- Ht, Hinc. exact Hs.
    + inversion Hsorted as [| ? ? _ Hhead]; subst. exact Hhead.
    + inversion Hsame as [| ? ? Hb Hrest]; subst.
      rewrite Forall_forall in *. intros h Hin. now rewrite (Hrest h Hin).
Qed.
End SampleFacts.

(** A search with beam size 1 cut off after two steps: [sample] returns
    the live hypothesis, which is not completed. *)
Lemma sample_returns_top_hypothesis_witness :
  sample (SC:=Toy.fix_scorer (Fix.milli (-500))) (TK:=topk_first Fix.fixnum)
         (mkArgs false 2) 1 Toy.utterance None
  = Some (mkHyp (N:=Fix.fixnum) (TS:=Toy.toy_ts)
                [ApplyRuleAction 0; GenTokenAction "a"] (-10162907)%Z) /\
  completed (TransitionSystem:=Toy.toy_ts)
            [ApplyRuleAction 0; GenTokenAction "a"] = false.
Proof.
  destruct (sample_returns_top_hypothesis
              (SC:=Toy.fix_scorer (Fix.milli (-500)))
              (TK:=topk_first Fix.fixnum) (E:=fix_exact)
              (TKS:=topk_first_spec fix_exact)
              (mkArgs false 2) 1 Toy.utterance None) as [_ Hs].
  destruct (Hs toy_progress (Toy.fresh_state (Fix.milli (-500))) eq_refl)
    as (res & rest & saved & Hparse & Hsample & _).
  - repeat constructor.
  - assert (Hp : parse (SC:=Toy.fix_scorer (Fix.milli (-500)))
                       (TK:=topk_first Fix.fixnum) (mkArgs false 2)
                       Toy.utterance 1 false None
                 = Some ([mkHyp (N:=Fix.fixnum) (TS:=Toy.toy_ts)
                                [ApplyRuleAction 0; GenTokenAction "a"]
                                (-10162907)%Z], []))
      by reflexivity.
    rewrite Hp in Hparse. injection Hparse as <- _ _.
    split; [exact Hsample | reflexivity].
Defined.

(* ================================================================== *)
(** * More of [score]: padded steps *)
(* ================================================================== *)

Section ScorePadding.
Context {N : Numeric} {E : ExactArith N}.
Variable args : Args.
Variable label_smoothing : option Tensor2.
Variable batch : Batch.
Variable probs : ScoreProbs.

Lemma fold_add_zeros (l : list num) (acc : num) :
  Forall (fun x => x = zero) l -> fold_left add l acc = acc.
Proof.
  intros H. revert acc. induction H as [| x l -> _ IH]; intros acc; simpl;
    trivial.
  now rewrite add_zero_r.
Qed.

(** A step whose three masks are zero adds zero, with copy and without. *)
Lemma padded_step_zero (t b : nat) :
  apply_rule_mask batch t b = zero -> gen_token_mask batch t b = zero ->
  primitive_copy_mask batch t b = zero ->
  action_prob args label_smoothing batch probs t b = zero.
Proof.
  intros Hr Hg Hc. unfold action_prob. destruct (no_copy args).
  - now rewrite Hr, Hg, !mul_zero_r, add_zero_r.
  - unfold action_mask, action_mask_pad.
    now rewrite Hr, Hg, Hc, !add_zero_r, is_zero_zero, mul_zero_r.
Qed.

(** X9.  The score of an example does not depend on how far its batch is
    padded: steps at which the three masks of the example are zero can be
    added at the end of the batch without changing the score, with copy
    enabled and with copy disabled, with label smoothing and without. *)
Theorem score_ignores_padding (b len' : nat) :
  tgt_action_len batch <= len' ->
  (forall t, tgt_action_len batch <= t < len' ->
             apply_rule_mask batch t b = zero /\
             gen_token_mask batch t b = zero /\
             primitive_copy_mask batch t b = zero) ->
  score_example args label_smoothing (with_action_len batch len') probs b =
  score_example args label_smoothing batch probs b.
Proof.
  intros Hle Hpad. unfold score_example, tsum. simpl.
  replace len' with (tgt_action_len batch + (len' - tgt_action_len batch))
    at 1 by lia.
  rewrite seq_app, map_app, fold_left_app. simpl.
  change (action_prob args label_smoothing (with_action_len batch len') probs)
    with (action_prob args label_smoothing batch probs).
  apply fold_add_zeros. rewrite Forall_forall. intros x Hx.
  apply in_map_iff in Hx. destruct Hx as (t & <- & Ht).
  apply in_seq in Ht.
  destruct (Hpad t) as (Hr & Hg & Hc); [lia|].
  now apply padded_step_zero.
Qed.

End ScorePadding.

(** [fix_batch] cut to its two gold steps, and padded back to three. *)
Lemma score_ignores_padding_witness :
  score_example Toy.copy_args None
                (with_action_len (with_action_len Toy.fix_batch 2) 3)
                Toy.fix_probs 0 =
  score_example Toy.copy_args None (with_action_len Toy.fix_batch 2)
                Toy.fix_probs 0.
Proof.
  apply (score_ignores_padding
           (E:=fix_exact) Toy.copy_args None
           (with_action_len Toy.fix_batch 2) Toy.fix_probs 0 (len':=3)).
  - simpl. lia.
  - intros t Ht. simpl in Ht. assert (t = 2) by lia. subst t.
    repeat split; reflexivity.
Defined.



(* ================================================================== *)
(** * More of [parse]: the number of steps *)
(* ================================================================== *)

Section StepBound.
Context {N : Numeric} {G : Grammar} {V : PrimVocab}
        {TS : TransitionSystem G} {SC : Scorer N TS} {TK : TopK N}.
Variable args : Args.
Variable src_sent : list string.
Variable beam_size : nat.
Variable return_states : bool.

Lemma parse_loop_steps fuel :
  forall st0 st,
    parse_loop args src_sent beam_size return_states fuel st0 = Some st ->
    bs_t st0 <= bs_t st <= bs_t st0 + fuel /\
    exists newc,
      completed_hypotheses st = completed_hypotheses st0 ++ newc.
Proof.
  induction fuel as [| fuel IH]; intros st0 st; simpl.
  - intros H. injection H as <-. split; [lia|]. exists [].
    now rewrite app_nil_r.
  - destruct (length (completed_hypotheses st0) <? beam_size);
      [|intros H; injection H as <-; split; [lia|]; exists [];
        now rewrite app_nil_r].
    destruct (beam_select args src_sent beam_size return_states st0)
      as [sel |] eqn:Hsel; simpl; [|discriminate].
    assert (Hc : exists newc,
               sel_completed sel = completed_hypotheses st0 ++ newc).
    { apply (beam_select_fold_inv
               args src_sent beam_size return_states
               (fun a => exists newc,
                           sel_completed a = completed_hypotheses st0 ++ newc)
               st0 Hsel).
      - exists []. simpl. now rewrite app_nil_r.
      - intros new_scores a e a' _ _ [newc Ha] H1.
        apply select_one_inv in H1. destruct H1 as (pid & prev & ai & _ & H1).
        simpl in H1.
        destruct H1 as [(_ & _ & _ & ->) | (_ & _ & _ & -> & _)]; [|eauto].
        rewrite Ha, <- app_assoc. eauto. }
    destruct (live_hyp_ids sel) as [| i l].
    + intros H. injection H as <-. simpl. split; [lia | exact Hc].
    + destruct (beam_advance src_sent st0 sel) as [st1 |] eqn:Hadv; simpl;
        [|discriminate].
      intros Hloop. destruct (IH _ _ Hloop) as [Ht (newc & Hn)].
      apply beam_advance_fields in Hadv.
      destruct Hadv as (Ht1 & _ & _ & _ & Hc1 & _).
      split; [lia|]. destruct Hc as [newc0 Hc]. rewrite Hn, Hc1, Hc.
      rewrite <- app_assoc. eauto.
Qed.

(** X14.  The search never goes past [decode_max_time_step]: the step
    counter [parse] ends with is at least the one it started with and at
    most [decode_max_time_step], or the starting one if that is
    larger. *)
Theorem parse_step_bound
        (resume : option (DecodeHypothesis * list DecState))
        (st0 st : BeamState) :
  initial_state src_sent resume = Some st0 ->
  parse_final args src_sent beam_size return_states resume = Some st ->
  bs_t st0 <= bs_t st <= max (bs_t st0) (decode_max_time_step args).
Proof.
  intros Hinit. unfold parse_final. rewrite Hinit. simpl. intros Hloop.
  apply parse_loop_steps in Hloop. lia.
Qed.
End StepBound.

(** Beam size 1 and a bound of two steps: the search stops at step 2. *)
Lemma parse_step_bound_witness :
  exists st,
    parse_final (SC:=Toy.fix_scorer (Fix.milli (-500)))
                (TK:=topk_first Fix.fixnum) (mkArgs false 2) Toy.utterance 1
                false None = Some st /\
    0 <= bs_t st <= 2.
Proof.
  assert (Hfinal :
            parse_final (SC:=Toy.fix_scorer (Fix.milli (-500)))
                        (TK:=topk_first Fix.fixnum) (mkArgs false 2)
                        Toy.utterance 1 false None
            = Some (mkBeam (SC:=Toy.fix_scorer (Fix.milli (-500)))
                           2 [mkHyp (N:=Fix.fixnum)
                                    [ApplyRuleAction 0; GenTokenAction "a"]
                                    (-10162907)%Z]
                           [[0; 1]] [1] [(-10162907)%Z] [] []))
    by reflexivity.
  eexists. split; [exact Hfinal|].
  pose proof (parse_step_bound
                (SC:=Toy.fix_scorer (Fix.milli (-500)))
                (TK:=topk_first Fix.fixnum) (mkArgs false 2) Toy.utterance
                1 false None
                (st0:=Toy.fresh_state (Fix.milli (-500))) eq_refl Hfinal)
    as Hb.
  exact Hb.
Defined.
